(** * splitlogic: equal split of a group expense and greedy settlement

    A shallow embedding of [src/splitlogic.py] ([compute_balances] and
    [settle_debts]) together with the properties stated for it.

    Numbers.  Both callers of the core ([get_group_data] and the web form in
    [src/app.py]) hand over Python [float]s, that is IEEE-754 binary64
    values.  They are modelled by Rocq's primitive [float], which is the
    same format with the same round-to-nearest-even arithmetic, so the
    definitions below compute bit for bit what the Python code computes.

    Dictionaries.  A Python [dict] keeps its keys unique and iterates in
    insertion order; [settle_debts] depends on that order through the
    stable sort.  A dictionary is therefore an association list without
    duplicate keys, in insertion order. *)

From Stdlib Require Import ZArith String List Bool Lia Floats.
From Stdlib Require Import Reals Lra Psatz Permutation.
From Stdlib Require Import DecimalString.
Import ListNotations.

Set Warnings "-inexact-float".

Local Open Scope Z_scope.

(* ================================================================= *)
(** ** Rounding to two decimals: Python's [round(x, 2)] *)

(** Nearest integer to [num / den] ([den > 0]), ties to the even one. *)
Definition Zrne (num den : Z) : Z :=
  let q := num / den in
  match 2 * (num mod den) ?= den with
  | Lt => q
  | Gt => q + 1
  | Eq => if Z.even q then q else q + 1
  end.

(** [2 ^ k] for [k >= 0], and [1] for a negative [k]. *)
Definition pow2 (k : Z) : Z := 2 ^ Z.max 0 k.

(** The binary64 number nearest to the positive rational [num / den]
    (ties to even), with sign [s].  [lg] is the binary logarithm of the
    quotient, [e] the exponent of the result and [m] its significand. *)
Definition nearest_binary64 (s : bool) (num den : positive) : spec_float :=
  let l := Z.log2 (Zpos num) - Z.log2 (Zpos den) in
  let lg := if Zpos den * pow2 l <=? Zpos num * pow2 (- l) then l else l - 1 in
  let e := Z.max (lg - 52) (-1074) in
  let m := Zrne (Zpos num * pow2 (- e)) (Zpos den * pow2 e) in
  let '(m, e) := if m =? 2 ^ 53 then (2 ^ 52, e + 1) else (m, e) in
  match m with
  | Zpos p => if e <=? 971 then S754_finite s p e else S754_infinity s
  | _ => S754_zero s
  end.

(** [round(x, 2)] on a float.  CPython prints the exact value of [x] with
    two correctly rounded decimals (ties to even) and reads the decimal
    back as the nearest double.  Infinities and NaN round to themselves;
    a double with a non-negative exponent is an integer and is its own
    rounding; a result that rounds to zero keeps the sign of [x]. *)
Definition round2 (x : float) : float :=
  match Prim2SF x with
  | S754_finite s m e =>
      if 0 <=? e then x
      else match Zrne (100 * Zpos m) (2 ^ (- e)) with
           | Zpos n => SF2Prim (nearest_binary64 s n 100)
           | _ => SF2Prim (S754_zero s)
           end
  | _ => x
  end.

(** Conversion of a list length to a float, as [total / n] does. *)
Definition float_of_nat (n : nat) : float :=
  match n with
  | O => 0%float
  | S _ => SF2Prim (nearest_binary64 false (Pos.of_nat n) 1)
  end.

(** [min(a, b)]: the first argument unless the second is smaller. *)
Definition py_min (a b : float) : float :=
  if (b <? a)%float then b else a.

(** [sum(xs)]: addition from the left, starting at zero. *)
Definition py_sum (xs : list float) : float :=
  fold_left PrimFloat.add xs 0%float.

(* ================================================================= *)
(** ** Dictionaries *)

Definition pydict := list (string * float).

Definition keys (d : pydict) : list string := map fst d.
Definition values (d : pydict) : list float := map snd d.

(** [d[k] = v]: an existing key keeps its place, a new one goes last. *)
Fixpoint dict_set (d : pydict) (k : string) (v : float) : pydict :=
  match d with
  | [] => [(k, v)]
  | (k', v') :: d' =>
      if String.eqb k' k then (k', v) :: d' else (k', v') :: dict_set d' k v
  end.

Fixpoint dict_get (d : pydict) (k : string) : option float :=
  match d with
  | [] => None
  | (k', v') :: d' => if String.eqb k' k then Some v' else dict_get d' k
  end.

(* ================================================================= *)
(** ** [compute_balances] *)

Definition compute_balances (names : list string) (amounts : list float)
  : float * float * pydict :=
  let total_expense := py_sum amounts in
  let n := length names in
  let equal_share :=
    if (0 <? n)%nat then (total_expense / float_of_nat n)%float else 0%float in
  let balances :=
    fold_left
      (fun balances '(name, amt) =>
         dict_set balances name (round2 (amt - equal_share)%float))
      (combine names amounts) [] in
  (total_expense, equal_share, balances).

(* ================================================================= *)
(** ** [settle_debts] *)

(** An element [[name, amount]] of [creditors] or [debtors]. *)
Definition entry := (string * float)%type.

(** A settlement transaction [(payer, receiver, amount)]. *)
Definition transaction := (string * string * float)%type.

(** The first loop: creditors and debtors in the order of the mapping. *)
Definition classify_item (cd : list entry * list entry) (item : string * float)
  : list entry * list entry :=
  let '(creditors, debtors) := cd in
  let '(name, bal) := item in
  if (0.01 <? bal)%float then (creditors ++ [(name, bal)], debtors)
  else if (bal <? -0.01)%float then (creditors, debtors ++ [(name, (- bal)%float)])
  else (creditors, debtors).

Definition classify (balances : pydict) : list entry * list entry :=
  fold_left classify_item balances ([], []).

(** [l.sort(key=lambda x: x[1], reverse=True)]: a stable sort, largest
    amount first; entries with equal amounts keep their order.  (With a
    NaN among the keys Python's result depends on the order of the
    comparisons made by its sort; every list sorted below is NaN-free
    whenever that matters.) *)
Fixpoint insert_desc (x : entry) (l : list entry) : list entry :=
  match l with
  | [] => [x]
  | y :: l' =>
      if (snd x <? snd y)%float then y :: insert_desc x l' else x :: y :: l'
  end.

Definition sort_desc (l : list entry) : list entry :=
  fold_right insert_desc [] l.

(** [l[k] = x] *)
Fixpoint set_nth {A : Type} (k : nat) (x : A) (l : list A) : list A :=
  match l, k with
  | [], _ => []
  | _ :: l', O => x :: l'
  | y :: l', S k' => y :: set_nth k' x l'
  end.

(** The variables in scope during the sweep.  [balances] is the argument
    object itself; the other fields are the function's locals. *)
Record frame : Type := mkFrame {
  balances : pydict;
  creditors : list entry;
  debtors : list entry;
  transactions : list transaction;
  idx_i : nat;
  idx_j : nat
}.

Definition loop_guard (st : frame) : bool :=
  (idx_i st <? length (debtors st))%nat && (idx_j st <? length (creditors st))%nat.

(** One pass through the body of the [while] loop. *)
Definition loop_body (st : frame) : frame :=
  match nth_error (debtors st) (idx_i st), nth_error (creditors st) (idx_j st) with
  | Some (debtor_name, debtor_owes), Some (creditor_name, creditor_receives) =>
      let amount := round2 (py_min debtor_owes creditor_receives) in
      let transactions' :=
        if (0 <? amount)%float
        then transactions st ++ [(debtor_name, creditor_name, amount)]
        else transactions st in
      let debtor_owes' := round2 (debtor_owes - amount)%float in
      let creditor_receives' := round2 (creditor_receives - amount)%float in
      mkFrame (balances st)
              (set_nth (idx_j st) (creditor_name, creditor_receives') (creditors st))
              (set_nth (idx_i st) (debtor_name, debtor_owes') (debtors st))
              transactions'
              (if (debtor_owes' <? 0.01)%float then S (idx_i st) else idx_i st)
              (if (creditor_receives' <? 0.01)%float then S (idx_j st) else idx_j st)
  | _, _ => st
  end.

(** The [while] loop; [None] when [fuel] passes do not reach the exit. *)
Fixpoint while_loop (fuel : nat) (st : frame) : option frame :=
  if loop_guard st then
    match fuel with
    | O => None
    | S fuel' => while_loop fuel' (loop_body st)
    end
  else Some st.

(** The frame on entry to the [while] loop. *)
Definition settle_init (balances : pydict) : frame :=
  let '(creditors, debtors) := classify balances in
  mkFrame balances (sort_desc creditors) (sort_desc debtors) [] 0 0.

(** The frame on return, if the loop ends within [fuel] passes. *)
Definition settle_run (fuel : nat) (balances : pydict) : option frame :=
  while_loop fuel (settle_init balances).

Definition settle_debts (fuel : nat) (balances : pydict)
  : option (list transaction) :=
  option_map transactions (settle_run fuel balances).

(** [n] passes of the loop, stopping early at the exit; defined for every
    run, whether or not the loop ever leaves. *)
Fixpoint passes (n : nat) (st : frame) : frame :=
  match n with
  | O => st
  | S n' => if loop_guard st then passes n' (loop_body st) else st
  end.

(* ================================================================= *)
(** ** Applying a settlement plan to the balances *)

(** A payment lowers the payer's debt (the negated balance) and lowers
    the receiver's credit (the balance) by the amount. *)
Definition apply_transaction (b : pydict) (t : transaction) : pydict :=
  let '(payer, receiver, amount) := t in
  map (fun '(name, bal) =>
         let bal1 := if String.eqb name payer
                     then (- ((- bal) - amount))%float else bal in
         let bal2 := if String.eqb name receiver
                     then (bal1 - amount)%float else bal1 in
         (name, bal2)) b.

Definition apply_transactions (b : pydict) (ts : list transaction) : pydict :=
  fold_left apply_transaction ts b.

(** [|x| <= 0.01] *)
Definition within_cent (x : float) : bool := (abs x <=? 0.01)%float.

(* ================================================================= *)
(** ** The request handler's two calls, one after the other *)

(** The objects the caller holds across a call: the two input lists. *)
Record inputs : Type := mkInputs {
  in_names : list string;
  in_amounts : list float
}.

Record outputs : Type := mkOutputs {
  out_total : float;
  out_share : float;
  out_balances : pydict;
  out_transactions : option (list transaction)
}.

(** [compute_balances] followed by [settle_debts]; returns the results and
    the caller's objects as the two calls leave them.  Neither function
    assigns to an element of [names] or [amounts], and the module has no
    global variable. *)
Definition calculate (fuel : nat) (w : inputs) : outputs * inputs :=
  let '(total, share, balances) := compute_balances (in_names w) (in_amounts w) in
  let transactions := settle_debts fuel balances in
  (mkOutputs total share balances transactions, w).

(* ================================================================= *)
(** * Vocabulary of the properties *)

(* ----------------------------------------------------------------- *)
(** ** The loop of [compute_balances] and the two sides of [settle_debts] *)

(** The [for name, amt in zip(names, amounts)] loop, from a dictionary [d]. *)
Definition fill (share : float) (d : pydict) (items : list (string * float))
  : pydict :=
  fold_left
    (fun balances '(name, amt) =>
       dict_set balances name (round2 (amt - share)%float))
    items d.

(** The entries the claim calls creditors and debtors. *)
Definition is_creditor (item : string * float) : bool := (0.01 <? snd item)%float.
Definition is_debtor (item : string * float) : bool := (snd item <? -0.01)%float.

(** How many of each a mapping has. *)
Definition num_creditors (b : pydict) : nat := length (filter is_creditor b).
Definition num_debtors (b : pydict) : nat := length (filter is_debtor b).

(** A recorded payment goes from a debtor to a creditor and is positive. *)
Definition txn_ok (dnames cnames : list string) (t : transaction) : Prop :=
  let '(payer, receiver, amount) := t in
  In payer dnames /\ In receiver cnames /\ (0 <? amount)%float = true.

(* ----------------------------------------------------------------- *)
(** ** Floats as real numbers *)

(** Powers of two, and the real number a decoded float stands for
    (zero for the infinities and NaN). *)
Definition bpow (e : Z) : R := powerRZ 2 e.

Definition SF2R (f : spec_float) : R :=
  match f with
  | S754_finite s m e => (IZR (cond_Zopp s (Zpos m)) * bpow e)%R
  | _ => 0%R
  end.

Definition F2R (x : float) : R := SF2R (Prim2SF x).

(* ----------------------------------------------------------------- *)
(** ** Whole cents *)

(** The largest number of cents the analysis covers: 10^12 currency units. *)
Definition cent_bound : Z := 10 ^ 14.

(** The float Python uses for [k] cents: the double nearest to [k / 100]. *)
Definition cents (k : Z) : float :=
  match k with
  | Z0 => 0%float
  | Zpos p => SF2Prim (nearest_binary64 false p 100)
  | Zneg p => SF2Prim (nearest_binary64 true p 100)
  end.

(** Zero or normal: what [cents] produces. *)
Definition SFnice (f : spec_float) : Prop :=
  match f with
  | S754_zero _ => True
  | S754_finite _ m _ => Zpos (digits2_pos m) = 53
  | _ => False
  end.

(** The integer nearest to [100 * x]. *)
Definition to_cents (x : float) : Z :=
  match Prim2SF x with
  | S754_finite s m e =>
      cond_Zopp s (Zrne (100 * Zpos m * pow2 e) (pow2 (- e)))
  | _ => 0
  end.

(** [x] is a whole number of cents, at most [cent_bound] in magnitude:
    it compares equal to the float of its own number of cents. *)
Definition is_cents (x : float) : bool :=
  (x =? cents (to_cents x))%float && (Z.abs (to_cents x) <=? cent_bound).

(* ----------------------------------------------------------------- *)
(** ** The sweep of [settle_debts] in integer cents *)

(** Elements of [creditors] and [debtors], and transactions, in cents. *)
Definition zentry := (string * Z)%type.
Definition ztransaction := (string * string * Z)%type.

(** The locals of the sweep, amounts counted in cents. *)
Record zframe : Type := mkZFrame {
  zcreditors : list zentry;
  zdebtors : list zentry;
  ztransactions : list ztransaction;
  zidx_i : nat;
  zidx_j : nat
}.

(** The float entry, transaction and frame that integer ones stand for. *)
Definition enc_entry (e : zentry) : entry := (fst e, cents (snd e)).

Definition enc_transaction (t : ztransaction) : transaction :=
  let '(payer, receiver, amount) := t in (payer, receiver, cents amount).

Definition enc_frame (b : pydict) (z : zframe) : frame :=
  mkFrame b (map enc_entry (zcreditors z)) (map enc_entry (zdebtors z))
          (map enc_transaction (ztransactions z)) (zidx_i z) (zidx_j z).

(** The loop condition on an integer frame. *)
Definition zloop_guard (z : zframe) : bool :=
  (zidx_i z <? length (zdebtors z))%nat && (zidx_j z <? length (zcreditors z))%nat.

(** The body of the [while] loop with integer arithmetic in place of the
    rounded float arithmetic. *)
Definition zloop_body (z : zframe) : zframe :=
  match nth_error (zdebtors z) (zidx_i z), nth_error (zcreditors z) (zidx_j z) with
  | Some (debtor_name, debtor_owes), Some (creditor_name, creditor_receives) =>
      let amount := if creditor_receives <? debtor_owes
                    then creditor_receives else debtor_owes in
      let transactions' :=
        if 0 <? amount
        then ztransactions z ++ [(debtor_name, creditor_name, amount)]
        else ztransactions z in
      let debtor_owes' := debtor_owes - amount in
      let creditor_receives' := creditor_receives - amount in
      mkZFrame (set_nth (zidx_j z) (creditor_name, creditor_receives') (zcreditors z))
               (set_nth (zidx_i z) (debtor_name, debtor_owes') (zdebtors z))
               transactions'
               (if debtor_owes' <? 1 then S (zidx_i z) else zidx_i z)
               (if creditor_receives' <? 1 then S (zidx_j z) else zidx_j z)
  | _, _ => z
  end.

(** Amounts of the integer frame stay between zero and the bound. *)
Definition in_range (e : zentry) : Prop := 0 <= snd e <= cent_bound.

Definition zgood (z : zframe) : Prop :=
  Forall in_range (zcreditors z) /\ Forall in_range (zdebtors z).

(** The sum of the amounts of a list of entries. *)
Fixpoint zsum (l : list zentry) : Z :=
  match l with
  | [] => 0
  | e :: l' => snd e + zsum l'
  end.

(** Cents paid by [name] and cents received by [name] in a plan. *)
Fixpoint zpaid (name : string) (ts : list ztransaction) : Z :=
  match ts with
  | [] => 0
  | (payer, _, amount) :: ts' =>
      (if String.eqb payer name then amount else 0) + zpaid name ts'
  end.

Fixpoint zreceived (name : string) (ts : list ztransaction) : Z :=
  match ts with
  | [] => 0
  | (_, receiver, amount) :: ts' =>
      (if String.eqb receiver name then amount else 0) + zreceived name ts'
  end.

(** The entries [l0] after each has paid (or received) what [done] says. *)
Definition settle_entries (done : string -> Z) (l0 : list zentry) : list zentry :=
  map (fun e => (fst e, snd e - done (fst e))) l0.

(** What holds of the integer frame throughout a run that starts from the
    creditors [c0] and debtors [d0] with no transaction. *)
Record zinv (c0 d0 : list zentry) (z : zframe) : Prop := mkZInv {
  zinv_good : zgood z;
  zinv_len_d : length (zdebtors z) = length d0;
  zinv_len_c : length (zcreditors z) = length c0;
  zinv_i : (zidx_i z <= length d0)%nat;
  zinv_j : (zidx_j z <= length c0)%nat;
  zinv_settled_d :
    forall k e, (k < zidx_i z)%nat -> nth_error (zdebtors z) k = Some e -> snd e = 0;
  zinv_settled_c :
    forall k e, (k < zidx_j z)%nat -> nth_error (zcreditors z) k = Some e -> snd e = 0;
  zinv_count :
    (length (ztransactions z) <= zidx_i z + zidx_j z)%nat /\
    (ztransactions z = [] \/
     (length (ztransactions z) + 1 <= length d0 + length c0)%nat);
  zinv_positive :
    Forall (fun t => 0 < snd t <= cent_bound) (ztransactions z);
  zinv_sum :
    zsum (zdebtors z) - zsum (zcreditors z) = zsum d0 - zsum c0;
  zinv_paid :
    NoDup (map fst d0) ->
    zdebtors z = settle_entries (fun n => zpaid n (ztransactions z)) d0;
  zinv_received :
    NoDup (map fst c0) ->
    zcreditors z = settle_entries (fun n => zreceived n (ztransactions z)) c0
}.

(* ----------------------------------------------------------------- *)
(** ** A mapping read in cents *)

(** The creditors and the debtors of a mapping, in cents and in the order
    of the mapping. *)
Definition zcreditors_of (b : pydict) : list zentry :=
  map (fun item => (fst item, to_cents (snd item))) (filter is_creditor b).

Definition zdebtors_of (b : pydict) : list zentry :=
  map (fun item => (fst item, - to_cents (snd item))) (filter is_debtor b).

(** A float entry read in cents. *)
Definition dec_entry (e : entry) : zentry := (fst e, to_cents (snd e)).

(** Every value of the mapping is a whole number of cents. *)
Definition all_cents (b : pydict) : Prop :=
  Forall (fun v => is_cents v = true) (values b).

(** Cents paid by [name], and cents received by [name], in a plan. *)
Fixpoint paid (name : string) (ts : list transaction) : Z :=
  match ts with
  | [] => 0
  | (payer, _, amount) :: ts' =>
      (if String.eqb payer name then to_cents amount else 0) + paid name ts'
  end.

Fixpoint received (name : string) (ts : list transaction) : Z :=
  match ts with
  | [] => 0
  | (_, receiver, amount) :: ts' =>
      (if String.eqb receiver name then to_cents amount else 0) + received name ts'
  end.

(** Total credit and total debt of a mapping, in cents, over the entries
    that [settle_debts] classifies. *)
Definition total_credit (b : pydict) : Z := zsum (zcreditors_of b).
Definition total_debt (b : pydict) : Z := zsum (zdebtors_of b).

(* ----------------------------------------------------------------- *)
(** ** Non-negative amounts and exact sums *)

(** A zero, or a positive normal number whose exponent is at least [lo].
    Amounts in whole cents, their sums and their shares are of this kind. *)
Definition nonneg (lo : Z) (x : float) : Prop :=
  (exists s, Prim2SF x = S754_zero s) \/
  (exists m e, Prim2SF x = S754_finite false m e /\
               Zpos (digits2_pos m) = 53 /\ lo <= e).

(** The exact sum of a list of floats. *)
Definition Rsum (l : list float) : R :=
  fold_right (fun x r => (F2R x + r)%R) 0%R l.

(** The exact sum, in cents, of a list of whole-cent floats. *)
Definition cents_sum (l : list float) : Z :=
  fold_right (fun x z => to_cents x + z) 0 l.

(* ----------------------------------------------------------------- *)
(** ** Scenarios *)

(** One payer and three others. *)
Definition names_abcd : list string := ["A"; "B"; "C"; "D"]%string.
Definition amounts_abcd : list float := [100; 0; 0; 0]%float.
Definition balances_abcd : pydict :=
  [("A", 75); ("B", -25); ("C", -25); ("D", -25)]%float%string.

(** One payer and six others: every share is [1/7]. *)
Definition names_seven : list string :=
  ["A"; "B"; "C"; "D"; "E"; "F"; "G"]%string.
Definition amounts_seven : list float := [1; 0; 0; 0; 0; 0; 0]%float.
Definition balances_seven : pydict :=
  [("A", 0.86); ("B", -0.14); ("C", -0.14); ("D", -0.14);
   ("E", -0.14); ("F", -0.14); ("G", -0.14)]%float%string.

(* ================================================================= *)
(** * The console programme: [get_group_data], [print_summary], [main] *)

(** The exceptions that can leave these functions.  [ValueError] from
    [int] and [float] is caught inside [get_group_data] and never leaves. *)
Inductive exn : Type :=
| EOFError
| StopIteration
| KeyError (key : string).

(** How a call ends. *)
Inductive outcome (A : Type) : Type :=
| Returned (a : A)
| Raised (e : exn).

Arguments Returned {A} a.
Arguments Raised {A} e.

(** Python's own functions on text that the programme calls.  Nothing is
    assumed about them: [py_int] and [py_float] answer [None] where the
    Python function raises [ValueError]. *)
Record builtins : Type := mkBuiltins {
  py_int : string -> option Z;
  py_float : string -> option float;
  py_strip : string -> string;
  py_center : string -> Z -> string;
  py_format_float : string -> float -> string;
  py_format_str : string -> string -> string
}.

(** One write to the standard output, which is the list of the writes
    made so far. *)
Definition write (out : list string) (s : string) : list string := out ++ [s].

Local Open Scope string_scope.

Definition nl : string := String (Ascii.ascii_of_nat 10) "".

(** [str(n)] for a non-negative integer. *)
Definition str_nat (n : nat) : string := NilZero.string_of_uint (Nat.to_uint n).




(** [print(s)]: one write of [s] and a newline. *)
Definition say (out : list string) (s : string) : list string :=
  write out (s ++ nl).

(* ----------------------------------------------------------------- *)
(** ** [get_group_data] *)

(** Every function below takes the lines still to be read from the
    standard input and the output so far, and gives back what is left of
    the input and the output.  [input(prompt)] writes the prompt, then
    raises [EOFError] when no line is left. *)

(** The first [while True]: the number of people. *)
Fixpoint read_people_count (B : builtins) (stdin out : list string)
  : outcome Z * list string * list string :=
  let out := write out (nl ++ "==> Enter the number of people in the group: ") in
  match stdin with
  | [] => (Raised EOFError, [], out)
  | line :: rest =>
      match py_int B line with
      | Some n =>
          if (n <=? 0)%Z
          then read_people_count B rest
                 (say out "    [ERROR] Number of people must be at least 1.")
          else (Returned n, rest, out)
      | None =>
          read_people_count B rest
            (say out "    [ERROR] Please enter a valid integer.")
      end
  end.

(** The [while True] that reads the name of person [i + 1]. *)
Fixpoint read_name (B : builtins) (i : nat) (names : list string)
         (stdin out : list string)
  : outcome string * list string * list string :=
  let out := write out ("    Person " ++ str_nat (S i) ++ " name: ") in
  match stdin with
  | [] => (Raised EOFError, [], out)
  | line :: rest =>
      let name := py_strip B line in
      if String.eqb name ""
      then read_name B i names rest (say out "    [ERROR] Name cannot be empty.")
      else if existsb (String.eqb name) names
      then read_name B i names rest
             (say out ("    [ERROR] '" ++ name
                       ++ "' already entered. Please use a different name."))
      else (Returned name, rest, out)
  end.

(** The [while True] that reads the amount spent by [name]. *)
Fixpoint read_amount (B : builtins) (name : string) (stdin out : list string)
  : outcome float * list string * list string :=
  let out := write out ("    Amount spent by " ++ name ++ ": ") in
  match stdin with
  | [] => (Raised EOFError, [], out)
  | line :: rest =>
      match py_float B line with
      | Some amount =>
          if (amount <? 0)%float
          then read_amount B name rest
                 (say out "    [ERROR] Amount cannot be negative.")
          else (Returned amount, rest, out)
      | None =>
          read_amount B name rest
            (say out "    [ERROR] Please enter a valid number.")
      end
  end.

(** [for i in range(n)], with [count] rounds to go from index [i]. *)
Fixpoint read_people (B : builtins) (count i : nat)
         (names : list string) (amounts : list float) (stdin out : list string)
  : outcome (list string * list float) * list string * list string :=
  match count with
  | O => (Returned (names, amounts), stdin, out)
  | S count' =>
      match read_name B i names stdin out with
      | (Raised e, stdin, out) => (Raised e, stdin, out)
      | (Returned name, stdin, out) =>
          let names := (names ++ [name])%list in
          match read_amount B name stdin out with
          | (Raised e, stdin, out) => (Raised e, stdin, out)
          | (Returned amount, stdin, out) =>
              read_people B count' (S i) names (amounts ++ [amount])%list
                          stdin out
          end
      end
  end.

Definition get_group_data (B : builtins) (stdin out : list string)
  : outcome (list string * list float) * list string * list string :=
  match read_people_count B stdin out with
  | (Raised e, stdin, out) => (Raised e, stdin, out)
  | (Returned n, stdin, out) =>
      read_people B (Z.to_nat n) 0 [] [] stdin
        (say out (nl ++ "==> Enter each person's name and the amount they spent:"))
  end.

(* ----------------------------------------------------------------- *)
(** ** [print_summary] *)







(* ----------------------------------------------------------------- *)
(** ** [main] *)


(* ----------------------------------------------------------------- *)
(** ** The stable descending sort on integer entries *)

Fixpoint zinsert_desc (x : zentry) (l : list zentry) : list zentry :=
  match l with
  | [] => [x]
  | y :: l' =>
      if (snd x <? snd y)%Z then y :: zinsert_desc x l' else x :: y :: l'
  end.

Definition zsort_desc (l : list zentry) : list zentry :=
  fold_right zinsert_desc [] l.

(** The cents that a plan moves, and a sum over a list. *)
Definition moved (ts : list transaction) : Z :=
  fold_right (fun t acc => to_cents (snd t) + acc) 0 ts.

Definition sum_of {A : Type} (f : A -> Z) (l : list A) : Z :=
  fold_right (fun x acc => f x + acc) 0 l.

(* ----------------------------------------------------------------- *)
(** ** Vocabulary of the console properties *)

(** What the lists of [get_group_data] satisfy, at every turn of its
    [for] loop. *)
Definition collected (names : list string) (amounts : list float) : Prop :=
  length amounts = length names /\ NoDup names /\
  Forall (fun name => name <> "") names /\
  Forall (fun amount => (amount <? 0)%float = false) amounts.

(** The lines a user types for one person: the name, then the amount;
    with the amount that [float] reads from the second line. *)
Definition person : Type := (string * string * float)%type.
Definition name_line (p : person) : string := fst (fst p).
Definition amount_line (p : person) : string := snd (fst p).
Definition amount_read (p : person) : float := snd p.

Definition script (people : list person) : list string :=
  flat_map (fun p => [name_line p; amount_line p]) people.

(** A console that reads decimal digits only, for the examples. *)
Definition toy_builtins : builtins :=
  mkBuiltins
    (fun s => match NilEmpty.uint_of_string s with
              | Some u => Some (Z.of_uint u)
              | None => None
              end)
    (fun s => match NilEmpty.uint_of_string s with
              | Some u => Some (float_of_nat (Nat.of_uint u))
              | None => None
              end)
    (fun s => s) (fun s _ => s) (fun _ _ => "") (fun _ s => s).

Local Close Scope string_scope.

(* ================================================================= *)
(** * Properties *)

(* ----------------------------------------------------------------- *)
(** ** Lists, dictionaries and the stable sort *)

Section ListFacts.

Context {A : Type}.

Lemma set_nth_length (k : nat) (x : A) (l : list A) :
  length (set_nth k x l) = length l.
Proof.
  revert k; induction l as [|y l IH]; intros [|k]; simpl; auto.
Qed.

Lemma nth_error_set_nth_eq (k : nat) (x : A) (l : list A) :
  (k < length l)%nat -> nth_error (set_nth k x l) k = Some x.
Proof.
  revert k; induction l as [|y l IH]; intros [|k] H; simpl in *;
    try lia; auto.
  apply IH; lia.
Qed.

Lemma nth_error_set_nth_neq (k k' : nat) (x : A) (l : list A) :
  k <> k' -> nth_error (set_nth k x l) k' = nth_error l k'.
Proof.
  revert k k'; induction l as [|y l IH]; intros [|k] [|k'] H; simpl;
    auto; try congruence.
Qed.

End ListFacts.

Lemma set_nth_names (k : nat) (name : string) (v v' : float) (l : list entry) :
  nth_error l k = Some (name, v) ->
  map fst (set_nth k (name, v') l) = map fst l.
Proof.
  revert k; induction l as [|y l IH]; intros [|k] H; simpl in *;
    try discriminate.
  - injection H as ->; reflexivity.
  - f_equal; auto.
Qed.

Lemma In_insert_desc (x y : entry) (l : list entry) :
  In x (insert_desc y l) <-> x = y \/ In x l.
Proof.
  induction l as [|z l IH]; simpl.
  - intuition congruence.
  - destruct (snd y <? snd z)%float; simpl; rewrite ?IH; intuition congruence.
Qed.

Lemma In_sort_desc (x : entry) (l : list entry) :
  In x (sort_desc l) <-> In x l.
Proof.
  induction l as [|y l IH]; simpl; [tauto|].
  rewrite In_insert_desc, IH; intuition congruence.
Qed.

Lemma insert_desc_length (y : entry) (l : list entry) :
  length (insert_desc y l) = S (length l).
Proof.
  induction l as [|z l IH]; simpl; auto.
  destruct (snd y <? snd z)%float; simpl; auto.
Qed.

Lemma sort_desc_length (l : list entry) : length (sort_desc l) = length l.
Proof.
  induction l as [|y l IH]; simpl; auto.
  rewrite insert_desc_length; auto.
Qed.

Lemma In_names_sort_desc (name : string) (l : list entry) :
  In name (map fst (sort_desc l)) <-> In name (map fst l).
Proof.
  rewrite !in_map_iff; split; intros [x [Hx Hin]]; exists x; split; auto;
    apply In_sort_desc; auto.
Qed.

(** Keys of a dictionary after an assignment. *)
Lemma dict_set_keys_in (d : pydict) (k : string) (v : float) :
  In k (keys d) -> keys (dict_set d k v) = keys d.
Proof.
  induction d as [|[k' v'] d IH]; simpl; [tauto|].
  intros H. destruct (String.eqb_spec k' k) as [->|Hne]; simpl; auto.
  f_equal. apply IH. destruct H; congruence.
Qed.

Lemma dict_set_keys_notin (d : pydict) (k : string) (v : float) :
  ~ In k (keys d) -> keys (dict_set d k v) = keys d ++ [k].
Proof.
  induction d as [|[k' v'] d IH]; simpl; auto.
  intros H. destruct (String.eqb_spec k' k) as [->|Hne]; simpl.
  - tauto.
  - f_equal. apply IH. tauto.
Qed.

Lemma dict_set_NoDup (d : pydict) (k : string) (v : float) :
  NoDup (keys d) -> NoDup (keys (dict_set d k v)).
Proof.
  intros H. destruct (in_dec string_dec k (keys d)) as [Hin|Hout].
  - rewrite dict_set_keys_in; auto.
  - rewrite dict_set_keys_notin; auto.
    apply NoDup_app; auto.
    + repeat constructor; simpl; tauto.
    + intros x Hx [<-|[]]; auto.
Qed.

Lemma dict_get_set_same (d : pydict) (k : string) (v : float) :
  dict_get (dict_set d k v) k = Some v.
Proof.
  induction d as [|[k' v'] d IH]; simpl.
  - rewrite String.eqb_refl; reflexivity.
  - destruct (String.eqb_spec k' k) as [->|Hne]; simpl.
    + rewrite String.eqb_refl; reflexivity.
    + destruct (String.eqb_spec k' k); [congruence | exact IH].
Qed.

Lemma dict_get_set_other (d : pydict) (k k0 : string) (v : float) :
  k <> k0 -> dict_get (dict_set d k v) k0 = dict_get d k0.
Proof.
  intros Hne. induction d as [|[k' v'] d IH]; simpl.
  - destruct (String.eqb_spec k k0); [congruence | reflexivity].
  - destruct (String.eqb_spec k' k) as [->|Hne']; simpl.
    + destruct (String.eqb_spec k k0); [congruence | reflexivity].
    + destruct (String.eqb_spec k' k0); auto.
Qed.

(* ----------------------------------------------------------------- *)
(** ** The dictionary built by [compute_balances] *)

Lemma compute_balances_unfold (names : list string) (amounts : list float) :
  compute_balances names amounts =
  let total := py_sum amounts in
  let share := if (0 <? length names)%nat
               then (total / float_of_nat (length names))%float else 0%float in
  (total, share, fill share [] (combine names amounts)).
Proof. reflexivity. Qed.

Lemma fill_cons (share : float) (d : pydict) (name : string) (amt : float)
      (items : list (string * float)) :
  fill share d ((name, amt) :: items)
  = fill share (dict_set d name (round2 (amt - share)%float)) items.
Proof. reflexivity. Qed.

Lemma fill_app (share : float) (d : pydict) (xs ys : list (string * float)) :
  fill share d (xs ++ ys) = fill share (fill share d xs) ys.
Proof. unfold fill; apply fold_left_app. Qed.

Lemma fill_NoDup (share : float) (items : list (string * float)) (d : pydict) :
  NoDup (keys d) -> NoDup (keys (fill share d items)).
Proof.
  revert d; induction items as [|[name amt] items IH]; intros d H; auto.
  rewrite fill_cons. apply IH, dict_set_NoDup, H.
Qed.



Lemma fill_keys_distinct (share : float) (items : list (string * float)) (d : pydict) :
  NoDup (keys d ++ map fst items) ->
  keys (fill share d items) = keys d ++ map fst items.
Proof.
  revert d; induction items as [|[name amt] items IH]; intros d H.
  - simpl; rewrite app_nil_r; reflexivity.
  - rewrite fill_cons. simpl map in *.
    apply NoDup_remove in H as H'. destruct H' as [H1 H2].
    assert (Hout : ~ In name (keys d)) by (intros Hin; apply H2, in_or_app; auto).
    rewrite IH; rewrite dict_set_keys_notin by exact Hout;
      rewrite <- app_assoc; [reflexivity | exact H].
Qed.

Lemma fill_get_other (share : float) (items : list (string * float)) (d : pydict)
      (name : string) :
  ~ In name (map fst items) ->
  dict_get (fill share d items) name = dict_get d name.
Proof.
  revert d; induction items as [|[k amt] items IH]; intros d H; auto.
  rewrite fill_cons. simpl in H. rewrite IH by tauto.
  apply dict_get_set_other. tauto.
Qed.

Lemma fill_get_last (share : float) (before after : list (string * float))
      (d : pydict) (name : string) (amt : float) :
  ~ In name (map fst after) ->
  dict_get (fill share d (before ++ (name, amt) :: after)) name
  = Some (round2 (amt - share)%float).
Proof.
  intros H. rewrite fill_app, fill_cons, fill_get_other by exact H.
  apply dict_get_set_same.
Qed.

Lemma combine_split_at (names : list string) (amounts : list float) (i : nat)
      (name : string) (amt : float) :
  nth_error names i = Some name ->
  nth_error amounts i = Some amt ->
  exists before after,
    combine names amounts = before ++ (name, amt) :: after /\
    (forall x, In x (map fst after) ->
               exists k, (i < k)%nat /\ nth_error names k = Some x).
Proof.
  revert amounts i; induction names as [|n names IH]; intros [|a amounts] [|i] Hn Ha;
    simpl in *; try discriminate.
  - injection Hn as ->; injection Ha as ->.
    exists [], (combine names amounts); split; auto.
    intros x Hx. apply in_map_iff in Hx as [[x' y] [Hfst Hin]]; simpl in Hfst; subst x'.
    apply in_combine_l in Hin. apply In_nth_error in Hin as [k Hk].
    exists (S k); split; [lia | exact Hk].
  - destruct (IH amounts i Hn Ha) as [before [after [Heq Hafter]]].
    exists ((n, a) :: before), after; split.
    + simpl; rewrite Heq; reflexivity.
    + intros x Hx. destruct (Hafter x Hx) as [k [Hk1 Hk2]].
      exists (S k); split; [lia | exact Hk2].
Qed.

Lemma py_sum_app (xs ys : list float) :
  py_sum (xs ++ ys) = fold_left PrimFloat.add ys (py_sum xs).
Proof. unfold py_sum; apply fold_left_app. Qed.

(* ----------------------------------------------------------------- *)
(** ** The partition into creditors and debtors *)

Lemma classify_snoc (b : pydict) (item : string * float) :
  classify (b ++ [item]) = classify_item (classify b) item.
Proof. unfold classify; rewrite fold_left_app; reflexivity. Qed.

Lemma classify_names_in (b : pydict) (name : string) :
  In name (map fst (fst (classify b))) \/ In name (map fst (snd (classify b))) ->
  In name (keys b).
Proof.
  induction b as [|[k v] b IH] using rev_ind; [simpl; tauto|].
  rewrite classify_snoc. unfold keys in *. rewrite map_app, in_app_iff. simpl.
  destruct (classify b) as [cs ds]; simpl in *.
  destruct (0.01 <? v)%float; [|destruct (v <? -0.01)%float]; simpl;
    rewrite ?map_app, ?in_app_iff; simpl; intuition.
Qed.

Lemma classify_names_disjoint (b : pydict) (name : string) :
  NoDup (keys b) ->
  In name (map fst (fst (classify b))) ->
  In name (map fst (snd (classify b))) -> False.
Proof.
  induction b as [|[k v] b IH] using rev_ind; [simpl; tauto|].
  rewrite classify_snoc. unfold keys in *. rewrite map_app. simpl.
  intros Hnd. apply NoDup_remove in Hnd as [Hnd Hk]. rewrite app_nil_r in *.
  pose proof (classify_names_in b name) as Hin. unfold keys in Hin.
  destruct (classify b) as [cs ds]; simpl in *.
  destruct (0.01 <? v)%float; [|destruct (v <? -0.01)%float]; simpl;
    rewrite ?map_app, ?in_app_iff; simpl; intros H1 H2; auto.
  - destruct H1 as [H1|[<-|[]]]; auto.
  - destruct H2 as [H2|[<-|[]]]; auto.
Qed.

(** No float is both above [0.01] and below [-0.01], so the [elif] of the
    partition loses no debtor. *)
Lemma creditor_not_debtor (x : float) :
  (0.01 <? x)%float = true -> (x <? -0.01)%float = false.
Proof.
  rewrite !ltb_spec.
  replace (Prim2SF 0.01) with (S754_finite false 5764607523034235 (-59))
    by (vm_compute; reflexivity).
  replace (Prim2SF (-0.01)) with (S754_finite true 5764607523034235 (-59))
    by (vm_compute; reflexivity).
  destruct (Prim2SF x) as [s|s| |s m e]; try destruct s;
    unfold SFltb, SFcompare; try discriminate; try reflexivity.
Qed.

Lemma classify_lengths (b : pydict) :
  length (fst (classify b)) = num_creditors b /\
  length (snd (classify b)) = num_debtors b.
Proof.
  unfold num_creditors, num_debtors.
  induction b as [|[k v] b IH] using rev_ind; [simpl; auto|].
  rewrite classify_snoc, !filter_app, !length_app. simpl.
  destruct (classify b) as [cs ds]; simpl in *. destruct IH as [IH1 IH2].
  unfold is_creditor at 2, is_debtor at 2; simpl.
  destruct (0.01 <? v)%float eqn:Hc.
  - rewrite (creditor_not_debtor v Hc). simpl. rewrite length_app; simpl. lia.
  - destruct (v <? -0.01)%float; simpl; rewrite ?length_app; simpl; lia.
Qed.

(* ----------------------------------------------------------------- *)
(** ** What one pass of the loop keeps *)


Lemma loop_body_debtor_names (st : frame) :
  map fst (debtors (loop_body st)) = map fst (debtors st).
Proof.
  unfold loop_body.
  destruct (nth_error (debtors st) (idx_i st)) as [[dn dv]|] eqn:Hd; auto.
  destruct (nth_error (creditors st) (idx_j st)) as [[cn cv]|] eqn:Hc; auto.
  simpl. eapply set_nth_names; eauto.
Qed.

Lemma loop_body_creditor_names (st : frame) :
  map fst (creditors (loop_body st)) = map fst (creditors st).
Proof.
  unfold loop_body.
  destruct (nth_error (debtors st) (idx_i st)) as [[dn dv]|] eqn:Hd; auto.
  destruct (nth_error (creditors st) (idx_j st)) as [[cn cv]|] eqn:Hc; auto.
  simpl. eapply set_nth_names; eauto.
Qed.

Lemma loop_body_transactions (st : frame) :
  Forall (txn_ok (map fst (debtors st)) (map fst (creditors st))) (transactions st) ->
  Forall (txn_ok (map fst (debtors st)) (map fst (creditors st)))
         (transactions (loop_body st)).
Proof.
  intros H. unfold loop_body.
  destruct (nth_error (debtors st) (idx_i st)) as [[dn dv]|] eqn:Hd; auto.
  destruct (nth_error (creditors st) (idx_j st)) as [[cn cv]|] eqn:Hc; auto.
  simpl. destruct (0 <? round2 (py_min dv cv))%float eqn:Hpos; auto.
  apply Forall_app; split; auto. constructor; [|constructor].
  repeat split; auto.
  - apply nth_error_In in Hd. apply (in_map fst) in Hd. exact Hd.
  - apply nth_error_In in Hc. apply (in_map fst) in Hc. exact Hc.
Qed.


Lemma passes_transactions (n : nat) (st : frame) :
  Forall (txn_ok (map fst (debtors st)) (map fst (creditors st))) (transactions st) ->
  Forall (txn_ok (map fst (debtors st)) (map fst (creditors st)))
         (transactions (passes n st)).
Proof.
  revert st; induction n as [|n IH]; intros st H; simpl; auto.
  destruct (loop_guard st); auto.
  rewrite <- (loop_body_debtor_names st), <- (loop_body_creditor_names st).
  apply IH.
  rewrite (loop_body_debtor_names st), (loop_body_creditor_names st).
  apply loop_body_transactions, H.
Qed.

(** A run that leaves the loop has made at most [fuel] passes and stands
    at a frame where the guard is false. *)
Lemma while_loop_passes (fuel : nat) (st st' : frame) :
  while_loop fuel st = Some st' ->
  st' = passes fuel st /\ loop_guard st' = false.
Proof.
  revert st; induction fuel as [|fuel IH]; intros st; simpl.
  - destruct (loop_guard st) eqn:Hg; [discriminate|].
    intros H; injection H as <-; auto.
  - destruct (loop_guard st) eqn:Hg; [apply IH|].
    intros H; injection H as <-; auto.
Qed.

Lemma settle_init_fields (b : pydict) :
  balances (settle_init b) = b /\
  creditors (settle_init b) = sort_desc (fst (classify b)) /\
  debtors (settle_init b) = sort_desc (snd (classify b)) /\
  transactions (settle_init b) = [] /\
  idx_i (settle_init b) = O /\ idx_j (settle_init b) = O.
Proof. unfold settle_init. destruct (classify b); simpl; auto 10. Qed.

(* ----------------------------------------------------------------- *)
(** ** Comparison of a float with itself, and ties in the sort *)

Lemma ltb_irrefl (x : float) : (x <? x)%float = false.
Proof.
  rewrite ltb_spec. unfold SFltb, SFcompare.
  destruct (Prim2SF x) as [s|s| |s m e]; try destruct s; auto;
    rewrite Z.compare_refl, Pos.compare_cont_refl; reflexivity.
Qed.

(** Entries that all carry the same amount are left in their order. *)
Lemma sort_desc_ties (v : float) (l : list entry) :
  Forall (fun x => snd x = v) l -> sort_desc l = l.
Proof.
  induction 1 as [|x l Hx Hl IH]; simpl; auto.
  rewrite IH. destruct l as [|y l']; simpl; auto.
  inversion Hl as [|? ? Hy _]; subst. rewrite Hy, ltb_irrefl. reflexivity.
Qed.

(* ================================================================= *)
(** * Binary64 values as real numbers *)

Section Powers.

Local Open Scope R_scope.

Lemma bpow_pos (e : Z) : 0 < bpow e.
Proof. apply powerRZ_lt; lra. Qed.

Lemma bpow_add (a b : Z) : bpow (a + b) = bpow a * bpow b.
Proof. apply powerRZ_add; lra. Qed.

Lemma bpow_0 : bpow 0 = 1.
Proof. reflexivity. Qed.

Lemma bpow_1 : bpow 1 = 2.
Proof. unfold bpow; simpl; lra. Qed.

Lemma bpow_opp (a : Z) : bpow (- a) = / bpow a.
Proof. apply powerRZ_neg'. Qed.

Lemma bpow_succ (a : Z) : bpow (a + 1) = 2 * bpow a.
Proof. rewrite bpow_add, bpow_1; lra. Qed.

Lemma bpow_ge_1 (k : Z) : (0 <= k)%Z -> 1 <= bpow k.
Proof.
  intros Hk. pattern k. apply natlike_ind; auto.
  - rewrite bpow_0; lra.
  - intros x Hx IH. unfold Z.succ. rewrite bpow_succ. lra.
Qed.

Lemma bpow_le (a b : Z) : (a <= b)%Z -> bpow a <= bpow b.
Proof.
  intros H. replace b with (a + (b - a))%Z by lia. rewrite bpow_add.
  pose proof (bpow_ge_1 (b - a) ltac:(lia)). pose proof (bpow_pos a). nra.
Qed.

Lemma bpow_lt (a b : Z) : (a < b)%Z -> bpow a < bpow b.
Proof.
  intros H. replace b with ((a + 1) + (b - a - 1))%Z by lia.
  rewrite bpow_add, bpow_succ.
  pose proof (bpow_ge_1 (b - a - 1) ltac:(lia)). pose proof (bpow_pos a). nra.
Qed.

Lemma bpow_IZR (k : Z) : (0 <= k)%Z -> IZR (2 ^ k) = bpow k.
Proof.
  intros Hk. destruct k as [|p|p]; try lia.
  - reflexivity.
  - change (2 ^ Z.pos p)%Z with (Z.pow_pos 2 p). apply Zpower_pos_powerRZ.
Qed.

Lemma Rabs_le_bounds (a b : R) : Rabs a <= b -> - b <= a <= b.
Proof. unfold Rabs. destruct (Rcase_abs a); lra. Qed.

End Powers.

(* ================================================================= *)
(** * Digits and shifts of the reference operations *)

Lemma digits2_size (p : positive) : digits2_pos p = Pos.size p.
Proof. induction p; simpl; congruence. Qed.

Lemma digits2_bounds (p : positive) :
  2 ^ (Zpos (digits2_pos p) - 1) <= Zpos p < 2 ^ Zpos (digits2_pos p).
Proof.
  rewrite digits2_size. split.
  - pose proof (Pos.size_le p) as H.
    assert (H' : 2 ^ Zpos (Pos.size p) <= 2 * Zpos p).
    { rewrite <- Pos2Z.inj_pow. change (2 * Zpos p) with (Zpos (p~0)).
      apply Pos2Z.pos_le_pos. exact H. }
    replace (Zpos (Pos.size p)) with (Zpos (Pos.size p) - 1 + 1) in H' by lia.
    rewrite Z.pow_add_r in H' by lia. lia.
  - pose proof (Pos.size_gt p) as H.
    rewrite <- Pos2Z.inj_pow. apply Pos2Z.pos_lt_pos. exact H.
Qed.

Lemma digits2_unique (p : positive) (k : Z) :
  2 ^ (k - 1) <= Zpos p < 2 ^ k -> Zpos (digits2_pos p) = k.
Proof.
  intros [H1 H2]. pose proof (digits2_bounds p) as [H3 H4].
  set (d := Zpos (digits2_pos p)) in *.
  assert (0 < k).
  { destruct (Z_lt_le_dec 0 k); auto.
    assert (2 ^ k <= 1).
    { destruct (Z.eq_dec k 0) as [->|]; [simpl; lia|].
      rewrite Z.pow_neg_r by lia. lia. }
    lia. }
  destruct (Z_lt_le_dec d k) as [Hlt|Hge].
  - assert (2 ^ d <= 2 ^ (k - 1)) by (apply Z.pow_le_mono_r; lia). lia.
  - destruct (Z_lt_le_dec k d) as [Hlt|Hge'].
    + assert (2 ^ k <= 2 ^ (d - 1)) by (apply Z.pow_le_mono_r; lia). lia.
    + lia.
Qed.

Lemma iter_xO_pow (m d : positive) :
  Zpos (Pos.iter xO m d) = Zpos m * 2 ^ Zpos d.
Proof.
  apply Pos.iter_ind with (P := fun d r => Zpos r = Zpos m * 2 ^ Zpos d).
  - rewrite Z.pow_1_r. lia.
  - intros p a' IH. rewrite Pos2Z.inj_succ, Z.pow_succ_r by lia.
    rewrite Pos2Z.inj_xO, IH. lia.
Qed.

Lemma shl_align_spec (m : positive) (e e' : Z) :
  let '(m', e'') := shl_align m e e' in
  e'' = Z.min e e' /\ Zpos m' = Zpos m * 2 ^ (e - e'').
Proof.
  unfold shl_align. destruct (e' - e) as [|d|d] eqn:Hd.
  - replace (Z.min e e') with e by lia. rewrite Z.sub_diag. simpl. lia.
  - replace (Z.min e e') with e by lia. rewrite Z.sub_diag. simpl. lia.
  - replace (Z.min e e') with e' by lia. split; auto.
    rewrite iter_xO_pow. f_equal. f_equal. lia.
Qed.

Lemma iter_pos_iter {A : Type} (f : A -> A) (p : positive) (x : A) :
  SpecFloat.iter_pos f p x = Pos.iter f x p.
Proof.
  revert x; induction p as [p IH|p IH|]; intros x; simpl; auto.
  - rewrite !IH. rewrite <- Pos.iter_swap. rewrite <- Pos.iter_swap. reflexivity.
  - rewrite !IH. reflexivity.
Qed.

Lemma shr_1_m (mrs : shr_record) :
  0 <= shr_m mrs -> shr_m (shr_1 mrs) = shr_m mrs / 2.
Proof.
  destruct mrs as [m r s]; simpl. intros Hm.
  destruct m as [|[p|p|]|p]; simpl; try lia; auto.
  - rewrite Pos2Z.inj_xI. apply Z.div_unique with (r := 1); lia.
  - rewrite Pos2Z.inj_xO. apply Z.div_unique with (r := 0); lia.
Qed.

Lemma shr_iter_m (mrs : shr_record) (p : positive) :
  0 <= shr_m mrs ->
  shr_m (Pos.iter shr_1 mrs p) = shr_m mrs / 2 ^ Zpos p.
Proof.
  intros Hm.
  apply Pos.iter_ind
    with (P := fun p r => shr_m r = shr_m mrs / 2 ^ Zpos p).
  - rewrite Z.pow_1_r. apply shr_1_m, Hm.
  - intros q a' IH. rewrite shr_1_m.
    + rewrite IH, Pos2Z.inj_succ, Z.pow_succ_r by lia.
      rewrite Z.div_div by lia. f_equal. lia.
    + rewrite IH. apply Z.div_pos; lia.
Qed.

Lemma shr_record_of_loc_m (m : Z) (l : location) :
  shr_m (shr_record_of_loc m l) = m.
Proof. destruct l as [|[| |]]; reflexivity. Qed.

Lemma shr_spec (m : Z) (l : location) (e n : Z) :
  0 <= m ->
  let '(mrs', e') := shr (shr_record_of_loc m l) e n in
  shr_m mrs' = m / 2 ^ Z.max 0 n /\ e' = e + Z.max 0 n.
Proof.
  intros Hm. unfold shr. destruct n as [|p|p]; simpl Z.max.
  - rewrite shr_record_of_loc_m, Z.div_1_r. lia.
  - rewrite iter_pos_iter, shr_iter_m by (rewrite shr_record_of_loc_m; exact Hm).
    rewrite shr_record_of_loc_m. split; reflexivity.
  - rewrite shr_record_of_loc_m, Z.div_1_r. lia.
Qed.

Lemma round_nearest_even_cases (m : Z) (l : location) :
  round_nearest_even m l = m \/ round_nearest_even m l = m + 1.
Proof.
  destruct l as [|[| |]]; simpl; auto. destruct (Z.even m); auto.
Qed.

(* ================================================================= *)
(** * Rounding in the reference operations, for normal magnitudes *)

Lemma fexp_normal (k : Z) : -1021 <= k -> fexp prec emax k = k - 53.
Proof. unfold fexp, emin, prec, emax. lia. Qed.

Lemma shr_fexp_spec (m e : Z) (l : location) :
  0 <= m ->
  let '(mrs', e') := shr_fexp prec emax m e l in
  shr_m mrs' = m / 2 ^ Z.max 0 (fexp prec emax (Zdigits2 m + e) - e) /\
  e' = e + Z.max 0 (fexp prec emax (Zdigits2 m + e) - e).
Proof. intros Hm. unfold shr_fexp. apply shr_spec, Hm. Qed.

Lemma pow2_split (a b : Z) : 0 <= a -> 0 <= b -> 2 ^ (a + b) = 2 ^ a * 2 ^ b.
Proof. intros; apply Z.pow_add_r; lia. Qed.

(** Shifting a significand of [d >= 53] digits down to 53 digits. *)
Lemma shift_to_53 (mx : positive) :
  let d := Zpos (digits2_pos mx) in
  53 <= d ->
  2 ^ 52 <= Zpos mx / 2 ^ (d - 53) < 2 ^ 53.
Proof.
  intros d Hd. pose proof (digits2_bounds mx) as [H1 H2]. fold d in H1, H2.
  assert (Hp : 0 < 2 ^ (d - 53)) by (apply Z.pow_pos_nonneg; lia).
  split.
  - apply Z.div_le_lower_bound; [lia|].
    replace (d - 1) with ((d - 53) + 52) in H1 by lia.
    rewrite pow2_split in H1 by lia. lia.
  - apply Z.div_lt_upper_bound; [lia|].
    replace d with ((d - 53) + 53) in H2 at 1 by lia.
    rewrite pow2_split in H2 by lia. lia.
Qed.

Section RoundAux.

Local Open Scope R_scope.

(** The value kept by a right shift of [n] bits lies within one unit of
    the new last place, whichever neighbour the rounding picks. *)
Lemma shift_error (m n m2 : Z) (e : Z) :
  (0 <= m)%Z -> (0 <= n)%Z ->
  (m2 = m / 2 ^ n \/ m2 = m / 2 ^ n + 1)%Z ->
  Rabs (IZR m2 * bpow (e + n) - IZR m * bpow e) <= bpow (e + n).
Proof.
  intros Hm Hn Hm2.
  assert (Hp : (0 < 2 ^ n)%Z) by (apply Z.pow_pos_nonneg; lia).
  pose proof (Z.div_mod m (2 ^ n) ltac:(lia)) as Hdm.
  pose proof (Z.mod_pos_bound m (2 ^ n) Hp) as Hr.
  set (q := (m / 2 ^ n)%Z) in *. set (r := (m mod 2 ^ n)%Z) in *.
  rewrite bpow_add, <- (bpow_IZR n) by lia.
  pose proof (bpow_pos e) as HB.
  assert (HmR : IZR m = IZR (2 ^ n) * IZR q + IZR r).
  { rewrite Hdm at 1. rewrite plus_IZR, mult_IZR. reflexivity. }
  assert (Hr0 : 0 <= IZR r) by (apply IZR_le; lia).
  assert (Hr1 : IZR r < IZR (2 ^ n)) by (apply IZR_lt; lia).
  rewrite HmR. apply Rabs_le.
  destruct Hm2 as [->| ->]; [|rewrite plus_IZR]; nra.
Qed.

Lemma binary_round_aux_normal (s : bool) (mx : positive) (ex : Z) (l : location) :
  let d := Zpos (digits2_pos mx) in
  (53 <= d)%Z -> (-1021 <= d + ex <= 1023)%Z ->
  exists m3 e3,
    binary_round_aux prec emax s (Zpos mx) ex l = S754_finite s m3 e3 /\
    Zpos (digits2_pos m3) = 53%Z /\
    (d + ex - 53 <= e3 <= d + ex - 52)%Z /\
    Rabs (IZR (Zpos m3) * bpow e3 - IZR (Zpos mx) * bpow ex)
    <= bpow (d + ex - 53).
Proof.
  intros d Hd Hrange.
  unfold binary_round_aux.
  pose proof (shr_fexp_spec (Zpos mx) ex l ltac:(lia)) as H1.
  destruct (shr_fexp prec emax (Zpos mx) ex l) as [mrs1 e1].
  simpl Zdigits2 in H1. fold d in H1.
  rewrite fexp_normal in H1 by lia.
  replace (Z.max 0 (d + ex - 53 - ex)) with (d - 53)%Z in H1 by lia.
  destruct H1 as [Hm1 He1].
  pose proof (shift_to_53 mx Hd) as Hb1. fold d in Hb1. rewrite <- Hm1 in Hb1.
  set (m1 := shr_m mrs1) in *.
  set (m2 := round_nearest_even m1 (loc_of_shr_record mrs1)).
  assert (Hm2 : (m2 = m1 \/ m2 = m1 + 1)%Z) by apply round_nearest_even_cases.
  assert (Hb2 : (2 ^ 52 <= m2 <= 2 ^ 53)%Z) by lia.
  pose proof (shr_fexp_spec m2 e1 loc_Exact ltac:(lia)) as H2.
  destruct (shr_fexp prec emax m2 e1 loc_Exact) as [mrs2 e2].
  assert (Herr : Rabs (IZR m2 * bpow e1 - IZR (Zpos mx) * bpow ex)
                 <= bpow (d + ex - 53)).
  { replace (d + ex - 53)%Z with (ex + (d - 53))%Z by lia. rewrite He1.
    apply shift_error; lia. }
  destruct (Z.eq_dec m2 (2 ^ 53)) as [Htop|Hnot].
  - (* the rounding carried into a 54th digit *)
    rewrite Htop in H2. simpl Zdigits2 in H2.
    rewrite fexp_normal in H2 by lia.
    replace (Z.max 0 (54 + e1 - 53 - e1)) with 1%Z in H2 by lia.
    destruct H2 as [Hm3 He3]. rewrite Hm3.
    change (2 ^ 53 / 2 ^ 1)%Z with (Zpos (2 ^ 52)).
    replace (e2 <=? emax - prec)%Z with true
      by (symmetry; apply Z.leb_le; unfold emax, prec; lia).
    exists (2 ^ 52)%positive, e2. split; [reflexivity|].
    split; [reflexivity|]. split; [lia|].
    rewrite Htop in Herr.
    replace (IZR (Zpos (2 ^ 52)) * bpow e2) with (IZR (2 ^ 53) * bpow e1);
      [exact Herr|].
    rewrite He3, bpow_succ. change (2 ^ 53)%Z with (2 * Zpos (2 ^ 52))%Z.
    rewrite mult_IZR. lra.
  - destruct m2 as [|q|q]; try lia.
    assert (Hq : Zpos (digits2_pos q) = 53%Z) by (apply digits2_unique; lia).
    simpl Zdigits2 in H2. rewrite Hq in H2.
    rewrite fexp_normal in H2 by lia.
    replace (Z.max 0 (53 + e1 - 53 - e1)) with 0%Z in H2 by lia.
    destruct H2 as [Hm3 He3]. rewrite Hm3, Z.pow_0_r, Z.div_1_r.
    replace (e2 <=? emax - prec)%Z with true
      by (symmetry; apply Z.leb_le; unfold emax, prec; lia).
    exists q, e2. split; [reflexivity|]. split; [exact Hq|]. split; [lia|].
    replace e2 with e1 by lia. exact Herr.
Qed.

Lemma binary_round_normal (s : bool) (mx : positive) (ex : Z) :
  let d := Zpos (digits2_pos mx) in
  (-1021 <= d + ex <= 1023)%Z ->
  exists m3 e3,
    binary_round prec emax s mx ex = S754_finite s m3 e3 /\
    Zpos (digits2_pos m3) = 53%Z /\
    (d + ex - 53 <= e3 <= d + ex - 52)%Z /\
    Rabs (IZR (Zpos m3) * bpow e3 - IZR (Zpos mx) * bpow ex)
    <= bpow (d + ex - 53).
Proof.
  intros d Hrange. unfold binary_round.
  pose proof (shl_align_spec mx ex (fexp prec emax (Zpos (digits2_pos mx) + ex))) as Hal.
  destruct (shl_align mx ex (fexp prec emax (Zpos (digits2_pos mx) + ex))) as [mz ez].
  fold d in Hal. rewrite fexp_normal in Hal by lia. destruct Hal as [Hez Hmz].
  assert (Hk : (0 <= ex - ez)%Z) by lia.
  assert (Hdz : Zpos (digits2_pos mz) = (d + (ex - ez))%Z).
  { apply digits2_unique. rewrite Hmz.
    pose proof (digits2_bounds mx) as [H1 H2]. fold d in H1, H2.
    assert (0 < 2 ^ (ex - ez))%Z by (apply Z.pow_pos_nonneg; lia).
    replace (d + (ex - ez) - 1)%Z with ((d - 1) + (ex - ez))%Z by lia.
    assert (0 < d)%Z by (unfold d; lia).
    rewrite !pow2_split by lia. split; nia. }
  pose proof (binary_round_aux_normal s mz ez loc_Exact) as Haux.
  cbv zeta in Haux. rewrite Hdz in Haux.
  destruct Haux as (m3 & e3 & Hr & Hd3 & He3 & Herr); try lia.
  exists m3, e3. split; [exact Hr|]. split; [exact Hd3|].
  split; [lia|].
  replace (d + (ex - ez) + ez - 53)%Z with (d + ex - 53)%Z in Herr by lia.
  replace (IZR (Zpos mx) * bpow ex) with (IZR (Zpos mz) * bpow ez); [exact Herr|].
  rewrite Hmz, mult_IZR, bpow_IZR by lia.
  replace ex with ((ex - ez) + ez)%Z at 2 by lia. rewrite bpow_add. lra.
Qed.

End RoundAux.

(* ================================================================= *)
(** * Nearest integers *)

Lemma Zrne_bound (num den : Z) :
  0 < den -> 2 * Z.abs (Zrne num den * den - num) <= den.
Proof.
  intros Hden. unfold Zrne.
  pose proof (Z.div_mod num den ltac:(lia)) as Hdm.
  pose proof (Z.mod_pos_bound num den Hden) as Hr.
  set (q := num / den) in *. set (r := num mod den) in *.
  destruct (Z.compare_spec (2 * r) den) as [H|H|H]; [destruct (Z.even q)| |]; nia.
Qed.

Lemma Zrne_unique (num den z : Z) :
  0 < den -> 2 * Z.abs (z * den - num) < den -> Zrne num den = z.
Proof.
  intros Hden Hz. pose proof (Zrne_bound num den Hden) as Hb.
  set (y := Zrne num den) in *. nia.
Qed.

Lemma Zrne_between (num den a b : Z) :
  0 < den -> a * den <= num <= b * den -> a <= Zrne num den <= b.
Proof.
  intros Hden [Ha Hb]. unfold Zrne.
  pose proof (Z.div_mod num den ltac:(lia)) as Hdm.
  pose proof (Z.mod_pos_bound num den Hden) as Hr.
  set (q := num / den) in *. set (r := num mod den) in *.
  assert (a <= q) by nia.
  assert (q <= b) by nia.
  assert (r = 0 \/ q < b) by nia.
  destruct (Z.compare_spec (2 * r) den) as [H2|H2|H2]; [destruct (Z.even q)| |];
    lia.
Qed.

Section NearestR.

Local Open Scope R_scope.

Lemma Zrne_R (num den : Z) (x : R) :
  (0 < den)%Z -> x * IZR den = IZR num ->
  Rabs (IZR (Zrne num den) - x) <= / 2.
Proof.
  intros Hden Hx. pose proof (Zrne_bound num den Hden) as Hb.
  set (y := Zrne num den) in *.
  assert (HD : 0 < IZR den) by (apply IZR_lt; lia).
  assert (H1 : (-den <= 2 * (y * den - num) <= den)%Z) by lia.
  destruct H1 as [H1 H2]. apply IZR_le in H1, H2.
  rewrite opp_IZR in H1. rewrite mult_IZR, minus_IZR, mult_IZR in H1, H2.
  rewrite <- Hx in H1, H2. apply Rabs_le. split; nra.
Qed.

Lemma Zrne_unique_R (num den z : Z) (x : R) :
  (0 < den)%Z -> x * IZR den = IZR num ->
  Rabs (IZR z - x) < / 2 -> Zrne num den = z.
Proof.
  intros Hden Hx Hz. apply Zrne_unique; auto.
  assert (HD : 0 < IZR den) by (apply IZR_lt; lia).
  apply Rabs_def2 in Hz as [Hz1 Hz2].
  assert (H1 : IZR (2 * (z * den - num)) < IZR den).
  { rewrite mult_IZR, minus_IZR, mult_IZR, <- Hx. nra. }
  assert (H2 : IZR (- den) < IZR (2 * (z * den - num))).
  { rewrite opp_IZR, mult_IZR, minus_IZR, mult_IZR, <- Hx. nra. }
  apply lt_IZR in H1, H2. lia.
Qed.

End NearestR.

(* ================================================================= *)
(** * Validity of normal numbers *)

Lemma valid_normal (s : bool) (m : positive) (e : Z) :
  Zpos (digits2_pos m) = 53 -> -1074 <= e <= 971 ->
  valid_binary (S754_finite s m e) = true.
Proof.
  intros Hd He. change (SpecFloat.bounded prec emax m e = true).
  unfold SpecFloat.bounded, canonical_mantissa. rewrite Hd. unfold fexp, emin, prec, emax.
  apply andb_true_intro; split; [apply Z.eqb_eq | apply Z.leb_le]; lia.
Qed.

Lemma Prim2SF_normal (s : bool) (m : positive) (e : Z) :
  Zpos (digits2_pos m) = 53 -> -1074 <= e <= 971 ->
  Prim2SF (SF2Prim (S754_finite s m e)) = S754_finite s m e.
Proof. intros Hd He. apply Prim2SF_SF2Prim, valid_normal; assumption. Qed.

(** Every float decodes to a valid number; a finite one has at most 53
    digits and an exponent between -1074 and 971. *)
Lemma Prim2SF_finite_bounds (x : float) (s : bool) (m : positive) (e : Z) :
  Prim2SF x = S754_finite s m e ->
  -1074 <= e <= 971 /\ Zpos (digits2_pos m) <= 53.
Proof.
  intros H. pose proof (Prim2SF_valid x) as Hv. rewrite H in Hv.
  change (SpecFloat.bounded prec emax m e = true) in Hv.
  unfold SpecFloat.bounded, canonical_mantissa in Hv.
  apply andb_prop in Hv as [H1 H2].
  apply Z.eqb_eq in H1. apply Z.leb_le in H2.
  unfold fexp, emin, prec, emax in *. lia.
Qed.

(* ================================================================= *)
(** * Whole cents as floats *)

Lemma pow2_of_nonneg (k : Z) : 0 <= k -> pow2 k = 2 ^ k.
Proof. intros H. unfold pow2. f_equal. lia. Qed.

Lemma pow2_of_nonpos (k : Z) : k <= 0 -> pow2 k = 1.
Proof. intros H. unfold pow2. replace (Z.max 0 k) with 0 by lia. reflexivity. Qed.

Section CentsValue.

Local Open Scope R_scope.

Lemma pow2_ratio (l : Z) : bpow l * IZR (pow2 (- l)) = IZR (pow2 l).
Proof.
  destruct (Z_le_gt_dec 0 l) as [H|H].
  - rewrite (pow2_of_nonpos (- l)), (pow2_of_nonneg l), bpow_IZR by lia. lra.
  - rewrite (pow2_of_nonneg (- l)), (pow2_of_nonpos l), bpow_IZR by lia.
    rewrite <- bpow_add. replace (l + - l)%Z with 0%Z by lia. apply bpow_0.
Qed.

Lemma pow2_pos (l : Z) : (0 < pow2 l)%Z.
Proof. unfold pow2. apply Z.pow_pos_nonneg; lia. Qed.

Lemma bpow_7 : bpow 7 = 128.
Proof. unfold bpow; simpl; lra. Qed.

Lemma bpow_6 : bpow 6 = 64.
Proof. unfold bpow; simpl; lra. Qed.

Lemma bpow_40 : bpow 40 = 1099511627776.
Proof. unfold bpow; simpl; lra. Qed.

Lemma bpow_inj_lt (a b : Z) : bpow a < bpow b -> (a < b)%Z.
Proof.
  intros H. destruct (Z_lt_le_dec a b) as [|Hle]; auto.
  apply bpow_le in Hle. lra.
Qed.

(** The binary logarithm of [p / 100] as [nearest_binary64] finds it. *)
Lemma nearest_cents_log (p : positive) :
  let l := (Z.log2 (Zpos p) - Z.log2 100)%Z in
  let lg := if (100 * pow2 l <=? Zpos p * pow2 (- l))%Z then l else (l - 1)%Z in
  bpow lg <= IZR (Zpos p) / 100 < bpow (lg + 1) /\ (-7 <= lg)%Z.
Proof.
  intros l lg. change (Z.log2 100) with 6%Z in l.
  pose proof (Z.log2_spec (Zpos p) ltac:(lia)) as [HL1 HL2].
  pose proof (Z.log2_nonneg (Zpos p)) as HL0.
  set (L := Z.log2 (Zpos p)) in *.
  apply IZR_le in HL1. apply IZR_lt in HL2.
  unfold Z.succ in HL2. rewrite bpow_IZR in HL1, HL2 by lia.
  replace L with (l + 6)%Z in HL1 by (unfold l; lia).
  replace (L + 1)%Z with (l + 7)%Z in HL2 by (unfold l; lia).
  rewrite bpow_add, bpow_6 in HL1. rewrite bpow_add, bpow_7 in HL2.
  pose proof (bpow_pos l) as Hl.
  assert (Hlm : bpow l = 2 * bpow (l - 1)).
  { replace l with ((l - 1) + 1)%Z at 1 by lia. apply bpow_succ. }
  pose proof (bpow_pos (l - 1)) as Hl'.
  pose proof (pow2_ratio l) as Hratio.
  assert (Hq : 0 < IZR (pow2 (- l))) by (apply IZR_lt, pow2_pos).
  unfold lg. destruct (Z.leb_spec (100 * pow2 l) (Zpos p * pow2 (- l))) as [Ht|Ht].
  - apply IZR_le in Ht. rewrite !mult_IZR, <- Hratio in Ht.
    assert (100 * bpow l <= IZR (Zpos p)) by nra.
    rewrite bpow_succ. split; [split; lra | unfold l; lia].
  - apply IZR_lt in Ht. rewrite !mult_IZR, <- Hratio in Ht.
    assert (IZR (Zpos p) < 100 * bpow l) by nra.
    replace (l - 1 + 1)%Z with l by lia.
    split; [split; lra | unfold l; lia].
Qed.

Lemma nearest_cents_spec (s : bool) (p : positive) :
  (Zpos p <= cent_bound)%Z ->
  exists m e,
    nearest_binary64 s p 100 = S754_finite s m e /\
    Zpos (digits2_pos m) = 53%Z /\ (-59 <= e <= -12)%Z /\
    Rabs (IZR (Zpos m) * bpow e - IZR (Zpos p) / 100) <= bpow (e - 1).
Proof.
  intros Hp. unfold nearest_binary64.
  pose proof (nearest_cents_log p) as Hlog. cbv zeta in Hlog.
  set (l := (Z.log2 (Zpos p) - Z.log2 100)%Z) in *.
  set (lg := if (100 * pow2 l <=? Zpos p * pow2 (- l))%Z then l else (l - 1)%Z) in *.
  destruct Hlog as [[HX1 HX2] Hlg0].
  set (X := IZR (Zpos p) / 100) in *.
  assert (Hlg1 : (lg <= 39)%Z).
  { assert (bpow lg < bpow 40); [|apply bpow_inj_lt in H; lia].
    apply IZR_le in Hp. unfold cent_bound in Hp. simpl in Hp.
    rewrite bpow_40. unfold X in HX1. lra. }
  replace (Z.max (lg - 52) (-1074)) with (lg - 52)%Z by lia.
  set (e := (lg - 52)%Z).
  rewrite (pow2_of_nonpos e), (pow2_of_nonneg (- e)), Z.mul_1_r by (unfold e; lia).
  set (m := Zrne (Zpos p * 2 ^ (- e)) 100).
  set (Y := X * bpow (- e)).
  assert (HY : Y * IZR 100 = IZR (Zpos p * 2 ^ (- e))).
  { unfold Y, X. rewrite mult_IZR, bpow_IZR by (unfold e; lia). field. }
  assert (HY1 : bpow 52 <= Y < bpow 53).
  { unfold Y. pose proof (bpow_pos (- e)).
    replace 52%Z with (lg + - e)%Z by (unfold e; lia).
    replace 53%Z with ((lg + 1) + - e)%Z by (unfold e; lia).
    rewrite (bpow_add lg (- e)), (bpow_add (lg + 1) (- e)). split; nra. }
  rewrite <- !bpow_IZR in HY1 by lia.
  assert (Hm : (2 ^ 52 <= m <= 2 ^ 53)%Z).
  { apply Zrne_between; [lia|]. destruct HY1 as [H1 H2].
    split; apply le_IZR; rewrite <- HY, mult_IZR; nra. }
  pose proof (Zrne_R (Zpos p * 2 ^ (- e)) 100 Y ltac:(lia) HY) as Herr.
  fold m in Herr.
  assert (HXY : X = Y * bpow e).
  { unfold Y. rewrite Rmult_assoc, <- bpow_add.
    replace (- e + e)%Z with 0%Z by lia. rewrite bpow_0. lra. }
  assert (Hval : Rabs (IZR m * bpow e - X) <= bpow (e - 1)).
  { rewrite HXY. replace e with ((e - 1) + 1)%Z at 1 2 by lia.
    rewrite bpow_succ. pose proof (bpow_pos (e - 1)).
    apply Rabs_le. apply Rabs_le_bounds in Herr. split; nra. }
  destruct (Z.eqb_spec m (2 ^ 53)) as [Htop|Hnot].
  - change (2 ^ 52)%Z with (Zpos (2 ^ 52)).
    replace (e + 1 <=? 971)%Z with true
      by (symmetry; apply Z.leb_le; unfold e; lia).
    exists (2 ^ 52)%positive, (e + 1)%Z.
    split; [reflexivity|]. split; [reflexivity|]. split; [unfold e; lia|].
    rewrite Htop in Hval.
    assert (Hb : bpow (e + 1 - 1) = 2 * bpow (e - 1)).
    { replace (e + 1 - 1)%Z with ((e - 1) + 1)%Z by lia. apply bpow_succ. }
    assert (Hv : IZR (Zpos (2 ^ 52)) * bpow (e + 1) = IZR (2 ^ 53) * bpow e).
    { rewrite bpow_succ. change (2 ^ 53)%Z with (2 * Zpos (2 ^ 52))%Z.
      rewrite mult_IZR. lra. }
    rewrite Hb, Hv. pose proof (bpow_pos (e - 1)). lra.
  - destruct m as [|q|q] eqn:Hmq; try lia.
    replace (e <=? 971)%Z with true
      by (symmetry; apply Z.leb_le; unfold e; lia).
    exists q, e. split; [reflexivity|].
    split; [apply digits2_unique; lia|]. split; [unfold e; lia|]. exact Hval.
Qed.

End CentsValue.

(* ================================================================= *)
(** * Subtraction of positive floats, and rounding a near-cent float *)

Section Subtraction.

Local Open Scope R_scope.

(** [binary_normalize] on a positive integer significand: the result is
    normal and within one unit in its last place of the exact value. *)
Lemma binary_normalize_pos (z : positive) (ez j k : Z) :
  bpow j <= IZR (Zpos z) * bpow ez < bpow k ->
  (-1022 <= j)%Z -> (k <= 1023)%Z ->
  exists m3 e3,
    binary_normalize prec emax (Zpos z) ez false = S754_finite false m3 e3 /\
    Zpos (digits2_pos m3) = 53%Z /\ (j - 52 <= e3 <= k - 52)%Z /\
    Rabs (IZR (Zpos m3) * bpow e3 - IZR (Zpos z) * bpow ez) <= bpow (k - 53).
Proof.
  intros [Hlo Hhi] Hj Hk. simpl binary_normalize.
  pose proof (digits2_bounds z) as [Hd1 Hd2].
  set (d := Zpos (digits2_pos z)) in *.
  assert (Hd0 : (0 < d)%Z) by (unfold d; lia).
  apply IZR_le in Hd1. apply IZR_lt in Hd2.
  rewrite bpow_IZR in Hd1, Hd2 by lia.
  pose proof (bpow_pos ez) as Hez.
  assert (H1 : (j < d + ez)%Z).
  { apply bpow_inj_lt. rewrite bpow_add. nra. }
  assert (H2 : (d - 1 + ez < k)%Z).
  { apply bpow_inj_lt. rewrite bpow_add. nra. }
  destruct (binary_round_normal false z ez) as (m3 & e3 & Hr & Hd3 & He3 & Herr).
  { fold d. lia. }
  fold d in He3, Herr.
  exists m3, e3. split; [exact Hr|]. split; [exact Hd3|]. split; [lia|].
  eapply Rle_trans; [exact Herr|]. apply bpow_le. lia.
Qed.

(** [x - y] for finite positive [x > y]. *)
Lemma SFsub_pos (mx my : positive) (ex ey j k : Z) :
  let X := IZR (Zpos mx) * bpow ex in
  let Y := IZR (Zpos my) * bpow ey in
  bpow j <= X - Y < bpow k -> (-1022 <= j)%Z -> (k <= 1023)%Z ->
  exists m3 e3,
    SFsub prec emax (S754_finite false mx ex) (S754_finite false my ey)
    = S754_finite false m3 e3 /\
    Zpos (digits2_pos m3) = 53%Z /\ (j - 52 <= e3 <= k - 52)%Z /\
    Rabs (IZR (Zpos m3) * bpow e3 - (X - Y)) <= bpow (k - 53).
Proof.
  intros X Y Hrange Hj Hk. unfold SFsub.
  pose proof (shl_align_spec mx ex (Z.min ex ey)) as Hax.
  pose proof (shl_align_spec my ey (Z.min ex ey)) as Hay.
  destruct (shl_align mx ex (Z.min ex ey)) as [mx' ex'].
  destruct (shl_align my ey (Z.min ex ey)) as [my' ey'].
  destruct Hax as [Hex' Hmx']. destruct Hay as [Hey' Hmy'].
  replace ex' with (Z.min ex ey) in Hmx' by lia.
  replace ey' with (Z.min ex ey) in Hmy' by lia.
  set (ez := Z.min ex ey) in *. simpl fst. simpl cond_Zopp.
  assert (HX : IZR (Zpos mx') * bpow ez = X).
  { unfold X. replace (bpow ex) with (bpow (ex - ez) * bpow ez)
      by (rewrite <- bpow_add; f_equal; lia).
    rewrite Hmx', mult_IZR, bpow_IZR by lia. lra. }
  assert (HY : IZR (Zpos my') * bpow ez = Y).
  { unfold Y. replace (bpow ey) with (bpow (ey - ez) * bpow ez)
      by (rewrite <- bpow_add; f_equal; lia).
    rewrite Hmy', mult_IZR, bpow_IZR by lia. lra. }
  assert (HV : IZR (Zpos mx' - Zpos my') * bpow ez = X - Y).
  { rewrite minus_IZR. lra. }
  pose proof (bpow_pos ez) as Hez. pose proof (bpow_pos j) as Hmin.
  assert (Hz : (0 < Zpos mx' - Zpos my')%Z).
  { apply lt_IZR. destruct Hrange as [Hr1 _]. rewrite <- HV in Hr1. nra. }
  destruct (Zpos mx' - Zpos my')%Z as [|z|z] eqn:Hzz; try lia.
  rewrite <- HV in Hrange |- *.
  apply binary_normalize_pos; assumption.
Qed.

End Subtraction.

Lemma cents_pos_decode (p : positive) :
  Zpos p <= cent_bound ->
  exists m e,
    Prim2SF (cents (Zpos p)) = S754_finite false m e /\
    Zpos (digits2_pos m) = 53 /\ -59 <= e <= -12 /\
    (Rabs (IZR (Zpos m) * bpow e - IZR (Zpos p) / 100) <= bpow (e - 1))%R.
Proof.
  intros Hp. destruct (nearest_cents_spec false p Hp) as (m & e & Hn & Hd & He & Herr).
  exists m, e. simpl cents. rewrite Hn, Prim2SF_normal by lia. auto.
Qed.

Lemma cents_neg_decode (p : positive) :
  Zpos p <= cent_bound ->
  exists m e,
    Prim2SF (cents (Zneg p)) = S754_finite true m e /\
    Zpos (digits2_pos m) = 53 /\ -59 <= e <= -12 /\
    (Rabs (IZR (Zpos m) * bpow e - IZR (Zpos p) / 100) <= bpow (e - 1))%R.
Proof.
  intros Hp. destruct (nearest_cents_spec true p Hp) as (m & e & Hn & Hd & He & Herr).
  exists m, e. simpl cents. rewrite Hn, Prim2SF_normal by lia. auto.
Qed.

Section RoundCents.

Local Open Scope R_scope.

Lemma bpow_m13 : bpow (-13) = / 8192.
Proof. unfold bpow; simpl; lra. Qed.

(** A float whose hundredfold lies within one half of the integer [k > 0]
    rounds to [k] cents. *)
Lemma round2_near (x : float) (s : bool) (m : positive) (e k : Z) :
  Prim2SF x = S754_finite s m e -> (e < 0)%Z -> (0 < k)%Z ->
  Rabs (100 * (IZR (Zpos m) * bpow e) - IZR k) < / 2 ->
  round2 x = cents (cond_Zopp s k).
Proof.
  intros Hx He Hk Hnear. unfold round2. rewrite Hx.
  destruct (Z.leb_spec 0 e) as [|_]; [lia|].
  assert (Hn : Zrne (100 * Zpos m) (2 ^ (- e)) = k).
  { apply Zrne_unique_R with (x := 100 * (IZR (Zpos m) * bpow e)).
    - apply Z.pow_pos_nonneg; lia.
    - rewrite mult_IZR, bpow_IZR by lia.
      rewrite !Rmult_assoc, <- bpow_add.
      replace (e + - e)%Z with 0%Z by lia. rewrite bpow_0. lra.
    - rewrite <- Rabs_Ropp. replace (- (IZR k - 100 * (IZR (Zpos m) * bpow e)))
        with (100 * (IZR (Zpos m) * bpow e) - IZR k) by lra. exact Hnear. }
  rewrite Hn. destruct k as [|n|n]; try lia. destruct s; reflexivity.
Qed.

(** Rounding leaves a whole-cent float in place. *)
Lemma round2_cents (a : Z) :
  (0 <= a <= cent_bound)%Z -> round2 (cents a) = cents a.
Proof.
  intros [Ha0 Ha1]. destruct a as [|p|p]; try lia.
  - vm_compute; reflexivity.
  - destruct (cents_pos_decode p Ha1) as (m & e & Hx & Hd & He & Herr).
    rewrite (round2_near _ _ _ _ (Zpos p) Hx); try lia; [reflexivity|].
    assert (bpow (e - 1) <= bpow (-13)) by (apply bpow_le; lia).
    rewrite bpow_m13 in *. apply Rabs_le_bounds in Herr.
    apply Rabs_def1; lra.
Qed.

(** The code's remainder [round(d - amount, 2)] on whole cents is the
    integer difference. *)
Lemma round2_sub_cents (a b : Z) :
  (0 <= b <= a)%Z -> (a <= cent_bound)%Z ->
  round2 (cents a - cents b)%float = cents (a - b).
Proof.
  intros [Hb Hba] Ha.
  destruct b as [|q|q]; try lia.
  { (* subtracting zero *)
    rewrite Z.sub_0_r.
    assert (Hsub : (cents a - cents 0)%float = cents a).
    { apply Prim2SF_inj. rewrite sub_spec.
      change (Prim2SF (cents 0)) with (S754_zero false).
      unfold SF64sub, SFsub.
      destruct (Prim2SF (cents a)) as [[|]|[|]| |s m e]; reflexivity. }
    rewrite Hsub. apply round2_cents. lia. }
  destruct a as [|p|p]; try lia.
  destruct (cents_pos_decode p Ha) as (ma & ea & Hxa & Hda & Hea & Herra).
  destruct (cents_pos_decode q ltac:(lia)) as (mb & eb & Hxb & Hdb & Heb & Herrb).
  assert (Hba1 : bpow (ea - 1) <= bpow (-13)) by (apply bpow_le; lia).
  assert (Hbb1 : bpow (eb - 1) <= bpow (-13)) by (apply bpow_le; lia).
  rewrite bpow_m13 in *.
  apply Rabs_le_bounds in Herra, Herrb.
  set (X := IZR (Zpos ma) * bpow ea) in *. set (Y := IZR (Zpos mb) * bpow eb) in *.
  assert (HP : IZR (Zpos p) <= 100000000000000).
  { apply IZR_le in Ha. unfold cent_bound in Ha. simpl in Ha. exact Ha. }
  destruct (Z.eq_dec (Zpos p) (Zpos q)) as [Heq|Hne].
  { (* equal amounts *)
    injection Heq as ->. rewrite Z.sub_diag.
    assert (Hsub : (cents (Zpos q) - cents (Zpos q))%float = 0%float).
    { apply Prim2SF_inj. rewrite sub_spec, Hxa.
      unfold SF64sub, SFsub. simpl cond_Zopp. rewrite Z.sub_diag. reflexivity. }
    rewrite Hsub. vm_compute; reflexivity. }
  assert (HQ : 1 <= IZR (Zpos q)) by (apply IZR_le; lia).
  assert (Hlt : (Zpos q + 1 <= Zpos p)%Z) by lia.
  apply IZR_le in Hlt. rewrite plus_IZR in Hlt.
  destruct (SFsub_pos ma mb ea eb (-1022) 40) as (m3 & e3 & Hs & Hd3 & He3 & Herr3).
  { change (bpow (-1022) <= X - Y < bpow 40). rewrite bpow_40. split; [|lra].
    assert (bpow (-1022) <= bpow (-13)) by (apply bpow_le; lia).
    rewrite bpow_m13 in *. lra. }
  { lia. }
  { lia. }
  change (Rabs (IZR (Zpos m3) * bpow e3 - (X - Y)) <= bpow (40 - 53)) in Herr3.
  replace (40 - 53)%Z with (-13)%Z in Herr3 by lia.
  rewrite bpow_m13 in Herr3. apply Rabs_le_bounds in Herr3.
  assert (Hx : Prim2SF (cents (Zpos p) - cents (Zpos q))%float
               = S754_finite false m3 e3).
  { rewrite sub_spec, Hxa, Hxb. exact Hs. }
  rewrite (round2_near _ _ _ _ (Zpos p - Zpos q) Hx); try lia; [reflexivity|].
  rewrite minus_IZR. apply Rabs_def1; lra.
Qed.

End RoundCents.

(* ================================================================= *)
(** * Order and sign of whole-cent floats *)

Section Order.

Local Open Scope R_scope.

Lemma IZR_neg (m : positive) : IZR (Zneg m) = - IZR (Zpos m).
Proof. change (Zneg m) with (- Zpos m)%Z. apply opp_IZR. Qed.

Lemma normal_value_bounds (m : positive) (e : Z) :
  Zpos (digits2_pos m) = 53%Z ->
  bpow (52 + e) <= IZR (Zpos m) * bpow e < bpow (53 + e).
Proof.
  intros Hd. pose proof (digits2_bounds m) as [H1 H2]. rewrite Hd in H1, H2.
  apply IZR_le in H1. apply IZR_lt in H2. rewrite bpow_IZR in H1, H2 by lia.
  rewrite !bpow_add. pose proof (bpow_pos e). simpl Z.sub in H1. split; nra.
Qed.

Lemma SFcompare_normal (m1 m2 : positive) (e1 e2 : Z) :
  Zpos (digits2_pos m1) = 53%Z -> Zpos (digits2_pos m2) = 53%Z ->
  match match Z.compare e1 e2 with
        | Lt => Lt
        | Gt => Gt
        | Eq => Pos.compare_cont Eq m1 m2
        end
  with
  | Lt => IZR (Zpos m1) * bpow e1 < IZR (Zpos m2) * bpow e2
  | Eq => IZR (Zpos m1) * bpow e1 = IZR (Zpos m2) * bpow e2
  | Gt => IZR (Zpos m2) * bpow e2 < IZR (Zpos m1) * bpow e1
  end.
Proof.
  intros Hd1 Hd2.
  pose proof (normal_value_bounds m1 e1 Hd1) as [Ha1 Ha2].
  pose proof (normal_value_bounds m2 e2 Hd2) as [Hb1 Hb2].
  destruct (Z.compare_spec e1 e2) as [He|He|He].
  - subst e2. change (Pos.compare_cont Eq m1 m2) with (Pos.compare m1 m2).
    pose proof (bpow_pos e1) as He.
    destruct (Pos.compare_spec m1 m2) as [Hm|Hm|Hm].
    + subst. reflexivity.
    + apply Pos2Z.pos_lt_pos, IZR_lt in Hm. nra.
    + apply Pos2Z.pos_lt_pos, IZR_lt in Hm. nra.
  - assert (bpow (53 + e1) <= bpow (52 + e2)) by (apply bpow_le; lia). lra.
  - assert (bpow (53 + e2) <= bpow (52 + e1)) by (apply bpow_le; lia). lra.
Qed.

Lemma SFltb_nice (f1 f2 : spec_float) :
  SFnice f1 -> SFnice f2 ->
  SFltb f1 f2 = true <-> SF2R f1 < SF2R f2.
Proof.
  intros H1 H2. unfold SFltb.
  destruct f1 as [s1|s1| |s1 m1 e1]; try contradiction;
    destruct f2 as [s2|s2| |s2 m2 e2]; try contradiction; simpl in H1, H2.
  - simpl. split; [discriminate | lra].
  - simpl SFcompare. simpl SF2R.
    pose proof (normal_value_bounds m2 e2 H2) as [Hb _].
    pose proof (bpow_pos (52 + e2)).
    destruct s2; simpl cond_Zopp; rewrite ?IZR_neg;
      split; intros Hx; try reflexivity; try discriminate; try lra.
  - simpl SFcompare. simpl SF2R.
    pose proof (normal_value_bounds m1 e1 H1) as [Hb _].
    pose proof (bpow_pos (52 + e1)).
    destruct s1; simpl cond_Zopp; rewrite ?IZR_neg;
      split; intros Hx; try reflexivity; try discriminate; try lra.
  - pose proof (normal_value_bounds m1 e1 H1) as [Ha _].
    pose proof (normal_value_bounds m2 e2 H2) as [Hb _].
    pose proof (bpow_pos (52 + e1)). pose proof (bpow_pos (52 + e2)).
    pose proof (SFcompare_normal m1 m2 e1 e2 H1 H2) as Hc.
    simpl SF2R.
    destruct s1, s2; simpl SFcompare; simpl cond_Zopp; rewrite ?IZR_neg.
    + (* both negative *)
      destruct (e1 ?= e2)%Z; [destruct (Pos.compare_cont Eq m1 m2)| |];
        simpl; split; intros Hx; try reflexivity; try discriminate; try lra.
    + split; intros Hx; [lra | reflexivity].
    + split; intros Hx; [discriminate | lra].
    + destruct (e1 ?= e2)%Z; [destruct (Pos.compare_cont Eq m1 m2)| |];
        simpl; split; try discriminate; try lra; auto.
Qed.

(** What a whole-cent float decodes to, with its value. *)
Lemma cents_decode (k : Z) :
  (Z.abs k <= cent_bound)%Z ->
  SFnice (Prim2SF (cents k)) /\
  Rabs (F2R (cents k) - IZR k / 100) <= / 8192.
Proof.
  intros Hk. unfold F2R. destruct k as [|p|p].
  - change (Prim2SF (cents 0)) with (S754_zero false). simpl.
    split; auto. rewrite Rabs_pos_eq; lra.
  - destruct (cents_pos_decode p ltac:(lia)) as (m & e & Hx & Hd & He & Herr).
    rewrite Hx. simpl. split; auto.
    assert (bpow (e - 1) <= bpow (-13)) by (apply bpow_le; lia).
    rewrite bpow_m13 in *. lra.
  - destruct (cents_neg_decode p ltac:(lia)) as (m & e & Hx & Hd & He & Herr).
    rewrite Hx. simpl. split; auto.
    assert (bpow (e - 1) <= bpow (-13)) by (apply bpow_le; lia).
    rewrite bpow_m13 in *.
    rewrite !IZR_neg.
    apply Rabs_le_bounds in Herr. apply Rabs_le. lra.
Qed.

End Order.

Lemma cents_ltb (a b : Z) :
  Z.abs a <= cent_bound -> Z.abs b <= cent_bound ->
  (cents a <? cents b)%float = (a <? b).
Proof.
  intros Ha Hb.
  destruct (cents_decode a Ha) as [Hna Hva].
  destruct (cents_decode b Hb) as [Hnb Hvb].
  apply Rabs_le_bounds in Hva, Hvb.
  pose proof (SFltb_nice _ _ Hna Hnb) as Hlt.
  pose proof (SFltb_nice _ _ Hnb Hna) as Hgt.
  rewrite <- !ltb_spec in *. fold (F2R (cents a)) in *. fold (F2R (cents b)) in *.
  destruct (Z.ltb_spec a b) as [Hab|Hab].
  - apply Hlt. assert (H : a + 1 <= b) by lia.
    apply IZR_le in H. rewrite plus_IZR in H. lra.
  - destruct (Z.eq_dec a b) as [->|Hne]; [apply ltb_irrefl|].
    apply Bool.not_true_is_false. intros E. apply Hlt in E. assert (H : b + 1 <= a) by lia.
    apply IZR_le in H. rewrite plus_IZR in H. lra.
Qed.

Lemma nearest_binary64_opp (s : bool) (num den : positive) :
  SFopp (nearest_binary64 s num den) = nearest_binary64 (negb s) num den.
Proof.
  unfold nearest_binary64.
  destruct (Zrne _ _ =? 2 ^ 53); [|destruct (Zrne _ _)]; simpl;
    try reflexivity; destruct (_ <=? 971); reflexivity.
Qed.

Lemma cents_opp (k : Z) :
  k <> 0 -> Z.abs k <= cent_bound -> (- cents k)%float = cents (- k).
Proof.
  intros Hk0 Hk. apply Prim2SF_inj. rewrite opp_spec.
  destruct k as [|p|p]; try congruence; simpl Z.opp; simpl cents.
  - destruct (nearest_cents_spec false p ltac:(lia)) as (m & e & Hn & Hd & He & _).
    destruct (nearest_cents_spec true p ltac:(lia)) as (m' & e' & Hn' & Hd' & He' & _).
    pose proof (nearest_binary64_opp false p 100) as Hopp. simpl negb in Hopp.
    rewrite Hn, Hn' in *. rewrite !Prim2SF_normal by lia. exact Hopp.
  - destruct (nearest_cents_spec false p ltac:(lia)) as (m & e & Hn & Hd & He & _).
    destruct (nearest_cents_spec true p ltac:(lia)) as (m' & e' & Hn' & Hd' & He' & _).
    pose proof (nearest_binary64_opp true p 100) as Hopp. simpl negb in Hopp.
    rewrite Hn, Hn' in *. rewrite !Prim2SF_normal by lia. exact Hopp.
Qed.

Lemma cents_constants :
  0%float = cents 0 /\ 0.01%float = cents 1 /\ (-0.01)%float = cents (-1).
Proof. repeat split; vm_compute; reflexivity. Qed.

(* ================================================================= *)
(** * Reading a float as a number of cents *)

Lemma Zrne_near (m : positive) (e k : Z) :
  e < 0 ->
  (Rabs (100 * (IZR (Zpos m) * bpow e) - IZR k) < / 2)%R ->
  Zrne (100 * Zpos m) (2 ^ (- e)) = k.
Proof.
  intros He Hnear.
  apply Zrne_unique_R with (x := (100 * (IZR (Zpos m) * bpow e))%R).
  - apply Z.pow_pos_nonneg; lia.
  - rewrite mult_IZR, bpow_IZR by lia.
    rewrite !Rmult_assoc, <- bpow_add.
    replace (e + - e) with 0 by lia. rewrite bpow_0. lra.
  - rewrite <- Rabs_Ropp.
    replace (- (IZR k - 100 * (IZR (Zpos m) * bpow e)))%R
      with (100 * (IZR (Zpos m) * bpow e) - IZR k)%R by lra.
    exact Hnear.
Qed.

Lemma to_cents_cents (k : Z) : Z.abs k <= cent_bound -> to_cents (cents k) = k.
Proof.
  intros Hk. unfold to_cents. destruct k as [|p|p].
  - reflexivity.
  - destruct (cents_pos_decode p ltac:(lia)) as (m & e & Hx & Hd & He & Herr).
    rewrite Hx, (pow2_of_nonpos e), (pow2_of_nonneg (- e)), Z.mul_1_r by lia.
    simpl cond_Zopp. apply Zrne_near; [lia|].
    assert (bpow (e - 1) <= bpow (-13))%R by (apply bpow_le; lia).
    rewrite bpow_m13 in *. apply Rabs_le_bounds in Herr. apply Rabs_def1; lra.
  - destruct (cents_neg_decode p ltac:(lia)) as (m & e & Hx & Hd & He & Herr).
    rewrite Hx, (pow2_of_nonpos e), (pow2_of_nonneg (- e)), Z.mul_1_r by lia.
    simpl cond_Zopp. change (Zneg p) with (- Zpos p). f_equal.
    apply Zrne_near; [lia|].
    assert (bpow (e - 1) <= bpow (-13))%R by (apply bpow_le; lia).
    rewrite bpow_m13 in *. apply Rabs_le_bounds in Herr. apply Rabs_def1; lra.
Qed.

Lemma SFcompare_eq_finite (f : spec_float) (s : bool) (m : positive) (e : Z) :
  SFcompare f (S754_finite s m e) = Some Eq -> f = S754_finite s m e.
Proof.
  destruct f as [s1|s1| |s1 m1 e1]; simpl; try discriminate.
  - destruct s; discriminate.
  - destruct s1; discriminate.
  - destruct s1, s; try discriminate;
      destruct (Z.compare_spec e1 e) as [He|He|He]; try discriminate;
      intros H; injection H as H; subst e1.
    + apply (f_equal CompOpp) in H. rewrite CompOpp_involutive in H. simpl in H.
      apply Pos.compare_eq in H. subst; reflexivity.
    + apply Pos.compare_eq in H. subst; reflexivity.
Qed.

Lemma SFcompare_eq_zero (f : spec_float) (s : bool) :
  SFcompare f (S754_zero s) = Some Eq -> exists s', f = S754_zero s'.
Proof.
  destruct f as [s1|s1| |s1 m1 e1]; simpl; try discriminate.
  - eauto.
  - destruct s1; discriminate.
  - destruct s1; discriminate.
Qed.

(** A whole-cent float is a zero of either sign or the float of a
    non-zero number of cents within the bound. *)
Lemma is_cents_cases (x : float) :
  is_cents x = true ->
  (exists s, Prim2SF x = S754_zero s) \/
  (exists k, k <> 0 /\ Z.abs k <= cent_bound /\ x = cents k).
Proof.
  unfold is_cents. intros H. apply andb_prop in H as [Heq Hb].
  apply Z.leb_le in Hb. set (k := to_cents x) in *.
  rewrite eqb_spec in Heq. unfold SFeqb in Heq.
  destruct (SFcompare (Prim2SF x) (Prim2SF (cents k))) as [[| |]|] eqn:Hc;
    try discriminate.
  destruct k as [|p|p] eqn:Hk.
  - left. change (Prim2SF (cents 0)) with (S754_zero false) in Hc.
    eapply SFcompare_eq_zero; eauto.
  - right. exists (Zpos p). split; [lia|]. split; [lia|].
    destruct (cents_pos_decode p ltac:(lia)) as (m & e & Hx & _).
    rewrite Hx in Hc. apply SFcompare_eq_finite in Hc.
    apply Prim2SF_inj. congruence.
  - right. exists (Zneg p). split; [lia|]. split; [lia|].
    destruct (cents_neg_decode p ltac:(lia)) as (m & e & Hx & _).
    rewrite Hx in Hc. apply SFcompare_eq_finite in Hc.
    apply Prim2SF_inj. congruence.
Qed.

Lemma zero_unclassified (x : float) (s : bool) :
  Prim2SF x = S754_zero s ->
  (0.01 <? x)%float = false /\ (x <? -0.01)%float = false.
Proof.
  intros Hx. rewrite !ltb_spec, Hx.
  replace (Prim2SF 0.01) with (S754_finite false 5764607523034235 (-59))
    by (vm_compute; reflexivity).
  replace (Prim2SF (-0.01)) with (S754_finite true 5764607523034235 (-59))
    by (vm_compute; reflexivity).
  split; reflexivity.
Qed.

(* ================================================================= *)
(** * The sweep on integers *)

Lemma map_set_nth {A B : Type} (f : A -> B) (k : nat) (x : A) (l : list A) :
  map f (set_nth k x l) = set_nth k (f x) (map f l).
Proof.
  revert k; induction l as [|y l IH]; intros [|k]; simpl; auto.
  f_equal; apply IH.
Qed.

Lemma Forall_set_nth {A : Type} (P : A -> Prop) (k : nat) (x : A) (l : list A) :
  Forall P l -> P x -> Forall P (set_nth k x l).
Proof.
  intros Hl Hx. revert k; induction Hl as [|y l Hy Hl IH]; intros [|k]; simpl;
    auto.
Qed.

Lemma py_min_cents (a b : Z) :
  Z.abs a <= cent_bound -> Z.abs b <= cent_bound ->
  py_min (cents a) (cents b) = cents (if b <? a then b else a).
Proof.
  intros Ha Hb. unfold py_min. rewrite cents_ltb by assumption.
  destruct (b <? a); reflexivity.
Qed.

Lemma loop_guard_enc (b : pydict) (z : zframe) :
  loop_guard (enc_frame b z) = zloop_guard z.
Proof. unfold loop_guard, zloop_guard. simpl. rewrite !length_map. reflexivity. Qed.

(** On whole cents within the bound the float loop body is the integer one. *)
Lemma loop_body_enc (b : pydict) (z : zframe) :
  zgood z -> loop_body (enc_frame b z) = enc_frame b (zloop_body z).
Proof.
  intros [Hc Hd]. unfold loop_body, zloop_body. simpl.
  rewrite !nth_error_map.
  destruct (nth_error (zdebtors z) (zidx_i z)) as [[dn kd]|] eqn:Ed; simpl; auto.
  destruct (nth_error (zcreditors z) (zidx_j z)) as [[cn kc]|] eqn:Ec; simpl; auto.
  assert (Hkd : 0 <= kd <= cent_bound).
  { apply nth_error_In in Ed. rewrite Forall_forall in Hd. apply (Hd _ Ed). }
  assert (Hkc : 0 <= kc <= cent_bound).
  { apply nth_error_In in Ec. rewrite Forall_forall in Hc. apply (Hc _ Ec). }
  rewrite py_min_cents by lia.
  set (a := if kc <? kd then kc else kd).
  assert (Ha : 0 <= a /\ a <= kd /\ a <= kc)
    by (unfold a; destruct (Z.ltb_spec kc kd); lia).
  rewrite round2_cents by lia.
  rewrite !round2_sub_cents by lia.
  change 0%float with (cents 0).
  replace 0.01%float with (cents 1) by (vm_compute; reflexivity).
  assert (Hcb : cent_bound = 100000000000000) by reflexivity.
  rewrite !cents_ltb by lia.
  unfold enc_frame; simpl. rewrite !map_set_nth. unfold enc_entry at 1 3; simpl.
  f_equal. destruct (0 <? a); [rewrite map_app|]; reflexivity.
Qed.

Lemma zloop_body_good (z : zframe) : zgood z -> zgood (zloop_body z).
Proof.
  intros [Hc Hd]. unfold zloop_body.
  destruct (nth_error (zdebtors z) (zidx_i z)) as [[dn kd]|] eqn:Ed; [|split; auto].
  destruct (nth_error (zcreditors z) (zidx_j z)) as [[cn kc]|] eqn:Ec; [|split; auto].
  assert (Hkd : 0 <= kd <= cent_bound).
  { apply nth_error_In in Ed. rewrite Forall_forall in Hd. apply (Hd _ Ed). }
  assert (Hkc : 0 <= kc <= cent_bound).
  { apply nth_error_In in Ec. rewrite Forall_forall in Hc. apply (Hc _ Ec). }
  split; simpl; apply Forall_set_nth; auto; unfold in_range; simpl;
    destruct (Z.ltb_spec kc kd); lia.
Qed.

(* ================================================================= *)
(** * Invariants of the integer sweep *)

Lemma zsum_set_nth (l : list zentry) (k : nat) (name name' : string) (v v' : Z) :
  nth_error l k = Some (name, v) ->
  zsum (set_nth k (name', v') l) = zsum l - v + v'.
Proof.
  revert k; induction l as [|y l IH]; intros [|k] H; simpl in *; try discriminate.
  - injection H as ->. simpl. lia.
  - rewrite (IH k H). lia.
Qed.

Lemma zpaid_app (name : string) (ts ts' : list ztransaction) :
  zpaid name (ts ++ ts') = zpaid name ts + zpaid name ts'.
Proof.
  induction ts as [|[[p r] a] ts IH]; simpl; auto. rewrite IH. lia.
Qed.

Lemma zreceived_app (name : string) (ts ts' : list ztransaction) :
  zreceived name (ts ++ ts') = zreceived name ts + zreceived name ts'.
Proof.
  induction ts as [|[[p r] a] ts IH]; simpl; auto. rewrite IH. lia.
Qed.

(** One more payment of [a] by [name], seen on the list of entries. *)
Lemma settle_entries_step (done : string -> Z) (l0 : list zentry) (k : nat)
      (name : string) (v a : Z) :
  NoDup (map fst l0) ->
  nth_error (settle_entries done l0) k = Some (name, v) ->
  set_nth k (name, v - a) (settle_entries done l0)
  = settle_entries
      (fun n => done n + (if String.eqb name n then a else 0)) l0.
Proof.
  unfold settle_entries.
  revert k; induction l0 as [|[n0 k0] l0 IH]; intros [|k] Hnd H; simpl in *;
    try discriminate.
  - injection H as -> <-. rewrite String.eqb_refl. f_equal; [f_equal; lia|].
    apply map_ext_in. intros [n1 k1] Hin. simpl.
    destruct (String.eqb_spec name n1) as [->|]; [|f_equal; lia].
    exfalso. inversion Hnd as [|? ? Hout _]; subst. apply Hout.
    apply (in_map fst) in Hin. exact Hin.
  - inversion Hnd as [|? ? Hout Hnd']; subst.
    rewrite (IH k Hnd' H). f_equal.
    destruct (String.eqb_spec name n0) as [->|]; [|f_equal; lia].
    exfalso. apply Hout. apply nth_error_In in H.
    apply (in_map fst) in H. rewrite map_map in H. simpl in H. exact H.
Qed.

Lemma settle_entries_ext (f g : string -> Z) (l0 : list zentry) :
  (forall n, f n = g n) -> settle_entries f l0 = settle_entries g l0.
Proof.
  intros H. unfold settle_entries. apply map_ext. intros e. rewrite H. reflexivity.
Qed.

Lemma settle_entries_none (l0 : list zentry) :
  settle_entries (fun _ => 0) l0 = l0.
Proof.
  unfold settle_entries. rewrite <- (map_id l0) at 2. apply map_ext.
  intros [n k]. simpl. f_equal. lia.
Qed.

Section Sweep.

Variables c0 d0 : list zentry.

Lemma zinv_start :
  Forall in_range c0 -> Forall in_range d0 ->
  zinv c0 d0 (mkZFrame c0 d0 [] 0 0).
Proof.
  intros Hc Hd. constructor; simpl; auto; try lia.
  - split; assumption.
  - intros _. symmetry. apply settle_entries_none.
  - intros _. symmetry. apply settle_entries_none.
Qed.

(** A pass keeps the invariant and moves at least one index. *)
Lemma zinv_step (z : zframe) :
  zinv c0 d0 z -> zloop_guard z = true ->
  zinv c0 d0 (zloop_body z) /\
  (zidx_i z + zidx_j z < zidx_i (zloop_body z) + zidx_j (zloop_body z))%nat.
Proof.
  intros Hinv Hg.
  pose proof (zloop_body_good z (zinv_good _ _ _ Hinv)) as Hgood'.
  destruct Hinv as [[Hgc Hgd] Hld Hlc Hi Hj Hsd Hsc [Hcnt1 Hcnt2] Hpos Hsum Hpaid Hrecv].
  unfold zloop_guard in Hg. apply andb_prop in Hg as [Hgi Hgj].
  apply Nat.ltb_lt in Hgi, Hgj.
  unfold zloop_body in *.
  destruct (nth_error (zdebtors z) (zidx_i z)) as [[dn kd]|] eqn:Ed;
    [|apply nth_error_None in Ed; lia].
  destruct (nth_error (zcreditors z) (zidx_j z)) as [[cn kc]|] eqn:Ec;
    [|apply nth_error_None in Ec; lia].
  assert (Hkd : 0 <= kd <= cent_bound).
  { apply nth_error_In in Ed. rewrite Forall_forall in Hgd. apply (Hgd _ Ed). }
  assert (Hkc : 0 <= kc <= cent_bound).
  { apply nth_error_In in Ec. rewrite Forall_forall in Hgc. apply (Hgc _ Ec). }
  set (a := if kc <? kd then kc else kd) in *.
  assert (Ha : 0 <= a /\ a <= kd /\ a <= kc /\ (a = kd \/ a = kc))
    by (unfold a; destruct (Z.ltb_spec kc kd); lia).
  simpl. split.
  - constructor; simpl; auto.
    + rewrite set_nth_length; exact Hld.
    + rewrite set_nth_length; exact Hlc.
    + destruct (kd - a <? 1); lia.
    + destruct (kc - a <? 1); lia.
    + intros k e Hk Hn.
      destruct (Nat.eq_dec (zidx_i z) k) as [<-|Hne].
      * rewrite nth_error_set_nth_eq in Hn by lia. injection Hn as <-. simpl.
        destruct (Z.ltb_spec (kd - a) 1); lia.
      * rewrite nth_error_set_nth_neq in Hn by exact Hne.
        apply (Hsd k e); [destruct (kd - a <? 1); lia | exact Hn].
    + intros k e Hk Hn.
      destruct (Nat.eq_dec (zidx_j z) k) as [<-|Hne].
      * rewrite nth_error_set_nth_eq in Hn by lia. injection Hn as <-. simpl.
        destruct (Z.ltb_spec (kc - a) 1); lia.
      * rewrite nth_error_set_nth_neq in Hn by exact Hne.
        apply (Hsc k e); [destruct (kc - a <? 1); lia | exact Hn].
    + assert (Hadv : (zidx_i z + zidx_j z + 1
                      <= (if (kd - a <? 1)%Z then S (zidx_i z) else zidx_i z)
                         + (if (kc - a <? 1)%Z then S (zidx_j z) else zidx_j z))%nat).
      { destruct (Z.ltb_spec (kd - a) 1); destruct (Z.ltb_spec (kc - a) 1); lia. }
      destruct (0 <? a).
      * rewrite length_app; simpl. split; [lia | right; lia].
      * split; [lia | exact Hcnt2].
    + destruct (Z.ltb_spec 0 a); auto.
      apply Forall_app; split; auto. constructor; [simpl; lia | constructor].
    + rewrite (zsum_set_nth _ _ dn dn kd _ Ed), (zsum_set_nth _ _ cn cn kc _ Ec). lia.
    + intros Hnd. specialize (Hpaid Hnd). rewrite Hpaid in Ed |- *.
      rewrite (settle_entries_step _ _ _ _ _ a Hnd Ed).
      apply settle_entries_ext. intros n.
      destruct (Z.ltb_spec 0 a) as [Hpos'|Hzero].
      * rewrite zpaid_app. simpl. lia.
      * replace a with 0 by lia. destruct (String.eqb dn n); lia.
    + intros Hnd. specialize (Hrecv Hnd). rewrite Hrecv in Ec |- *.
      rewrite (settle_entries_step _ _ _ _ _ a Hnd Ec).
      apply settle_entries_ext. intros n.
      destruct (Z.ltb_spec 0 a) as [Hpos'|Hzero].
      * rewrite zreceived_app. simpl. lia.
      * replace a with 0 by lia. destruct (String.eqb cn n); lia.
  - destruct (Z.ltb_spec (kd - a) 1); destruct (Z.ltb_spec (kc - a) 1); lia.
Qed.

(** A run that returns ends in an encoded frame that satisfies the
    invariant and fails the guard. *)
Lemma while_loop_cents_partial (b : pydict) (fuel : nat) (z : zframe) (st : frame) :
  zinv c0 d0 z ->
  while_loop fuel (enc_frame b z) = Some st ->
  exists z', st = enc_frame b z' /\ zinv c0 d0 z' /\ zloop_guard z' = false.
Proof.
  revert z; induction fuel as [|fuel IH]; intros z Hinv; simpl;
    rewrite loop_guard_enc; destruct (zloop_guard z) eqn:Hg; try discriminate.
  - intros H; injection H as <-. eauto.
  - rewrite loop_body_enc by (apply (zinv_good _ _ _ Hinv)).
    apply IH. apply zinv_step; assumption.
  - intros H; injection H as <-. eauto.
Qed.

(** The loop returns once the fuel covers the entries not yet passed. *)
Lemma while_loop_cents_total (b : pydict) (fuel : nat) (z : zframe) :
  zinv c0 d0 z ->
  ((length d0 - zidx_i z) + (length c0 - zidx_j z) <= S fuel)%nat ->
  exists st, while_loop fuel (enc_frame b z) = Some st.
Proof.
  revert z; induction fuel as [|fuel IH]; intros z Hinv Hmu; simpl;
    rewrite loop_guard_enc; destruct (zloop_guard z) eqn:Hg; eauto.
  - exfalso. unfold zloop_guard in Hg. apply andb_prop in Hg as [Hgi Hgj].
    apply Nat.ltb_lt in Hgi, Hgj.
    rewrite (zinv_len_d _ _ _ Hinv) in Hgi. rewrite (zinv_len_c _ _ _ Hinv) in Hgj.
    lia.
  - rewrite loop_body_enc by (apply (zinv_good _ _ _ Hinv)).
    destruct (zinv_step z Hinv Hg) as [Hinv' Hadv].
    apply IH; auto.
    pose proof (zinv_i _ _ _ Hinv'). pose proof (zinv_j _ _ _ Hinv'). lia.
Qed.

End Sweep.

(* ================================================================= *)
(** * From a whole-cent mapping to the integer sweep *)

Lemma insert_desc_perm (x : entry) (l : list entry) :
  Permutation (insert_desc x l) (x :: l).
Proof.
  induction l as [|y l IH]; simpl; auto.
  destruct (snd x <? snd y)%float; auto.
  rewrite IH. apply perm_swap.
Qed.

Lemma sort_desc_perm (l : list entry) : Permutation (sort_desc l) l.
Proof.
  induction l as [|y l IH]; simpl; auto.
  rewrite insert_desc_perm. auto.
Qed.

(** The partition, read as two filters of the mapping. *)
Lemma classify_filters (b : pydict) :
  classify b
  = (filter is_creditor b,
     map (fun item => (fst item, (- snd item)%float)) (filter is_debtor b)).
Proof.
  induction b as [|[k v] b IH] using rev_ind; [reflexivity|].
  rewrite classify_snoc, IH, !filter_app, map_app. simpl.
  change (is_creditor (k, v)) with (0.01 <? v)%float.
  change (is_debtor (k, v)) with (v <? -0.01)%float.
  destruct (0.01 <? v)%float eqn:Hc.
  - rewrite (creditor_not_debtor v Hc). simpl. rewrite app_nil_r. reflexivity.
  - destruct (v <? -0.01)%float; simpl; rewrite ?app_nil_r; reflexivity.
Qed.

Lemma NoDup_names_filter (f : string * float -> bool) (b : pydict) :
  NoDup (map fst b) -> NoDup (map fst (filter f b)).
Proof.
  induction b as [|x b IH]; simpl; auto.
  intros H. inversion H as [|? ? Hout Hnd]; subst.
  destruct (f x); simpl; auto. constructor; auto.
  intros Hin. apply Hout. apply in_map_iff in Hin as [y [Hy Hin]].
  apply filter_In in Hin as [Hin _]. apply in_map_iff. eauto.
Qed.

Lemma creditor_cents (v : float) :
  is_cents v = true -> (0.01 <? v)%float = true ->
  exists k, 2 <= k <= cent_bound /\ v = cents k.
Proof.
  intros Hc Hv. destruct (is_cents_cases v Hc) as [[s Hz]|[k (Hk0 & Hk & ->)]].
  - destruct (zero_unclassified v s Hz) as [H _]. congruence.
  - exists k. split; auto.
    replace 0.01%float with (cents 1) in Hv by (vm_compute; reflexivity).
    assert (Hcb : cent_bound = 100000000000000) by reflexivity.
    rewrite cents_ltb in Hv by lia. apply Z.ltb_lt in Hv. lia.
Qed.

Lemma debtor_cents (v : float) :
  is_cents v = true -> (v <? -0.01)%float = true ->
  exists k, 2 <= k <= cent_bound /\ v = cents (- k) /\ (- v)%float = cents k.
Proof.
  intros Hc Hv. destruct (is_cents_cases v Hc) as [[s Hz]|[k (Hk0 & Hk & ->)]].
  - destruct (zero_unclassified v s Hz) as [_ H]. congruence.
  - exists (- k).
    replace (-0.01)%float with (cents (-1)) in Hv by (vm_compute; reflexivity).
    assert (Hcb : cent_bound = 100000000000000) by reflexivity.
    rewrite cents_ltb in Hv by lia. apply Z.ltb_lt in Hv.
    rewrite Z.opp_involutive. split; [lia|]. split; [reflexivity|].
    apply cents_opp; lia.
Qed.

Lemma all_cents_app (b1 b2 : pydict) :
  all_cents (b1 ++ b2) <-> all_cents b1 /\ all_cents b2.
Proof. unfold all_cents, values. rewrite map_app. apply Forall_app. Qed.

(** The float lists of the partition are the encodings of the integer
    ones, and every integer entry lies between 2 cents and the bound. *)
Lemma classify_cents (b : pydict) :
  all_cents b ->
  fst (classify b) = map enc_entry (zcreditors_of b) /\
  snd (classify b) = map enc_entry (zdebtors_of b) /\
  Forall (fun e => 2 <= snd e <= cent_bound) (zcreditors_of b) /\
  Forall (fun e => 2 <= snd e <= cent_bound) (zdebtors_of b).
Proof.
  rewrite classify_filters. unfold zcreditors_of, zdebtors_of. simpl.
  induction b as [|[k v] b IH]; intros Hall; [simpl; auto|].
  inversion Hall as [|? ? Hv Hall']; subst. simpl in Hv.
  destruct (IH Hall') as (IH1 & IH2 & IH3 & IH4). clear IH.
  simpl filter.
  change (is_creditor (k, v)) with (0.01 <? v)%float.
  change (is_debtor (k, v)) with (v <? -0.01)%float.
  assert (Hcb : cent_bound = 100000000000000) by reflexivity.
  repeat split.
  - destruct (0.01 <? v)%float eqn:Hc; simpl; [|exact IH1].
    destruct (creditor_cents v Hv Hc) as (n & Hn & ->).
    rewrite IH1 at 1. unfold enc_entry at 1. simpl.
    rewrite to_cents_cents by lia. reflexivity.
  - destruct (v <? -0.01)%float eqn:Hd; simpl; [|exact IH2].
    destruct (debtor_cents v Hv Hd) as (n & Hn & Hvn & Hopp).
    rewrite IH2 at 1. unfold enc_entry at 1. simpl. rewrite Hopp.
    rewrite Hvn, to_cents_cents, Z.opp_involutive by lia. reflexivity.
  - destruct (0.01 <? v)%float eqn:Hc; simpl; [|exact IH3].
    destruct (creditor_cents v Hv Hc) as (n & Hn & ->).
    constructor; [|exact IH3]. simpl. rewrite to_cents_cents by lia. lia.
  - destruct (v <? -0.01)%float eqn:Hd; simpl; [|exact IH4].
    destruct (debtor_cents v Hv Hd) as (n & Hn & Hvn & Hopp).
    constructor; [|exact IH4]. simpl. rewrite Hvn, to_cents_cents by lia. lia.
Qed.

Lemma enc_dec_entry (e : zentry) :
  0 <= snd e <= cent_bound -> dec_entry (enc_entry e) = e.
Proof.
  destruct e as [n k]. unfold dec_entry, enc_entry. simpl. intros H.
  rewrite to_cents_cents by lia. reflexivity.
Qed.

(** Sorting an encoded list gives an encoded list with the same entries. *)
Lemma sort_desc_enc (zl : list zentry) :
  Forall in_range zl ->
  exists zl', sort_desc (map enc_entry zl) = map enc_entry zl' /\
              Permutation zl' zl.
Proof.
  intros Hr. exists (map dec_entry (sort_desc (map enc_entry zl))).
  pose proof (sort_desc_perm (map enc_entry zl)) as Hp.
  assert (Hdec : map dec_entry (map enc_entry zl) = zl).
  { rewrite map_map. rewrite <- (map_id zl) at 2. apply map_ext_in.
    intros e He. apply enc_dec_entry. rewrite Forall_forall in Hr. apply Hr, He. }
  split.
  - rewrite map_map. rewrite <- (map_id (sort_desc _)) at 1. apply map_ext_in.
    intros e He. apply (Permutation_in _ Hp) in He.
    apply in_map_iff in He as [ze [<- Hze]].
    rewrite enc_dec_entry; auto. rewrite Forall_forall in Hr. apply Hr, Hze.
  - rewrite <- Hdec at 2. apply Permutation_map, Hp.
Qed.

Lemma settle_init_cents (b : pydict) :
  all_cents b ->
  exists c0 d0,
    settle_init b = enc_frame b (mkZFrame c0 d0 [] 0 0) /\
    Permutation c0 (zcreditors_of b) /\ Permutation d0 (zdebtors_of b) /\
    Forall in_range c0 /\ Forall in_range d0.
Proof.
  intros Hall. destruct (classify_cents b Hall) as (Hc & Hd & Hrc & Hrd).
  assert (Hrc' : Forall in_range (zcreditors_of b))
    by (eapply Forall_impl; [|exact Hrc]; unfold in_range; simpl; intros; lia).
  assert (Hrd' : Forall in_range (zdebtors_of b))
    by (eapply Forall_impl; [|exact Hrd]; unfold in_range; simpl; intros; lia).
  destruct (sort_desc_enc _ Hrc') as (c0 & Hsc & Hpc).
  destruct (sort_desc_enc _ Hrd') as (d0 & Hsd & Hpd).
  exists c0, d0. unfold settle_init.
  destruct (classify b) as [cs ds]. simpl in Hc, Hd. subst cs ds.
  rewrite Hsc, Hsd. split; [reflexivity|]. split; [exact Hpc|]. split; [exact Hpd|].
  split; eapply Permutation_Forall; try apply Permutation_sym; eauto.
Qed.

(* ================================================================= *)
(** * Applying a plan in exact cents *)

Lemma paid_enc (name : string) (zts : list ztransaction) :
  Forall (fun t => 0 < snd t <= cent_bound) zts ->
  paid name (map enc_transaction zts) = zpaid name zts.
Proof.
  induction 1 as [|[[p r] a] zts Ha _ IH]; simpl in *; auto.
  rewrite IH, to_cents_cents by lia. reflexivity.
Qed.

Lemma received_enc (name : string) (zts : list ztransaction) :
  Forall (fun t => 0 < snd t <= cent_bound) zts ->
  received name (map enc_transaction zts) = zreceived name zts.
Proof.
  induction 1 as [|[[p r] a] zts Ha _ IH]; simpl in *; auto.
  rewrite IH, to_cents_cents by lia. reflexivity.
Qed.

Lemma zsum_perm (l l' : list zentry) : Permutation l l' -> zsum l = zsum l'.
Proof. induction 1; simpl; lia. Qed.

Lemma zsum_zero (l : list zentry) :
  Forall in_range l -> zsum l = 0 -> Forall (fun e => snd e = 0) l.
Proof.
  induction 1 as [|e l He Hl IH]; simpl; intros Hs; constructor.
  - assert (0 <= zsum l).
    { clear -Hl. induction Hl as [|x l Hx _ IH]; simpl; unfold in_range in *; lia. }
    unfold in_range in He. lia.
  - apply IH. assert (0 <= zsum l).
    { clear -Hl. induction Hl as [|x l Hx _ IH]; simpl; unfold in_range in *; lia. }
    unfold in_range in He. lia.
Qed.

Lemma zsum_all_zero (l : list zentry) :
  Forall (fun e => snd e = 0) l -> zsum l = 0.
Proof. induction 1 as [|e l He _ IH]; simpl; lia. Qed.

Lemma settled_prefix_all (l : list zentry) (i : nat) :
  (length l <= i)%nat ->
  (forall k e, (k < i)%nat -> nth_error l k = Some e -> snd e = 0) ->
  Forall (fun e => snd e = 0) l.
Proof.
  intros Hlen H. apply Forall_forall. intros e He.
  apply In_nth_error in He as [k Hk].
  apply (H k e); auto.
  assert (k < length l)%nat.
  { apply (proj1 (nth_error_Some l k)). intros Hn.
    pose proof (eq_trans (eq_sym Hn) Hk). discriminate. }
  lia.
Qed.

(** The run of [settle_debts] on a whole-cent mapping, as the integer
    sweep sees it. *)
Lemma settle_run_cents (b : pydict) (fuel : nat) :
  all_cents b ->
  (forall st, settle_run fuel b = Some st ->
     exists c0 d0 z,
       st = enc_frame b z /\
       Permutation c0 (zcreditors_of b) /\ Permutation d0 (zdebtors_of b) /\
       zinv c0 d0 z /\ zloop_guard z = false) /\
  ((num_creditors b + num_debtors b <= S fuel)%nat ->
   exists st, settle_run fuel b = Some st).
Proof.
  intros Hall.
  destruct (settle_init_cents b Hall) as (c0 & d0 & Hinit & Hpc & Hpd & Hrc & Hrd).
  pose proof (zinv_start c0 d0 Hrc Hrd) as Hinv.
  unfold settle_run. rewrite Hinit. split.
  - intros st Hrun.
    destruct (while_loop_cents_partial c0 d0 b fuel _ st Hinv Hrun)
      as (z & Hst & Hz & Hg).
    exists c0, d0, z. auto.
  - intros Hfuel. apply (while_loop_cents_total c0 d0 b fuel _ Hinv). simpl.
    apply Permutation_length in Hpc, Hpd.
    unfold zcreditors_of, zdebtors_of in Hpc, Hpd. rewrite length_map in Hpc, Hpd.
    unfold num_creditors, num_debtors in Hfuel. lia.
Qed.

Lemma creditor_in_zcreditors (b : pydict) (name : string) (bal : float) :
  In (name, bal) b -> is_creditor (name, bal) = true ->
  In (name, to_cents bal) (zcreditors_of b).
Proof.
  intros Hin Hc. unfold zcreditors_of.
  apply in_map_iff. exists (name, bal). split; auto.
  apply filter_In. auto.
Qed.

Lemma debtor_in_zdebtors (b : pydict) (name : string) (bal : float) :
  In (name, bal) b -> is_debtor (name, bal) = true ->
  In (name, - to_cents bal) (zdebtors_of b).
Proof.
  intros Hin Hc. unfold zdebtors_of.
  apply in_map_iff. exists (name, bal). split; auto.
  apply filter_In. auto.
Qed.

Lemma settle_entries_in (done : string -> Z) (l0 : list zentry)
      (name : string) (k : Z) :
  In (name, k) l0 -> In (name, k - done name) (settle_entries done l0).
Proof.
  intros H. unfold settle_entries. apply in_map_iff. exists (name, k). auto.
Qed.

(** A name that is neither a payer nor a receiver of a plan. *)
Lemma paid_absent (name : string) (ts : list transaction) :
  Forall (fun t => fst (fst t) <> name) ts -> paid name ts = 0.
Proof.
  induction 1 as [|[[p r] a] ts Hp _ IH]; simpl in *; auto.
  destruct (String.eqb_spec p name); [congruence | lia].
Qed.

Lemma received_absent (name : string) (ts : list transaction) :
  Forall (fun t => snd (fst t) <> name) ts -> received name ts = 0.
Proof.
  induction 1 as [|[[p r] a] ts Hp _ IH]; simpl in *; auto.
  destruct (String.eqb_spec r name); [congruence | lia].
Qed.

(** An entry that is neither creditor nor debtor holds at most one cent. *)
Lemma unclassified_cents (v : float) :
  is_cents v = true ->
  (0.01 <? v)%float = false -> (v <? -0.01)%float = false ->
  -1 <= to_cents v <= 1.
Proof.
  intros Hc H1 H2. destruct (is_cents_cases v Hc) as [[s Hz]|[k (Hk0 & Hk & ->)]].
  - unfold to_cents. rewrite Hz. lia.
  - replace 0.01%float with (cents 1) in H1 by (vm_compute; reflexivity).
    replace (-0.01)%float with (cents (-1)) in H2 by (vm_compute; reflexivity).
    assert (Hcb : cent_bound = 100000000000000) by reflexivity.
    rewrite cents_ltb in H1, H2 by lia.
    apply Z.ltb_ge in H1, H2. rewrite to_cents_cents by lia. lia.
Qed.

(** What the plan returned for a whole-cent mapping does to it. *)
Lemma settle_debts_on_cents (b : pydict) (fuel : nat) (ts : list transaction) :
  NoDup (keys b) -> all_cents b ->
  settle_debts fuel b = Some ts ->
  let debt_left name bal := - to_cents bal - paid name ts in
  let credit_left name bal := to_cents bal - received name ts in
  let debtors_settled :=
    forall name bal, In (name, bal) b -> is_debtor (name, bal) = true ->
                     debt_left name bal = 0 in
  let creditors_settled :=
    forall name bal, In (name, bal) b -> is_creditor (name, bal) = true ->
                     credit_left name bal = 0 in
  (forall name bal, In (name, bal) b -> is_debtor (name, bal) = true ->
                    0 <= debt_left name bal) /\
  (forall name bal, In (name, bal) b -> is_creditor (name, bal) = true ->
                    0 <= credit_left name bal) /\
  (debtors_settled \/ creditors_settled) /\
  (total_credit b = total_debt b -> debtors_settled /\ creditors_settled).
Proof.
  intros Hnd Hall Hrun. unfold settle_debts in Hrun.
  destruct (settle_run fuel b) as [st|] eqn:Hst; [|discriminate].
  injection Hrun as <-.
  destruct (settle_run_cents b fuel Hall) as [Hpart _].
  destruct (Hpart st Hst) as (c0 & d0 & z & -> & Hpc & Hpd & Hinv & Hg).
  simpl transactions.
  pose proof (zinv_good _ _ _ Hinv) as [Hgc Hgd].
  assert (Hndd : NoDup (map fst d0)).
  { eapply Permutation_NoDup; [apply Permutation_sym, Permutation_map, Hpd|].
    unfold zdebtors_of. rewrite map_map. simpl.
    apply (NoDup_names_filter is_debtor b Hnd). }
  assert (Hndc : NoDup (map fst c0)).
  { eapply Permutation_NoDup; [apply Permutation_sym, Permutation_map, Hpc|].
    unfold zcreditors_of. rewrite map_map. simpl.
    apply (NoDup_names_filter is_creditor b Hnd). }
  pose proof (zinv_paid _ _ _ Hinv Hndd) as Hpaid.
  pose proof (zinv_received _ _ _ Hinv Hndc) as Hrecv.
  pose proof (zinv_positive _ _ _ Hinv) as Hpos.
  assert (Hd_in : forall name bal,
             In (name, bal) b -> is_debtor (name, bal) = true ->
             In (name, - to_cents bal - paid name (map enc_transaction (ztransactions z)))
                (zdebtors z)).
  { intros name bal Hin Hd. rewrite paid_enc by exact Hpos. rewrite Hpaid.
    apply (settle_entries_in (fun n => zpaid n (ztransactions z))).
    apply (Permutation_in _ (Permutation_sym Hpd)).
    apply debtor_in_zdebtors; assumption. }
  assert (Hc_in : forall name bal,
             In (name, bal) b -> is_creditor (name, bal) = true ->
             In (name, to_cents bal - received name (map enc_transaction (ztransactions z)))
                (zcreditors z)).
  { intros name bal Hin Hc. rewrite received_enc by exact Hpos. rewrite Hrecv.
    apply (settle_entries_in (fun n => zreceived n (ztransactions z))).
    apply (Permutation_in _ (Permutation_sym Hpc)).
    apply creditor_in_zcreditors; assumption. }
  assert (Hd_all : Forall (fun e => snd e = 0) (zdebtors z) ->
                   forall name bal, In (name, bal) b -> is_debtor (name, bal) = true ->
                     - to_cents bal - paid name (map enc_transaction (ztransactions z)) = 0).
  { intros Hz name bal Hin Hd. rewrite Forall_forall in Hz.
    apply (Hz _ (Hd_in name bal Hin Hd)). }
  assert (Hc_all : Forall (fun e => snd e = 0) (zcreditors z) ->
                   forall name bal, In (name, bal) b -> is_creditor (name, bal) = true ->
                     to_cents bal - received name (map enc_transaction (ztransactions z)) = 0).
  { intros Hz name bal Hin Hc. rewrite Forall_forall in Hz.
    apply (Hz _ (Hc_in name bal Hin Hc)). }
  assert (Hside : Forall (fun e => snd e = 0) (zdebtors z) \/
                  Forall (fun e => snd e = 0) (zcreditors z)).
  { unfold zloop_guard in Hg. apply andb_false_iff in Hg as [Hg|Hg];
      apply Nat.ltb_ge in Hg; [left|right].
    - eapply settled_prefix_all; [exact Hg | apply (zinv_settled_d _ _ _ Hinv)].
    - eapply settled_prefix_all; [exact Hg | apply (zinv_settled_c _ _ _ Hinv)]. }
  cbv zeta. split; [|split; [|split]].
  - intros name bal Hin Hd. rewrite Forall_forall in Hgd.
    apply (Hgd _ (Hd_in name bal Hin Hd)).
  - intros name bal Hin Hc. rewrite Forall_forall in Hgc.
    apply (Hgc _ (Hc_in name bal Hin Hc)).
  - destruct Hside as [Hz|Hz]; [left; apply Hd_all, Hz | right; apply Hc_all, Hz].
  - intros Htot. unfold total_credit, total_debt in Htot.
    pose proof (zinv_sum _ _ _ Hinv) as Hsum.
    rewrite (zsum_perm _ _ Hpc), (zsum_perm _ _ Hpd) in Hsum.
    assert (Hboth : Forall (fun e => snd e = 0) (zdebtors z) /\
                    Forall (fun e => snd e = 0) (zcreditors z)).
    { destruct Hside as [Hz|Hz]; pose proof (zsum_all_zero _ Hz) as Hs; split; auto;
        apply zsum_zero; auto; lia. }
    destruct Hboth as [Hzd Hzc]. split; [apply Hd_all, Hzd | apply Hc_all, Hzc].
Qed.

(* ================================================================= *)
(** * Sums, quotients and differences of non-negative floats *)

Section Arithmetic.

Local Open Scope R_scope.

Lemma F2R_zero (x : float) (s : bool) : Prim2SF x = S754_zero s -> F2R x = 0.
Proof. unfold F2R. intros ->. reflexivity. Qed.

Lemma F2R_finite_pos (x : float) (m : positive) (e : Z) :
  Prim2SF x = S754_finite false m e -> F2R x = IZR (Zpos m) * bpow e.
Proof. unfold F2R. intros ->. reflexivity. Qed.

Lemma F2R_finite_neg (x : float) (m : positive) (e : Z) :
  Prim2SF x = S754_finite true m e -> F2R x = - (IZR (Zpos m) * bpow e).
Proof. unfold F2R. intros ->. simpl. rewrite IZR_neg. lra. Qed.

Lemma nonneg_ge_0 (lo : Z) (x : float) : nonneg lo x -> 0 <= F2R x.
Proof.
  intros [[s H]|(m & e & H & _)].
  - rewrite (F2R_zero x s H). lra.
  - rewrite (F2R_finite_pos x m e H).
    pose proof (bpow_pos e). assert (0 < IZR (Zpos m)) by (apply IZR_lt; lia). nra.
Qed.

(** [x + y] for finite positive operands. *)
Lemma SFadd_pos (mx my : positive) (ex ey j k : Z) :
  let X := IZR (Zpos mx) * bpow ex in
  let Y := IZR (Zpos my) * bpow ey in
  bpow j <= X + Y < bpow k -> (-1022 <= j)%Z -> (k <= 1023)%Z ->
  exists m3 e3,
    SFadd prec emax (S754_finite false mx ex) (S754_finite false my ey)
    = S754_finite false m3 e3 /\
    Zpos (digits2_pos m3) = 53%Z /\ (j - 52 <= e3 <= k - 52)%Z /\
    Rabs (IZR (Zpos m3) * bpow e3 - (X + Y)) <= bpow (k - 53).
Proof.
  intros X Y Hrange Hj Hk. unfold SFadd.
  pose proof (shl_align_spec mx ex (Z.min ex ey)) as Hax.
  pose proof (shl_align_spec my ey (Z.min ex ey)) as Hay.
  destruct (shl_align mx ex (Z.min ex ey)) as [mx' ex'].
  destruct (shl_align my ey (Z.min ex ey)) as [my' ey'].
  destruct Hax as [Hex' Hmx']. destruct Hay as [Hey' Hmy'].
  replace ex' with (Z.min ex ey) in Hmx' by lia.
  replace ey' with (Z.min ex ey) in Hmy' by lia.
  set (ez := Z.min ex ey) in *. simpl fst. simpl cond_Zopp.
  assert (HX : IZR (Zpos mx') * bpow ez = X).
  { unfold X. replace (bpow ex) with (bpow (ex - ez) * bpow ez)
      by (rewrite <- bpow_add; f_equal; lia).
    rewrite Hmx', mult_IZR, bpow_IZR by lia. lra. }
  assert (HY : IZR (Zpos my') * bpow ez = Y).
  { unfold Y. replace (bpow ey) with (bpow (ey - ez) * bpow ez)
      by (rewrite <- bpow_add; f_equal; lia).
    rewrite Hmy', mult_IZR, bpow_IZR by lia. lra. }
  change (Zpos mx' + Zpos my')%Z with (Zpos (mx' + my')).
  assert (HV : IZR (Zpos (mx' + my')) * bpow ez = X + Y).
  { rewrite Pos2Z.inj_add, plus_IZR. lra. }
  rewrite <- HV in Hrange |- *.
  apply binary_normalize_pos; assumption.
Qed.

(** [x - y] for finite positive [x < y]: the negative of [y - x]. *)
Lemma SFsub_neg (mx my : positive) (ex ey j k : Z) :
  let X := IZR (Zpos mx) * bpow ex in
  let Y := IZR (Zpos my) * bpow ey in
  bpow j <= Y - X < bpow k -> (-1022 <= j)%Z -> (k <= 1023)%Z ->
  exists m3 e3,
    SFsub prec emax (S754_finite false mx ex) (S754_finite false my ey)
    = S754_finite true m3 e3 /\
    Zpos (digits2_pos m3) = 53%Z /\ (j - 52 <= e3 <= k - 52)%Z /\
    Rabs (IZR (Zpos m3) * bpow e3 - (Y - X)) <= bpow (k - 53).
Proof.
  intros X Y [Hlo Hhi] Hj Hk. unfold SFsub.
  pose proof (shl_align_spec mx ex (Z.min ex ey)) as Hax.
  pose proof (shl_align_spec my ey (Z.min ex ey)) as Hay.
  destruct (shl_align mx ex (Z.min ex ey)) as [mx' ex'].
  destruct (shl_align my ey (Z.min ex ey)) as [my' ey'].
  destruct Hax as [Hex' Hmx']. destruct Hay as [Hey' Hmy'].
  replace ex' with (Z.min ex ey) in Hmx' by lia.
  replace ey' with (Z.min ex ey) in Hmy' by lia.
  set (ez := Z.min ex ey) in *. simpl fst. simpl cond_Zopp.
  assert (HX : IZR (Zpos mx') * bpow ez = X).
  { unfold X. replace (bpow ex) with (bpow (ex - ez) * bpow ez)
      by (rewrite <- bpow_add; f_equal; lia).
    rewrite Hmx', mult_IZR, bpow_IZR by lia. lra. }
  assert (HY : IZR (Zpos my') * bpow ez = Y).
  { unfold Y. replace (bpow ey) with (bpow (ey - ez) * bpow ez)
      by (rewrite <- bpow_add; f_equal; lia).
    rewrite Hmy', mult_IZR, bpow_IZR by lia. lra. }
  assert (HV : IZR (Zpos my' - Zpos mx') * bpow ez = Y - X).
  { rewrite minus_IZR. lra. }
  pose proof (bpow_pos ez) as Hez. pose proof (bpow_pos j) as Hmin.
  assert (Hz : (0 < Zpos my' - Zpos mx')%Z).
  { apply lt_IZR. rewrite <- HV in Hlo. nra. }
  destruct (Zpos my' - Zpos mx')%Z as [|z|z] eqn:Hzz; try lia.
  replace (Zpos mx' - Zpos my')%Z with (Zneg z) by lia.
  simpl binary_normalize.
  pose proof (digits2_bounds z) as [Hd1 Hd2].
  set (d := Zpos (digits2_pos z)) in *.
  assert (Hd0 : (0 < d)%Z) by (unfold d; lia).
  apply IZR_le in Hd1. apply IZR_lt in Hd2.
  rewrite bpow_IZR in Hd1, Hd2 by lia.
  assert (H1 : (j < d + ez)%Z).
  { apply bpow_inj_lt. rewrite bpow_add. nra. }
  assert (H2 : (d - 1 + ez < k)%Z).
  { apply bpow_inj_lt. rewrite bpow_add. nra. }
  destruct (binary_round_normal true z ez) as (m3 & e3 & Hr & Hd3 & He3 & Herr).
  { fold d. lia. }
  fold d in He3, Herr.
  exists m3, e3. split; [exact Hr|]. split; [exact Hd3|]. split; [lia|].
  rewrite <- HV. eapply Rle_trans; [exact Herr|]. apply bpow_le. lia.
Qed.

(** Two different positive floats with exponents at least -1022 differ
    by a normal amount. *)
Lemma finite_gap (mx my : positive) (ex ey : Z) :
  (-1022 <= ex)%Z -> (-1022 <= ey)%Z ->
  IZR (Zpos mx) * bpow ex < IZR (Zpos my) * bpow ey ->
  bpow (-1022) <= IZR (Zpos my) * bpow ey - IZR (Zpos mx) * bpow ex.
Proof.
  intros Hex Hey Hlt.
  set (ez := Z.min ex ey).
  assert (HX : IZR (Zpos mx) * bpow ex = IZR (Zpos mx * 2 ^ (ex - ez)) * bpow ez).
  { replace (bpow ex) with (bpow (ex - ez) * bpow ez)
      by (rewrite <- bpow_add; f_equal; lia).
    rewrite mult_IZR, bpow_IZR by lia. lra. }
  assert (HY : IZR (Zpos my) * bpow ey = IZR (Zpos my * 2 ^ (ey - ez)) * bpow ez).
  { replace (bpow ey) with (bpow (ey - ez) * bpow ez)
      by (rewrite <- bpow_add; f_equal; lia).
    rewrite mult_IZR, bpow_IZR by lia. lra. }
  rewrite HX, HY in *. pose proof (bpow_pos ez) as Hez.
  assert (Hz : (Zpos mx * 2 ^ (ex - ez) + 1 <= Zpos my * 2 ^ (ey - ez))%Z).
  { assert (Zpos mx * 2 ^ (ex - ez) < Zpos my * 2 ^ (ey - ez))%Z; [|lia].
    apply lt_IZR. nra. }
  apply IZR_le in Hz. rewrite plus_IZR in Hz.
  assert (bpow (-1022) <= bpow ez) by (apply bpow_le; lia). nra.
Qed.

End Arithmetic.

(* ================================================================= *)
(** * Division, and the float of a list length *)

Lemma Zrne_den_1 (z : Z) : Zrne z 1 = z.
Proof. apply Zrne_unique; lia. Qed.

Lemma Zdigits2_pos (m : positive) : Zdigits2 (Zpos m) = Zpos (digits2_pos m).
Proof. reflexivity. Qed.

Section Division.

Local Open Scope R_scope.

(** [x / y] for finite positive operands: normal, and within two units
    in the last place of the quotient. *)
Lemma SFdiv_pos (m1 m2 : positive) (e1 e2 j k : Z) :
  let Q := (IZR (Zpos m1) * bpow e1) / (IZR (Zpos m2) * bpow e2) in
  bpow j <= Q < bpow k -> (-1021 <= j)%Z -> (k <= 1023)%Z ->
  exists m3 e3,
    SFdiv prec emax (S754_finite false m1 e1) (S754_finite false m2 e2)
    = S754_finite false m3 e3 /\
    Zpos (digits2_pos m3) = 53%Z /\ (j - 52 <= e3 <= k - 52)%Z /\
    Rabs (IZR (Zpos m3) * bpow e3 - Q) <= bpow (k - 52).
Proof.
  intros Q [HQj HQk] Hj Hk.
  unfold SFdiv, SFdiv_core_binary. rewrite !Zdigits2_pos.
  pose proof (digits2_bounds m1) as [Hd1a Hd1b].
  pose proof (digits2_bounds m2) as [Hd2a Hd2b].
  set (d1 := Zpos (digits2_pos m1)) in *. set (d2 := Zpos (digits2_pos m2)) in *.
  assert (Hd1 : (0 < d1)%Z) by (unfold d1; lia).
  assert (Hd2 : (0 < d2)%Z) by (unfold d2; lia).
  apply IZR_le in Hd1a, Hd2a. apply IZR_lt in Hd1b, Hd2b.
  rewrite bpow_IZR in Hd1a, Hd1b, Hd2a, Hd2b by lia.
  pose proof (bpow_pos e1) as He1. pose proof (bpow_pos e2) as He2.
  pose proof (bpow_pos (d1 - 1)) as Hp1. pose proof (bpow_pos (d2 - 1)) as Hp2.
  set (M1 := IZR (Zpos m1)) in *. set (M2 := IZR (Zpos m2)) in *.
  assert (HM2 : 0 < M2 * bpow e2) by nra.
  (* the quotient lies within a factor two of 2^(d1 + e1 - d2 - e2) *)
  set (delta := (d1 + e1 - (d2 + e2))%Z).
  assert (HQD : Q * (M2 * bpow e2) = M1 * bpow e1).
  { unfold Q. field. lra. }
  assert (HQhi : Q < bpow (delta + 1)).
  { apply Rmult_lt_reg_r with (M2 * bpow e2); [exact HM2|]. rewrite HQD.
    assert (Heq : bpow (delta + 1) * (bpow (d2 - 1) * bpow e2) = bpow d1 * bpow e1).
    { rewrite <- !bpow_add. f_equal. unfold delta. lia. }
    pose proof (bpow_pos (delta + 1)). pose proof (bpow_pos d1).
    assert (bpow (delta + 1) * (bpow (d2 - 1) * bpow e2)
            <= bpow (delta + 1) * (M2 * bpow e2)).
    { apply Rmult_le_compat_l; [lra | nra]. }
    nra. }
  assert (Hdj : (j <= delta)%Z).
  { assert (bpow j < bpow (delta + 1)) by lra.
    apply bpow_inj_lt in H. lia. }
  rewrite (fexp_normal delta) by lia.
  set (e' := Z.min (delta - 53) (e1 - e2)).
  set (s := (e1 - e2 - e')%Z).
  assert (Hs0 : (0 <= s)%Z) by (unfold s, e'; lia).
  assert (Hs53 : (53 + d2 - d1 <= s)%Z) by (unfold s, e', delta; lia).
  assert (Hm' : match s with
                | Zpos _ => Z.shiftl (Zpos m1) s
                | Z0 => Zpos m1
                | Zneg _ => 0%Z
                end = (Zpos m1 * 2 ^ s)%Z).
  { destruct s as [|p|p] eqn:Hsp; try lia.
    apply Z.shiftl_mul_pow2. lia. }
  rewrite Hm'. clear Hm'.
  set (m' := (Zpos m1 * 2 ^ s)%Z).
  assert (Hdiv : Z.div_eucl m' (Zpos m2) = (m' / Zpos m2, m' mod Zpos m2)%Z).
  { unfold Z.div, Z.modulo. destruct (Z.div_eucl m' (Zpos m2)); reflexivity. }
  rewrite Hdiv. clear Hdiv.
  pose proof (Z.div_mod m' (Zpos m2) ltac:(lia)) as Hdm.
  pose proof (Z.mod_pos_bound m' (Zpos m2) ltac:(lia)) as Hr.
  set (q := (m' / Zpos m2)%Z) in *. set (r := (m' mod Zpos m2)%Z) in *.
  (* the exact quotient in units of 2^e' *)
  assert (HQ : Q * IZR (Zpos m2) = IZR m' * bpow e').
  { unfold Q, m'. fold M1 M2. rewrite mult_IZR, bpow_IZR by lia. fold M1.
    replace (bpow e1) with (bpow s * bpow e' * bpow e2).
    - field. split; lra.
    - rewrite <- !bpow_add. f_equal. unfold s. lia. }
  pose proof (bpow_pos e') as He'.
  assert (HmR : IZR m' = M2 * IZR q + IZR r).
  { rewrite Hdm at 1. rewrite plus_IZR, mult_IZR. reflexivity. }
  assert (Hr0 : 0 <= IZR r) by (apply IZR_le; lia).
  assert (Hr1 : IZR r < M2) by (apply IZR_lt; lia).
  assert (HM2pos : 0 < M2) by (unfold M2; apply IZR_lt; lia).
  assert (HQq : IZR q * bpow e' <= Q < (IZR q + 1) * bpow e').
  { split.
    - apply Rmult_le_reg_r with M2; [exact HM2pos|]. fold M2 in HQ. rewrite HQ, HmR. nra.
    - apply Rmult_lt_reg_r with M2; [exact HM2pos|]. fold M2 in HQ. rewrite HQ, HmR. nra. }
  (* at least 53 digits in the integer quotient *)
  assert (Hq52 : (2 ^ 52 <= q)%Z).
  { apply Z.div_le_lower_bound; [lia|].
    unfold m'.
    assert (Hm1 : (2 ^ (d1 - 1) <= Zpos m1)%Z)
      by (pose proof (digits2_bounds m1) as [H _]; exact H).
    assert (Hm2 : (Zpos m2 < 2 ^ d2)%Z)
      by (pose proof (digits2_bounds m2) as [_ H]; exact H).
    assert (Hpow : (2 ^ d2 * 2 ^ 52 <= 2 ^ (d1 - 1) * 2 ^ s)%Z).
    { rewrite <- !Z.pow_add_r by lia. apply Z.pow_le_mono_r; lia. }
    assert (0 < 2 ^ s)%Z by (apply Z.pow_pos_nonneg; lia).
    assert (0 < 2 ^ (d1 - 1))%Z by (apply Z.pow_pos_nonneg; lia).
    nia. }
  destruct q as [|qp|qp] eqn:Hqp; try lia.
  pose proof (digits2_bounds qp) as [Hqa Hqb].
  set (dq := Zpos (digits2_pos qp)) in *.
  assert (Hdq : (53 <= dq)%Z).
  { destruct (Z_lt_le_dec dq 53) as [Hlt|]; auto.
    assert (2 ^ dq <= 2 ^ 52)%Z by (apply Z.pow_le_mono_r; lia). lia. }
  apply IZR_le in Hqa. apply IZR_lt in Hqb.
  rewrite bpow_IZR in Hqa, Hqb by lia.
  assert (Hqb' : IZR (Zpos qp) + 1 <= bpow dq).
  { rewrite <- bpow_IZR by lia. rewrite <- plus_IZR. apply IZR_le.
    pose proof (digits2_bounds qp) as [_ H]. fold dq in H. lia. }
  assert (Hlo : (j < dq + e')%Z).
  { apply bpow_inj_lt. rewrite bpow_add. nra. }
  assert (Hhi : (dq - 1 + e' < k)%Z).
  { apply bpow_inj_lt. rewrite bpow_add. pose proof (bpow_pos (dq - 1)). nra. }
  destruct (binary_round_aux_normal false qp e'
              (new_location (Zpos m2) r)) as (m3 & e3 & Hres & Hd3 & He3 & Herr).
  { exact Hdq. }
  { fold dq. lia. }
  fold dq in He3, Herr.
  exists m3, e3. split; [exact Hres|]. split; [exact Hd3|]. split; [lia|].
  apply Rabs_le_bounds in Herr.
  assert (Hb1 : bpow (dq + e' - 53) <= bpow (k - 53)) by (apply bpow_le; lia).
  assert (Hb2 : bpow e' <= bpow (dq + e' - 53)) by (apply bpow_le; lia).
  assert (Hb3 : bpow (k - 52) = 2 * bpow (k - 53)).
  { replace (k - 52)%Z with ((k - 53) + 1)%Z by lia. apply bpow_succ. }
  rewrite Hb3. apply Rabs_le. split; nra.
Qed.

End Division.

(* ================================================================= *)
(** * The balances of [compute_balances] in real numbers *)

(** Every finite float is canonical: 53 digits, or fewer at the least
    exponent. *)
Lemma Prim2SF_finite_canonical (x : float) (s : bool) (m : positive) (e : Z) :
  Prim2SF x = S754_finite s m e ->
  e = Z.max (Zpos (digits2_pos m) + e - 53) (-1074) /\ e <= 971.
Proof.
  intros H. pose proof (Prim2SF_valid x) as Hv. rewrite H in Hv.
  change (SpecFloat.bounded prec emax m e = true) in Hv.
  unfold SpecFloat.bounded, canonical_mantissa in Hv.
  apply andb_prop in Hv as [H1 H2].
  apply Z.eqb_eq in H1. apply Z.leb_le in H2.
  unfold fexp, emin, prec, emax in *. lia.
Qed.

Lemma Zpos_of_nat (n : nat) : (0 < n)%nat -> Zpos (Pos.of_nat n) = Z.of_nat n.
Proof.
  intros Hn. destruct n as [|n]; [lia|].
  rewrite <- Pos.of_nat_succ, Zpos_P_of_succ_nat. lia.
Qed.

Lemma nonneg_weaken (lo lo' : Z) (x : float) :
  lo' <= lo -> nonneg lo x -> nonneg lo' x.
Proof.
  intros Hlo [H|(m & e & H & Hd & He)]; [left; exact H|].
  right. exists m, e. repeat split; auto. lia.
Qed.

Lemma SFcompare_refl_finite (s : bool) (m : positive) (e : Z) :
  SFcompare (S754_finite s m e) (S754_finite s m e) = Some Eq.
Proof.
  destruct s; simpl; rewrite Z.compare_refl, Pos.compare_cont_refl; reflexivity.
Qed.

Lemma is_cents_cents (k : Z) : Z.abs k <= cent_bound -> is_cents (cents k) = true.
Proof.
  intros Hk. unfold is_cents. rewrite (to_cents_cents k Hk).
  apply andb_true_intro. split; [|apply Z.leb_le; exact Hk].
  rewrite eqb_spec. unfold SFeqb.
  destruct k as [|p|p].
  - reflexivity.
  - destruct (cents_pos_decode p ltac:(lia)) as (m & e & Hx & _).
    rewrite Hx, SFcompare_refl_finite. reflexivity.
  - destruct (cents_neg_decode p ltac:(lia)) as (m & e & Hx & _).
    rewrite Hx, SFcompare_refl_finite. reflexivity.
Qed.

Lemma dict_set_notin (d : pydict) (k : string) (v : float) :
  ~ In k (keys d) -> dict_set d k v = d ++ [(k, v)].
Proof.
  induction d as [|[k' v'] d IH]; simpl; auto.
  intros H. destruct (String.eqb_spec k' k) as [->|Hne].
  - tauto.
  - f_equal. apply IH. tauto.
Qed.

(** With pairwise distinct names every pair of the [zip] adds an entry. *)
Lemma fill_distinct (share : float) (items : list (string * float)) (d : pydict) :
  NoDup (keys d ++ map fst items) ->
  fill share d items
  = d ++ map (fun it => (fst it, round2 (snd it - share)%float)) items.
Proof.
  revert d; induction items as [|[name amt] items IH]; intros d H.
  - simpl; rewrite app_nil_r; reflexivity.
  - rewrite fill_cons. simpl map in *.
    apply NoDup_remove in H as H'. destruct H' as [H1 H2].
    assert (Hout : ~ In name (keys d)) by (intros Hin; apply H2, in_or_app; auto).
    rewrite dict_set_notin by exact Hout.
    rewrite IH.
    + rewrite <- app_assoc. reflexivity.
    + unfold keys in *. rewrite map_app, <- app_assoc. exact H.
Qed.

Lemma combine_fst (names : list string) (amounts : list float) :
  length names = length amounts -> map fst (combine names amounts) = names.
Proof.
  revert amounts; induction names as [|n names IH]; intros [|a amounts] H;
    simpl in *; try discriminate; auto.
  f_equal; apply IH; lia.
Qed.

Lemma combine_snd_map {B : Type} (f : float -> B)
      (names : list string) (amounts : list float) :
  length names = length amounts ->
  map (fun it => f (snd it)) (combine names amounts) = map f amounts.
Proof.
  revert amounts; induction names as [|n names IH]; intros [|a amounts] H;
    simpl in *; try discriminate; auto.
  f_equal; apply IH; lia.
Qed.

(** The values of the mapping for pairwise distinct names: one rounded
    difference per amount, in input order. *)
Lemma compute_balances_values (names : list string) (amounts : list float) :
  length names = length amounts -> NoDup names ->
  values (snd (compute_balances names amounts))
  = map (fun a => round2 (a - snd (fst (compute_balances names amounts)))%float)
        amounts.
Proof.
  intros Hlen Hnd. rewrite compute_balances_unfold. cbv zeta. simpl snd. simpl fst.
  rewrite fill_distinct by (simpl; rewrite combine_fst; assumption).
  simpl app. unfold values. rewrite map_map. simpl snd.
  set (share := if (0 <? length names)%nat
                then (py_sum amounts / float_of_nat (length names))%float
                else 0%float).
  exact (combine_snd_map (fun a => round2 (a - share)%float) names amounts Hlen).
Qed.

Section Balances.

Local Open Scope R_scope.

(** The length of a list of fewer than 2^53 elements converts exactly. *)
Lemma float_of_nat_decode (n : nat) :
  (0 < n)%nat -> (Z.of_nat n < 2 ^ 53)%Z ->
  exists m e,
    Prim2SF (float_of_nat n) = S754_finite false m e /\
    IZR (Zpos m) * bpow e = IZR (Z.of_nat n).
Proof.
  intros Hn Hlt. destruct n as [|n']; [lia|].
  change (float_of_nat (S n'))
    with (SF2Prim (nearest_binary64 false (Pos.of_nat (S n')) 1)).
  rewrite <- (Zpos_of_nat (S n') Hn) in Hlt |- *.
  set (p := Pos.of_nat (S n')) in *.
  unfold nearest_binary64.
  change (Z.log2 1) with 0%Z. rewrite Z.sub_0_r.
  pose proof (Z.log2_nonneg (Zpos p)) as HL0.
  destruct (Z.log2_spec (Zpos p) ltac:(lia)) as [HL1 HL2].
  set (L := Z.log2 (Zpos p)) in *.
  assert (HL53 : (L < 53)%Z).
  { apply (Z.pow_lt_mono_r_iff 2); lia. }
  rewrite (pow2_of_nonneg L), (pow2_of_nonpos (- L)) by lia.
  destruct (Z.leb_spec (1 * 2 ^ L) (Zpos p * 1)) as [_|Hc]; [|lia].
  replace (Z.max (L - 52) (-1074)) with (L - 52)%Z by lia.
  rewrite (pow2_of_nonpos (L - 52)), (pow2_of_nonneg (- (L - 52))) by lia.
  change (1 * 1)%Z with 1%Z. rewrite Zrne_den_1.
  replace (- (L - 52))%Z with (52 - L)%Z by lia.
  assert (Hpow : (2 ^ L * 2 ^ (52 - L) = 2 ^ 52)%Z).
  { rewrite <- Z.pow_add_r by lia. f_equal. lia. }
  assert (Hp0 : (0 < 2 ^ (52 - L))%Z) by (apply Z.pow_pos_nonneg; lia).
  assert (Hm1 : (2 ^ 52 <= Zpos p * 2 ^ (52 - L))%Z) by nia.
  assert (Hm2 : (Zpos p * 2 ^ (52 - L) < 2 ^ 53)%Z).
  { replace (2 ^ 53)%Z with (2 ^ Z.succ L * 2 ^ (52 - L))%Z
      by (rewrite <- Z.pow_add_r by lia; f_equal; lia).
    apply Z.mul_lt_mono_pos_r; lia. }
  destruct (Z.eqb_spec (Zpos p * 2 ^ (52 - L)) (2 ^ 53)) as [Hc|_]; [lia|].
  destruct (Zpos p * 2 ^ (52 - L))%Z as [|m|m] eqn:Hm; try lia.
  destruct (Z.leb_spec (L - 52) 971) as [_|Hc]; [|lia].
  exists m, (L - 52)%Z.
  assert (Hd : Zpos (digits2_pos m) = 53%Z).
  { apply digits2_unique. simpl Z.sub. lia. }
  rewrite Prim2SF_normal by (auto; lia). split; [reflexivity|].
  rewrite <- Hm, mult_IZR, bpow_IZR by lia.
  rewrite Rmult_assoc, <- bpow_add.
  replace (52 - L + (L - 52))%Z with 0%Z by lia. rewrite bpow_0. lra.
Qed.

Lemma bpow_52 : bpow 52 = 4503599627370496.
Proof. rewrite <- bpow_IZR by lia. reflexivity. Qed.

(** [round(x, 2)] of a finite [x] of magnitude at most 10^12 is a whole
    number of cents, within half a cent of [x]. *)
Lemma round2_whole (x : float) (s : bool) (m : positive) (e : Z) :
  Prim2SF x = S754_finite s m e ->
  IZR (Zpos m) * bpow e <= 1000000000000 ->
  is_cents (round2 x) = true /\
  Rabs (IZR (to_cents (round2 x)) - 100 * F2R x) <= / 2.
Proof.
  intros Hx Hv.
  destruct (Prim2SF_finite_canonical x s m e Hx) as [Hcan He971].
  assert (He : (e < 0)%Z).
  { destruct (Z.lt_ge_cases e 0) as [|He0]; [assumption|exfalso].
    assert (Hd : Zpos (digits2_pos m) = 53%Z) by lia.
    pose proof (normal_value_bounds m e Hd) as [Hlo _].
    assert (bpow 52 <= bpow (52 + e)) by (apply bpow_le; lia).
    rewrite bpow_52 in *. lra. }
  set (V := IZR (Zpos m) * bpow e) in *.
  assert (HV0 : 0 < V).
  { unfold V. pose proof (bpow_pos e).
    assert (0 < IZR (Zpos m)) by (apply IZR_lt; lia). nra. }
  assert (Hden : (0 < 2 ^ (- e))%Z) by (apply Z.pow_pos_nonneg; lia).
  assert (HD : 0 < IZR (2 ^ (- e))) by (apply IZR_lt; exact Hden).
  assert (Hx100 : 100 * V * IZR (2 ^ (- e)) = IZR (100 * Zpos m)).
  { unfold V. rewrite mult_IZR, bpow_IZR by lia.
    rewrite !Rmult_assoc, <- bpow_add.
    replace (e + - e)%Z with 0%Z by lia. rewrite bpow_0. lra. }
  pose proof (Zrne_R _ _ _ Hden Hx100) as Hn.
  assert (Hrange : (0 <= Zrne (100 * Zpos m) (2 ^ (- e)) <= cent_bound)%Z).
  { apply Zrne_between; [exact Hden|]. split; [lia|].
    apply le_IZR. rewrite <- Hx100, mult_IZR.
    change (IZR cent_bound) with 100000000000000. nra. }
  assert (HF : F2R x = IZR (cond_Zopp s 1) * V).
  { unfold F2R. rewrite Hx. unfold V. destruct s; simpl; [rewrite IZR_neg|]; lra. }
  unfold round2. rewrite Hx. destruct (Z.leb_spec 0 e) as [|_]; [lia|].
  destruct (Zrne (100 * Zpos m) (2 ^ (- e))) as [|p|p] eqn:En; [ | |lia].
  - assert (Hz : Prim2SF (SF2Prim (S754_zero s)) = S754_zero s)
      by (apply Prim2SF_SF2Prim; reflexivity).
    split; [destruct s; vm_compute; reflexivity|].
    unfold to_cents. rewrite Hz, HF.
    apply Rabs_le_bounds in Hn. apply Rabs_le.
    destruct s; simpl; lra.
  - assert (Hc : SF2Prim (nearest_binary64 s p 100) = cents (cond_Zopp s (Zpos p)))
      by (destruct s; reflexivity).
    rewrite Hc.
    assert (Hk : (Z.abs (cond_Zopp s (Zpos p)) <= cent_bound)%Z)
      by (destruct s; simpl; lia).
    split; [apply is_cents_cents; exact Hk|].
    rewrite (to_cents_cents _ Hk), HF.
    apply Rabs_le_bounds in Hn. apply Rabs_le.
    destruct s; simpl cond_Zopp; [rewrite IZR_neg|]; lra.
Qed.

Lemma round2_zero (x : float) (s : bool) :
  Prim2SF x = S754_zero s ->
  is_cents (round2 x) = true /\ to_cents (round2 x) = 0%Z.
Proof.
  intros Hx. assert (Hr : round2 x = x) by (unfold round2; rewrite Hx; reflexivity).
  rewrite Hr. assert (Hxs : x = SF2Prim (S754_zero s)).
  { apply Prim2SF_inj. rewrite Hx. symmetry. apply Prim2SF_SF2Prim. reflexivity. }
  rewrite Hxs. destruct s; split; vm_compute; reflexivity.
Qed.

(** A non-negative whole-cent amount, as a real number. *)
Lemma amount_nonneg (a : float) :
  is_cents a = true -> (0 <= to_cents a)%Z ->
  nonneg (-59) a /\ Rabs (F2R a - IZR (to_cents a) / 100) <= bpow (-13).
Proof.
  intros Hc H0. destruct (is_cents_cases a Hc) as [[s Hs]|(k & Hk0 & Hk & ->)].
  - split; [left; eauto|]. rewrite (F2R_zero a s Hs). unfold to_cents. rewrite Hs.
    replace (0 - 0 / 100) with 0 by lra. rewrite Rabs_R0. left; apply bpow_pos.
  - rewrite to_cents_cents in * by exact Hk. destruct k as [|p|p]; try lia.
    destruct (cents_pos_decode p ltac:(lia)) as (m & e & Hx & Hd & He & Herr).
    split; [right; exists m, e; repeat split; auto; lia|].
    rewrite (F2R_finite_pos _ m e Hx).
    eapply Rle_trans; [exact Herr|apply bpow_le; lia].
Qed.

Lemma Rsum_nonneg (lo : Z) (l : list float) : Forall (nonneg lo) l -> 0 <= Rsum l.
Proof.
  induction 1 as [|a l Ha _ IH]; simpl; [lra|].
  pose proof (nonneg_ge_0 lo a Ha). lra.
Qed.

(** [x + y] on non-negative floats below 2^40. *)
Lemma add_nonneg (lo : Z) (x y : float) :
  (-1074 <= lo)%Z -> nonneg lo x -> nonneg lo y ->
  F2R x + F2R y < bpow 40 ->
  nonneg lo (x + y)%float /\
  Rabs (F2R (x + y)%float - (F2R x + F2R y)) <= bpow (-13).
Proof.
  intros Hlo Hx Hy Hlt.
  pose proof (add_spec x y) as Hspec. unfold SF64add in Hspec.
  pose proof (bpow_pos (-13)) as H13.
  destruct Hx as [[sx Hx]|(mx & ex & Hx & Hdx & Hex)];
    destruct Hy as [[sy Hy]|(my & ey & Hy & Hdy & Hey)].
  - assert (Hz : exists s, Prim2SF (x + y)%float = S754_zero s).
    { rewrite Hspec, Hx, Hy. destruct sx, sy; simpl; eauto. }
    destruct Hz as [s Hz]. split; [left; eauto|].
    rewrite (F2R_zero _ _ Hz), (F2R_zero _ _ Hx), (F2R_zero _ _ Hy).
    replace (0 - (0 + 0)) with 0 by lra. rewrite Rabs_R0. lra.
  - assert (Hz : Prim2SF (x + y)%float = S754_finite false my ey).
    { rewrite Hspec, Hx, Hy. reflexivity. }
    split; [right; exists my, ey; auto|].
    rewrite (F2R_finite_pos _ _ _ Hz), (F2R_zero _ _ Hx), (F2R_finite_pos _ _ _ Hy).
    replace (_ - _) with 0 by lra. rewrite Rabs_R0. lra.
  - assert (Hz : Prim2SF (x + y)%float = S754_finite false mx ex).
    { rewrite Hspec, Hx, Hy. reflexivity. }
    split; [right; exists mx, ex; auto|].
    rewrite (F2R_finite_pos _ _ _ Hz), (F2R_zero _ _ Hy), (F2R_finite_pos _ _ _ Hx).
    replace (_ - _) with 0 by lra. rewrite Rabs_R0. lra.
  - rewrite (F2R_finite_pos _ _ _ Hx), (F2R_finite_pos _ _ _ Hy) in *.
    pose proof (normal_value_bounds mx ex Hdx) as [Hx1 _].
    pose proof (normal_value_bounds my ey Hdy) as [Hy1 _].
    assert (Hb : bpow (52 + lo) <= bpow (52 + ex)) by (apply bpow_le; lia).
    pose proof (bpow_pos (52 + ey)) as Hp.
    destruct (SFadd_pos mx my ex ey (52 + lo) 40) as (m3 & e3 & Hs & Hd3 & He3 & Herr).
    { split; lra. }
    { lia. }
    { lia. }
    assert (Hz : Prim2SF (x + y)%float = S754_finite false m3 e3).
    { rewrite Hspec, Hx, Hy. exact Hs. }
    split; [right; exists m3, e3; repeat split; auto; lia|].
    rewrite (F2R_finite_pos _ _ _ Hz). exact Herr.
Qed.

(** [sum] of non-negative floats: each addition is off by at most 2^-13
    while the sum stays below 2^40. *)
Lemma fold_add_bound (lo : Z) (l : list float) :
  (-1074 <= lo)%Z ->
  forall acc,
    nonneg lo acc -> Forall (nonneg lo) l ->
    F2R acc + Rsum l + INR (length l) * bpow (-13) < bpow 40 ->
    nonneg lo (fold_left PrimFloat.add l acc) /\
    Rabs (F2R (fold_left PrimFloat.add l acc) - (F2R acc + Rsum l))
    <= INR (length l) * bpow (-13).
Proof.
  intros Hlo. pose proof (bpow_pos (-13)) as H13.
  induction l as [|a l IH]; intros acc Hacc Hl Hlt.
  - simpl. split; [exact Hacc|].
    replace (_ - _) with 0 by lra. rewrite Rabs_R0. lra.
  - inversion Hl as [|? ? Ha Hl']; subst.
    simpl fold_left. simpl Rsum in *. simpl length in *. rewrite S_INR in *.
    pose proof (Rsum_nonneg lo l Hl') as Hs0.
    pose proof (pos_INR (length l)) as Hn0.
    assert (Hn13 : 0 <= INR (length l) * bpow (-13)) by nra.
    destruct (add_nonneg lo acc a Hlo Hacc Ha) as [Hacc' Herr]; [lra|].
    apply Rabs_le_bounds in Herr.
    destruct (IH (acc + a)%float Hacc' Hl') as [Hres Hierr]; [lra|].
    split; [exact Hres|].
    apply Rabs_le_bounds in Hierr. apply Rabs_le. lra.
Qed.

Lemma bpow_20 : bpow 20 = 1048576.
Proof. rewrite <- bpow_IZR by lia. reflexivity. Qed.

(** The equal share [total / n] of a non-negative total below 2^40 among
    at most 2^20 participants. *)
Lemma share_bound (total : float) (n : nat) :
  nonneg (-59) total -> F2R total < bpow 40 ->
  (0 < n)%nat -> (Z.of_nat n <= 2 ^ 20)%Z ->
  nonneg (-79) (total / float_of_nat n)%float /\
  Rabs (F2R (total / float_of_nat n)%float - F2R total / IZR (Z.of_nat n))
  <= bpow (-12).
Proof.
  intros Ht Hlt Hn Hn20.
  pose proof (div_spec total (float_of_nat n)) as Hspec. unfold SF64div in Hspec.
  destruct (float_of_nat_decode n Hn ltac:(lia)) as (mn & en & Hfn & HnV).
  assert (HN1 : 1 <= IZR (Z.of_nat n)) by (apply IZR_le; lia).
  assert (HN2 : IZR (Z.of_nat n) <= 1048576) by (apply IZR_le; lia).
  set (N := IZR (Z.of_nat n)) in *.
  pose proof (bpow_pos (-12)) as H12.
  destruct Ht as [[st Ht]|(mt & et & Ht & Hdt & Het)].
  - assert (Hz : Prim2SF (total / float_of_nat n)%float = S754_zero (xorb st false)).
    { rewrite Hspec, Ht, Hfn. reflexivity. }
    split; [left; eauto|].
    rewrite (F2R_zero _ _ Hz), (F2R_zero _ _ Ht).
    replace (0 - 0 / N) with 0 by (field; lra). rewrite Rabs_R0. lra.
  - rewrite (F2R_finite_pos _ _ _ Ht) in *.
    pose proof (normal_value_bounds mt et Hdt) as [Ht1 _].
    assert (Hb : bpow (-7) <= bpow (52 + et)) by (apply bpow_le; lia).
    set (T := IZR (Zpos mt) * bpow et) in *.
    set (Q := T / N).
    assert (HQN : Q * N = T) by (unfold Q; field; lra).
    pose proof (bpow_pos (-7)) as H7. pose proof (bpow_pos (-27)) as H27.
    assert (H727 : bpow (-27) * 1048576 = bpow (-7)).
    { rewrite <- bpow_20, <- bpow_add. reflexivity. }
    assert (HQ0 : 0 < Q) by (unfold Q; apply Rdiv_lt_0_compat; lra).
    assert (HQlo : bpow (-27) <= Q).
    { destruct (Rle_lt_dec (bpow (-27)) Q) as [|Hc]; [assumption|exfalso].
      assert (Q * N < bpow (-27) * N) by (apply Rmult_lt_compat_r; lra).
      assert (bpow (-27) * N <= bpow (-27) * 1048576)
        by (apply Rmult_le_compat_l; lra).
      lra. }
    assert (HQhi : Q < bpow 40).
    { assert (Q * 1 <= Q * N) by (apply Rmult_le_compat_l; lra). lra. }
    destruct (SFdiv_pos mt mn et en (-27) 40) as (m3 & e3 & Hs & Hd3 & He3 & Herr).
    { rewrite HnV. fold T N Q. split; assumption. }
    { lia. }
    { lia. }
    rewrite HnV in Herr. fold T N Q in Herr.
    assert (Hz : Prim2SF (total / float_of_nat n)%float = S754_finite false m3 e3).
    { rewrite Hspec, Ht, Hfn. exact Hs. }
    split; [right; exists m3, e3; repeat split; auto; lia|].
    rewrite (F2R_finite_pos _ _ _ Hz). exact Herr.
Qed.

(** [x - y] for finite positive operands of the same value. *)
Lemma SFsub_eq (mx my : positive) (ex ey : Z) :
  IZR (Zpos mx) * bpow ex = IZR (Zpos my) * bpow ey ->
  SFsub prec emax (S754_finite false mx ex) (S754_finite false my ey)
  = S754_zero false.
Proof.
  intros HXY. unfold SFsub.
  pose proof (shl_align_spec mx ex (Z.min ex ey)) as Hax.
  pose proof (shl_align_spec my ey (Z.min ex ey)) as Hay.
  destruct (shl_align mx ex (Z.min ex ey)) as [mx' ex'].
  destruct (shl_align my ey (Z.min ex ey)) as [my' ey'].
  destruct Hax as [Hex' Hmx']. destruct Hay as [Hey' Hmy'].
  replace ex' with (Z.min ex ey) in Hmx' by lia.
  replace ey' with (Z.min ex ey) in Hmy' by lia.
  set (ez := Z.min ex ey) in *. simpl fst. simpl cond_Zopp.
  assert (HX : IZR (Zpos mx') * bpow ez = IZR (Zpos mx) * bpow ex).
  { replace (bpow ex) with (bpow (ex - ez) * bpow ez)
      by (rewrite <- bpow_add; f_equal; lia).
    rewrite Hmx', mult_IZR, bpow_IZR by lia. lra. }
  assert (HY : IZR (Zpos my') * bpow ez = IZR (Zpos my) * bpow ey).
  { replace (bpow ey) with (bpow (ey - ez) * bpow ez)
      by (rewrite <- bpow_add; f_equal; lia).
    rewrite Hmy', mult_IZR, bpow_IZR by lia. lra. }
  pose proof (bpow_pos ez) as Hez.
  assert (Heq : Zpos mx' = Zpos my').
  { apply eq_IZR. apply (Rmult_eq_reg_r (bpow ez)); lra. }
  rewrite Heq, Z.sub_diag. reflexivity.
Qed.

(** [x - y] on non-negative floats below 2^40: a zero or a finite float,
    within 2^-13 of the difference. *)
Lemma sub_nonneg (lo : Z) (x y : float) :
  (-1022 <= lo)%Z -> nonneg lo x -> nonneg lo y ->
  F2R x < bpow 40 -> F2R y < bpow 40 ->
  Rabs (F2R (x - y)%float - (F2R x - F2R y)) <= bpow (-13) /\
  ((exists s, Prim2SF (x - y)%float = S754_zero s) \/
   (exists s m e, Prim2SF (x - y)%float = S754_finite s m e)).
Proof.
  intros Hlo Hx Hy Hxlt Hylt.
  pose proof (sub_spec x y) as Hspec. unfold SF64sub in Hspec.
  pose proof (bpow_pos (-13)) as H13.
  destruct Hx as [[sx Hx]|(mx & ex & Hx & Hdx & Hex)];
    destruct Hy as [[sy Hy]|(my & ey & Hy & Hdy & Hey)].
  - assert (Hz : exists s, Prim2SF (x - y)%float = S754_zero s).
    { rewrite Hspec, Hx, Hy. destruct sx, sy; simpl; eauto. }
    destruct Hz as [s Hz]. split; [|left; eauto].
    rewrite (F2R_zero _ _ Hz), (F2R_zero _ _ Hx), (F2R_zero _ _ Hy).
    replace (0 - (0 - 0)) with 0 by lra. rewrite Rabs_R0. lra.
  - assert (Hz : Prim2SF (x - y)%float = S754_finite true my ey).
    { rewrite Hspec, Hx, Hy. reflexivity. }
    split; [|right; eauto].
    rewrite (F2R_finite_neg _ _ _ Hz), (F2R_zero _ _ Hx), (F2R_finite_pos _ _ _ Hy).
    replace (_ - _) with 0 by lra. rewrite Rabs_R0. lra.
  - assert (Hz : Prim2SF (x - y)%float = S754_finite false mx ex).
    { rewrite Hspec, Hx, Hy. reflexivity. }
    split; [|right; eauto].
    rewrite (F2R_finite_pos _ _ _ Hz), (F2R_zero _ _ Hy), (F2R_finite_pos _ _ _ Hx).
    replace (_ - _) with 0 by lra. rewrite Rabs_R0. lra.
  - rewrite (F2R_finite_pos _ _ _ Hx), (F2R_finite_pos _ _ _ Hy) in *.
    pose proof (normal_value_bounds mx ex Hdx) as [Hx1 _].
    pose proof (normal_value_bounds my ey Hdy) as [Hy1 _].
    pose proof (bpow_pos (52 + ex)) as Hpx. pose proof (bpow_pos (52 + ey)) as Hpy.
    destruct (Rtotal_order (IZR (Zpos mx) * bpow ex) (IZR (Zpos my) * bpow ey))
      as [Hlt|[Heq|Hgt]].
    + pose proof (finite_gap mx my ex ey ltac:(lia) ltac:(lia) Hlt) as Hgap.
      destruct (SFsub_neg mx my ex ey (-1022) 40) as (m3 & e3 & Hs & Hd3 & He3 & Herr).
      { split; lra. }
      { lia. }
      { lia. }
      assert (Hz : Prim2SF (x - y)%float = S754_finite true m3 e3).
      { rewrite Hspec, Hx, Hy. exact Hs. }
      split; [|right; eauto].
      rewrite (F2R_finite_neg _ _ _ Hz).
      change (bpow (40 - 53)) with (bpow (-13)) in Herr.
      apply Rabs_le_bounds in Herr. apply Rabs_le. lra.
    + assert (Hz : Prim2SF (x - y)%float = S754_zero false).
      { rewrite Hspec, Hx, Hy. apply SFsub_eq. exact Heq. }
      split; [|left; eauto].
      rewrite (F2R_zero _ _ Hz), Heq.
      replace (_ - _) with 0 by lra. rewrite Rabs_R0. lra.
    + pose proof (finite_gap my mx ey ex ltac:(lia) ltac:(lia) Hgt) as Hgap.
      destruct (SFsub_pos mx my ex ey (-1022) 40) as (m3 & e3 & Hs & Hd3 & He3 & Herr).
      { split; lra. }
      { lia. }
      { lia. }
      assert (Hz : Prim2SF (x - y)%float = S754_finite false m3 e3).
      { rewrite Hspec, Hx, Hy. exact Hs. }
      split; [|right; eauto].
      rewrite (F2R_finite_pos _ _ _ Hz). exact Herr.
Qed.

(** A balance [round(amt - share, 2)]: a whole number of cents, within
    half a cent and a rounding error of [amt - share]. *)
Lemma round2_sub_whole (lo : Z) (x y : float) :
  (-1022 <= lo)%Z -> nonneg lo x -> nonneg lo y ->
  F2R x <= 500000000000 -> F2R y <= 500000000000 ->
  is_cents (round2 (x - y)%float) = true /\
  Rabs (IZR (to_cents (round2 (x - y)%float)) - 100 * (F2R x - F2R y))
  <= / 2 + 100 * bpow (-13).
Proof.
  intros Hlo Hx Hy Hxb Hyb.
  pose proof (nonneg_ge_0 lo x Hx) as Hx0. pose proof (nonneg_ge_0 lo y Hy) as Hy0.
  pose proof bpow_40 as H40. pose proof bpow_m13 as H13.
  destruct (sub_nonneg lo x y Hlo Hx Hy) as [Herr Hcases]; try lra.
  rewrite H13 in *. apply Rabs_le_bounds in Herr.
  destruct Hcases as [[s Hz]|(s & m & e & Hz)].
  - destruct (round2_zero _ s Hz) as [Hc Ht]. split; [exact Hc|].
    rewrite Ht. rewrite (F2R_zero _ _ Hz) in Herr. apply Rabs_le. lra.
  - assert (HV : IZR (Zpos m) * bpow e <= 1000000000000).
    { destruct s.
      - rewrite (F2R_finite_neg _ _ _ Hz) in Herr. lra.
      - rewrite (F2R_finite_pos _ _ _ Hz) in Herr. lra. }
    destruct (round2_whole _ s m e Hz HV) as [Hc Hn]. split; [exact Hc|].
    apply Rabs_le_bounds in Hn. apply Rabs_le. lra.
Qed.

(** Non-negative whole-cent amounts and their exact sum. *)
Lemma amounts_sum (l : list float) :
  Forall (fun a => is_cents a = true /\ (0 <= to_cents a)%Z) l ->
  Forall (nonneg (-59)) l /\
  Forall (fun a => F2R a <= Rsum l) l /\
  Rabs (Rsum l - IZR (cents_sum l) / 100) <= INR (length l) * bpow (-13).
Proof.
  induction 1 as [|a l [Hc H0] _ (IH1 & IH2 & IH3)].
  - split; [constructor|]. split; [constructor|].
    simpl Rsum. simpl cents_sum. simpl length. simpl INR.
    replace (0 - 0 / 100) with 0 by lra. rewrite Rabs_R0. lra.
  - destruct (amount_nonneg a Hc H0) as [Ha Herr].
    pose proof (Rsum_nonneg _ _ IH1) as Hs0.
    pose proof (nonneg_ge_0 _ _ Ha) as Ha0.
    simpl Rsum. simpl cents_sum. simpl length. rewrite S_INR, plus_IZR.
    split; [constructor; assumption|]. split.
    + constructor; [lra|]. eapply Forall_impl; [|exact IH2].
      simpl. intros b Hb. lra.
    + apply Rabs_le_bounds in Herr, IH3. apply Rabs_le. lra.
Qed.


End Balances.

Local Open Scope string_scope.

(* ----------------------------------------------------------------- *)
(** ** Claims settled on the structure of the code *)

(** C3.  Every transaction that [settle_debts] returns has an amount
    strictly greater than zero, and its payer differs from its receiver.
    The mapping is a dictionary: its keys are pairwise distinct. *)
Theorem settle_debts_positive_distinct (b : pydict) (fuel : nat)
        (ts : list transaction) :
  NoDup (keys b) ->
  settle_debts fuel b = Some ts ->
  Forall (fun '(payer, receiver, amount) =>
            (0 <? amount)%float = true /\ payer <> receiver) ts.
Proof.
  intros Hnd Hrun. unfold settle_debts, settle_run in Hrun.
  destruct (while_loop fuel (settle_init b)) as [st|] eqn:Hloop; [|discriminate].
  injection Hrun as <-.
  apply while_loop_passes in Hloop as [-> _].
  destruct (settle_init_fields b) as (_ & Hc & Hd & Ht & _).
  pose proof (passes_transactions fuel (settle_init b)) as Hok.
  rewrite Ht, Hc, Hd in Hok. specialize (Hok (Forall_nil _)).
  eapply Forall_impl; [|exact Hok].
  intros [[payer receiver] amount] (Hp & Hr & Hpos). split; auto.
  intros <-.
  apply -> In_names_sort_desc in Hp. apply -> In_names_sort_desc in Hr.
  exact (classify_names_disjoint b payer Hnd Hr Hp).
Qed.

Lemma settle_debts_positive_distinct_witness :
  Forall (fun '(payer, receiver, amount) =>
            (0 <? amount)%float = true /\ payer <> receiver)
         [("B", "A", 25%float); ("C", "A", 25%float); ("D", "A", 25%float)].
Proof.
  apply (settle_debts_positive_distinct balances_abcd 3).
  - repeat constructor; simpl; intuition discriminate.
  - vm_compute; reflexivity.
Defined.




(** C9.  For names A, B, C, D and amounts 100, 0, 0, 0 the share is 25,
    the balances are A: 75.0, B: -25.0, C: -25.0, D: -25.0, and
    [settle_debts] returns (B, A, 25.0), (C, A, 25.0), (D, A, 25.0) in
    that order; debtors that tie keep their insertion order, as the sort
    leaves any run of equal amounts in place. *)
Theorem scenario_abcd :
  compute_balances names_abcd amounts_abcd = (100%float, 25%float, balances_abcd) /\
  settle_debts 3 balances_abcd
  = Some [("B", "A", 25%float); ("C", "A", 25%float); ("D", "A", 25%float)] /\
  debtors (settle_init balances_abcd)
  = [("B", 25%float); ("C", 25%float); ("D", 25%float)] /\
  (forall v l, Forall (fun x : entry => snd x = v) l -> sort_desc l = l).
Proof.
  split; [vm_compute; reflexivity|].
  split; [vm_compute; reflexivity|].
  split; [vm_compute; reflexivity|].
  exact sort_desc_ties.
Qed.

(* ----------------------------------------------------------------- *)
(** ** [compute_balances]: total, share and mapping *)

Lemma names_of_combine (names : list string) (amounts : list float) :
  map fst (combine names amounts) = firstn (length amounts) names.
Proof.
  revert amounts; induction names as [|n names IH]; intros [|a amounts];
    simpl; auto.
  f_equal; apply IH.
Qed.


(** C6, amended.  [compute_balances] returns the sum of the amounts as
    total, [total / N] as share when there are [N > 0] names and [0] when
    there is none, and a mapping that sends a name to
    [round(amount_i - share, 2)] for the last index [i] carrying that name
    (every index when the names are pairwise distinct, and then the keys are
    the names in order). *)
Theorem compute_balances_total_share_mapping
        (names : list string) (amounts : list float) :
  let '(total, share, b) := compute_balances names amounts in
  total = py_sum amounts /\
  ((0 < length names)%nat ->
   share = (total / float_of_nat (length names))%float) /\
  (length names = O -> share = 0%float) /\
  (forall i name amt,
      nth_error names i = Some name ->
      nth_error amounts i = Some amt ->
      (forall k, (i < k)%nat -> nth_error names k <> Some name) ->
      dict_get b name = Some (round2 (amt - share)%float)) /\
  (length names = length amounts -> NoDup names -> keys b = names).
Proof.
  rewrite compute_balances_unfold. cbv zeta.
  split; [reflexivity|].
  split; [intros H; apply Nat.ltb_lt in H; rewrite H; reflexivity|].
  split; [intros ->; reflexivity|].
  split.
  - intros i name amt Hn Ha Hlast.
    destruct (combine_split_at names amounts i name amt Hn Ha)
      as [before [after [-> Hafter]]].
    apply fill_get_last. intros Hin.
    destruct (Hafter name Hin) as [k [Hk1 Hk2]]. exact (Hlast k Hk1 Hk2).
  - intros Hlen Hnd.
    rewrite fill_keys_distinct; simpl; rewrite names_of_combine, <- Hlen, firstn_all;
      auto.
Qed.

Lemma compute_balances_total_share_mapping_witness :
  dict_get balances_abcd "B" = Some (round2 (0 - 25)%float) /\
  keys balances_abcd = names_abcd.
Proof.
  pose proof (compute_balances_total_share_mapping names_abcd amounts_abcd) as H.
  replace (compute_balances names_abcd amounts_abcd)
    with (100%float, 25%float, balances_abcd) in H by (vm_compute; reflexivity).
  destruct H as (_ & _ & _ & Hget & Hkeys). split.
  - apply (Hget 1%nat "B" 0%float); try reflexivity.
    intros [|[|[|[|[|k]]]]] Hk; simpl; try lia; discriminate.
  - apply Hkeys; [reflexivity|].
    unfold names_abcd. repeat constructor; simpl; intuition discriminate.
Defined.

(** C6 as stated fails when a name occurs twice: the entry of index 0 is
    overwritten by the one of index 1. *)
Lemma compute_balances_duplicate_name :
  let '(total, share, b) := compute_balances ["A"; "A"] [10; 0]%float in
  share = 5%float /\
  dict_get b "A" = Some (-5)%float /\
  round2 (10 - share)%float = 5%float /\
  dict_get b "A" <> Some (round2 (10 - share)%float).
Proof.
  vm_compute. repeat split; try reflexivity.
  intros H.
  apply (f_equal (fun o => match o with
                           | Some v => (v <? 0)%float
                           | None => false
                           end)) in H.
  vm_compute in H. discriminate.
Qed.



(* ----------------------------------------------------------------- *)
(** ** Inputs on which a stated property fails *)

(** C1 as stated fails.  One person pays 1 for seven: the balances are
    0.86 and six times -0.14, the six payments of 0.14 settle the debtors,
    and A is left with a credit of 0.02, which no transaction covers. *)
Lemma seven_way_split_leaves_two_cents :
  compute_balances names_seven amounts_seven
  = (1%float, 0.14285714285714285%float, balances_seven) /\
  settle_debts 6 balances_seven
  = Some [("B", "A", 0.14%float); ("C", "A", 0.14%float); ("D", "A", 0.14%float);
          ("E", "A", 0.14%float); ("F", "A", 0.14%float); ("G", "A", 0.14%float)] /\
  exists ts left,
    settle_debts 6 balances_seven = Some ts /\
    dict_get (apply_transactions balances_seven ts) "A" = Some left /\
    (0.0199 <? left)%float = true /\
    within_cent left = false.
Proof.
  split; [vm_compute; reflexivity|].
  split; [vm_compute; reflexivity|].
  eexists; eexists.
  split; [vm_compute; reflexivity|].
  split; [vm_compute; reflexivity|].
  split; vm_compute; reflexivity.
Qed.


(** C4 as stated fails in two ways.  With no creditor and no debtor the
    bound is -1, below the length of the empty list.  And a balance that is
    not a whole number of cents can take two payments: 0.125 rounds to
    0.12, the remainder 0.125 - 0.12 rounds to 0.01, which is not below
    0.01, so the same debtor pays the same creditor a second time. *)
Lemma transaction_count_exceeds_bound :
  (settle_debts 0 [] = Some [] /\
   ~ (Z.of_nat (length (@nil transaction))
      <= Z.of_nat (num_creditors []) + Z.of_nat (num_debtors []) - 1)) /\
  (settle_debts 2 [("A", 1); ("B", -0.125)]%float
   = Some [("B", "A", 0.12%float); ("B", "A", 0.01%float)] /\
   num_creditors [("A", 1); ("B", -0.125)]%float = 1%nat /\
   num_debtors [("A", 1); ("B", -0.125)]%float = 1%nat /\
   ~ (Z.of_nat (length [("B", "A", 0.12%float); ("B", "A", 0.01%float)])
      <= Z.of_nat 1 + Z.of_nat 1 - 1)).
Proof.
  split; split; try (vm_compute; reflexivity).
  - vm_compute. intros H; apply H; reflexivity.
  - split; [vm_compute; reflexivity|].
    split; [vm_compute; reflexivity|].
    vm_compute. intros H; apply H; reflexivity.
Qed.


(* ----------------------------------------------------------------- *)
(** ** Claims settled on whole-cent balances *)

Lemma keys_unique (b : pydict) (name : string) (v v' : float) :
  NoDup (keys b) -> In (name, v) b -> In (name, v') b -> v = v'.
Proof.
  induction b as [|[k w] b IH]; simpl; [tauto|].
  intros Hnd H1 H2. inversion Hnd as [|? ? Hout Hnd']; subst.
  destruct H1 as [H1|H1], H2 as [H2|H2].
  - congruence.
  - injection H1 as -> ->. exfalso. apply Hout.
    apply (in_map fst) in H2. exact H2.
  - injection H2 as -> ->. exfalso. apply Hout.
    apply (in_map fst) in H1. exact H1.
  - apply IH; assumption.
Qed.

(** Payers are debtors of the mapping and receivers are creditors. *)
Lemma settle_debts_parties (b : pydict) (fuel : nat) (ts : list transaction) :
  settle_debts fuel b = Some ts ->
  Forall (fun t => In (fst (fst t)) (map fst (filter is_debtor b)) /\
                   In (snd (fst t)) (map fst (filter is_creditor b))) ts.
Proof.
  intros Hrun. unfold settle_debts, settle_run in Hrun.
  destruct (while_loop fuel (settle_init b)) as [st|] eqn:Hloop; [|discriminate].
  injection Hrun as <-.
  apply while_loop_passes in Hloop as [-> _].
  destruct (settle_init_fields b) as (_ & Hc & Hd & Ht & _).
  pose proof (passes_transactions fuel (settle_init b)) as Hok.
  rewrite Ht, Hc, Hd in Hok. specialize (Hok (Forall_nil _)).
  eapply Forall_impl; [|exact Hok].
  intros [[payer receiver] amount] (Hp & Hr & _). simpl.
  apply -> In_names_sort_desc in Hp. apply -> In_names_sort_desc in Hr.
  rewrite classify_filters in Hp, Hr. simpl in Hp, Hr.
  rewrite map_map in Hp. simpl in Hp. auto.
Qed.

Lemma not_debtor_name (b : pydict) (name : string) (bal : float) :
  NoDup (keys b) -> In (name, bal) b -> is_debtor (name, bal) = false ->
  ~ In name (map fst (filter is_debtor b)).
Proof.
  intros Hnd Hin Hd H. apply in_map_iff in H as [[n v] [Hn Hf]]. simpl in Hn. subst n.
  apply filter_In in Hf as [Hin' Hd'].
  rewrite (keys_unique b name v bal Hnd Hin' Hin) in Hd'. congruence.
Qed.

Lemma not_creditor_name (b : pydict) (name : string) (bal : float) :
  NoDup (keys b) -> In (name, bal) b -> is_creditor (name, bal) = false ->
  ~ In name (map fst (filter is_creditor b)).
Proof.
  intros Hnd Hin Hd H. apply in_map_iff in H as [[n v] [Hn Hf]]. simpl in Hn. subst n.
  apply filter_In in Hf as [Hin' Hd'].
  rewrite (keys_unique b name v bal Hnd Hin' Hin) in Hd'. congruence.
Qed.

Lemma all_cents_seven : all_cents balances_seven.
Proof. repeat constructor; vm_compute; reflexivity. Qed.

Lemma all_cents_abcd : all_cents balances_abcd.
Proof. repeat constructor; vm_compute; reflexivity. Qed.

(** C1, amended.  When the balances that [compute_balances] returns are
    whole cents of magnitude at most 10^12, [settle_debts] returns, and
    applying its transactions in exact cents (each amount taken off the
    payer's debt and off the receiver's credit) never overdraws a debt or
    a credit, brings every debtor's debt to zero or every creditor's
    credit to zero, and brings both to zero when the total credit equals
    the total debt; a participant within 0.01 of zero takes part in no
    transaction.  What is left on the other side when the rounded balances
    do not cancel is not bounded by 0.01. *)
Theorem settlement_on_whole_cents
        (names : list string) (amounts : list float) (fuel : nat) :
  let b := snd (compute_balances names amounts) in
  all_cents b ->
  (num_creditors b + num_debtors b <= S fuel)%nat ->
  exists ts,
    settle_debts fuel b = Some ts /\
    let debt_left name bal := - to_cents bal - paid name ts in
    let credit_left name bal := to_cents bal - received name ts in
    let debtors_settled :=
      forall name bal, In (name, bal) b -> is_debtor (name, bal) = true ->
                       debt_left name bal = 0 in
    let creditors_settled :=
      forall name bal, In (name, bal) b -> is_creditor (name, bal) = true ->
                       credit_left name bal = 0 in
    (forall name bal, In (name, bal) b -> is_debtor (name, bal) = true ->
                      0 <= debt_left name bal) /\
    (forall name bal, In (name, bal) b -> is_creditor (name, bal) = true ->
                      0 <= credit_left name bal) /\
    (debtors_settled \/ creditors_settled) /\
    (total_credit b = total_debt b -> debtors_settled /\ creditors_settled) /\
    (forall name bal,
        In (name, bal) b ->
        is_creditor (name, bal) = false -> is_debtor (name, bal) = false ->
        -1 <= to_cents bal <= 1 /\ paid name ts = 0 /\ received name ts = 0).
Proof.
  intros b Hall Hfuel.
  assert (Hnd : NoDup (keys b)).
  { unfold b. rewrite compute_balances_unfold. cbv zeta. simpl snd.
    apply fill_NoDup. constructor. }
  destruct (settle_run_cents b fuel Hall) as [_ Htotal].
  destruct (Htotal Hfuel) as [st Hst].
  exists (transactions st).
  assert (Hrun : settle_debts fuel b = Some (transactions st))
    by (unfold settle_debts; rewrite Hst; reflexivity).
  split; [exact Hrun|].
  pose proof (settle_debts_on_cents b fuel _ Hnd Hall Hrun) as Hmain.
  cbv zeta in Hmain |- *. destruct Hmain as (H1 & H2 & H3 & H4).
  repeat (split; [assumption|]).
  intros name bal Hin Hc Hd.
  pose proof (settle_debts_parties b fuel _ Hrun) as Hparties.
  split; [|split].
  - apply unclassified_cents; auto.
    unfold all_cents in Hall. rewrite Forall_forall in Hall.
    apply Hall. apply (in_map snd) in Hin. exact Hin.
  - apply paid_absent. eapply Forall_impl; [|exact Hparties].
    intros t [Hp _] Heq. rewrite Heq in Hp.
    exact (not_debtor_name b name bal Hnd Hin Hd Hp).
  - apply received_absent. eapply Forall_impl; [|exact Hparties].
    intros t [_ Hr] Heq. rewrite Heq in Hr.
    exact (not_creditor_name b name bal Hnd Hin Hc Hr).
Qed.

Lemma settlement_on_whole_cents_witness :
  exists ts,
    settle_debts 6 balances_seven = Some ts /\
    (forall name bal,
        In (name, bal) balances_seven -> is_creditor (name, bal) = true ->
        0 <= to_cents bal - received name ts) /\
    ((forall name bal,
         In (name, bal) balances_seven -> is_debtor (name, bal) = true ->
         - to_cents bal - paid name ts = 0) \/
     (forall name bal,
         In (name, bal) balances_seven -> is_creditor (name, bal) = true ->
         to_cents bal - received name ts = 0)).
Proof.
  assert (Hb : snd (compute_balances names_seven amounts_seven) = balances_seven)
    by (vm_compute; reflexivity).
  assert (Hn : (num_creditors balances_seven + num_debtors balances_seven <= 7)%nat)
    by (vm_compute; lia).
  pose proof (settlement_on_whole_cents names_seven amounts_seven 6) as H.
  cbv zeta in H. rewrite Hb in H.
  destruct (H all_cents_seven Hn) as (ts & Hrun & Hd & Hc & Hside & _).
  exists ts. split; [exact Hrun|]. split; [exact Hc | exact Hside].
Defined.

(** C4, amended.  For a mapping whose values are whole cents of magnitude
    at most 10^12, the number of transactions returned is at most the
    number of creditors plus the number of debtors minus one, and zero
    when that is negative. *)
Theorem settle_debts_count_on_whole_cents
        (b : pydict) (fuel : nat) (ts : list transaction) :
  all_cents b ->
  settle_debts fuel b = Some ts ->
  Z.of_nat (length ts)
  <= Z.max 0 (Z.of_nat (num_creditors b) + Z.of_nat (num_debtors b) - 1).
Proof.
  intros Hall Hrun. unfold settle_debts in Hrun.
  destruct (settle_run fuel b) as [st|] eqn:Hst; [|discriminate].
  injection Hrun as <-.
  destruct (settle_run_cents b fuel Hall) as [Hpart _].
  destruct (Hpart st Hst) as (c0 & d0 & z & -> & Hpc & Hpd & Hinv & Hg).
  simpl transactions. rewrite length_map.
  apply Permutation_length in Hpc, Hpd.
  unfold zcreditors_of, zdebtors_of in Hpc, Hpd. rewrite length_map in Hpc, Hpd.
  fold (num_creditors b) in Hpc. fold (num_debtors b) in Hpd.
  destruct (zinv_count _ _ _ Hinv) as [_ [Hnil|Hcnt]].
  - rewrite Hnil. simpl. lia.
  - lia.
Qed.

Lemma settle_debts_count_on_whole_cents_witness :
  Z.of_nat (length [("B", "A", 25%float); ("C", "A", 25%float); ("D", "A", 25%float)])
  <= Z.max 0 (Z.of_nat (num_creditors balances_abcd)
              + Z.of_nat (num_debtors balances_abcd) - 1).
Proof.
  apply (settle_debts_count_on_whole_cents balances_abcd 3).
  - exact all_cents_abcd.
  - vm_compute; reflexivity.
Defined.



Lemma bpow_m12 : (bpow (-12) = / 4096)%R.
Proof. unfold bpow; simpl; lra. Qed.




(* ================================================================= *)
(** * Further properties of [settle_debts] and [compute_balances] *)

Lemma loop_guard_one_side_empty (b : pydict) :
  (num_creditors b = 0 \/ num_debtors b = 0)%nat ->
  loop_guard (settle_init b) = false.
Proof.
  intros H. destruct (settle_init_fields b) as (_ & Hc & Hd & _ & Hi & Hj).
  destruct (classify_lengths b) as [Lc Ld].
  unfold loop_guard. rewrite Hc, Hd, Hi, Hj, !sort_desc_length, Lc, Ld.
  destruct H as [-> | ->]; simpl; [apply andb_false_r | reflexivity].
Qed.

Lemma settle_debts_nothing_to_match (b : pydict) (fuel : nat) :
  (num_creditors b = 0 \/ num_debtors b = 0)%nat ->
  settle_debts fuel b = Some [].
Proof.
  intros H. apply loop_guard_one_side_empty in H.
  destruct (settle_init_fields b) as (_ & _ & _ & Ht & _).
  unfold settle_debts, settle_run.
  destruct fuel; simpl; rewrite H; simpl; rewrite Ht; reflexivity.
Qed.

Lemma dict_set_keys_incl (d : pydict) (k k' : string) (v : float) :
  In k' (keys (dict_set d k v)) -> In k' (keys d) \/ k' = k.
Proof.
  induction d as [|[k0 v0] d IH]; simpl.
  - intros [H|[]]; auto.
  - destruct (String.eqb_spec k0 k) as [->|Hne]; simpl; intros [H|H]; auto.
    destruct (IH H); auto.
Qed.

Lemma fill_keys_incl (share : float) (items : list (string * float)) (d : pydict)
      (k : string) :
  In k (keys (fill share d items)) -> In k (keys d) \/ In k (map fst items).
Proof.
  revert d; induction items as [|[name amt] items IH]; intros d H; auto.
  rewrite fill_cons in H. apply IH in H. simpl. destruct H as [H|H]; auto.
  apply dict_set_keys_incl in H. destruct H; auto.
Qed.

Lemma compute_balances_keys_incl (names : list string) (amounts : list float)
      (k : string) :
  In k (keys (snd (compute_balances names amounts))) -> In k names.
Proof.
  rewrite compute_balances_unfold. cbv zeta. simpl snd. intros H.
  apply fill_keys_incl in H. destruct H as [[]|H].
  apply in_map_iff in H as [[n a] [<- H]]. simpl.
  apply in_combine_l in H. exact H.
Qed.

Lemma compute_balances_keys_NoDup (names : list string) (amounts : list float) :
  NoDup (keys (snd (compute_balances names amounts))).
Proof.
  rewrite compute_balances_unfold. cbv zeta. simpl snd.
  apply fill_NoDup. constructor.
Qed.

(** X1.  In every list that [settle_debts] returns, whatever the floats of
    the mapping, the payer of a transaction is a key whose balance is below
    -0.01 and the receiver is a key whose balance is above 0.01. *)
Theorem settle_debts_pays_debtors_to_creditors
        (b : pydict) (fuel : nat) (ts : list transaction) :
  settle_debts fuel b = Some ts ->
  Forall (fun t =>
            (exists bal, In (fst (fst t), bal) b /\ (bal <? -0.01)%float = true) /\
            (exists bal, In (snd (fst t), bal) b /\ (0.01 <? bal)%float = true))
         ts.
Proof.
  intros Hrun. eapply Forall_impl; [|exact (settle_debts_parties b fuel ts Hrun)].
  intros [[payer receiver] amount] [Hp Hr]. simpl in *.
  apply in_map_iff in Hp as [[n v] [Hn Hp]]. apply filter_In in Hp as [Hp Hd].
  apply in_map_iff in Hr as [[n' v'] [Hn' Hr]]. apply filter_In in Hr as [Hr Hc].
  simpl in *. subst. split; eauto.
Qed.

Lemma settle_debts_pays_debtors_to_creditors_witness :
  Forall (fun t =>
            (exists bal, In (fst (fst t), bal) balances_abcd
                         /\ (bal <? -0.01)%float = true) /\
            (exists bal, In (snd (fst t), bal) balances_abcd
                         /\ (0.01 <? bal)%float = true))
         [("B", "A", 25%float); ("C", "A", 25%float); ("D", "A", 25%float)].
Proof.
  apply (settle_debts_pays_debtors_to_creditors balances_abcd 3).
  vm_compute; reflexivity.
Defined.

(** X2.  When the mapping has no balance above 0.01, or none below -0.01,
    [settle_debts] returns the empty list without a single pass of its
    loop: so for the empty mapping, for balances all within 0.01 of zero,
    for creditors only, for debtors only, and for NaN balances. *)
Theorem settle_debts_one_side_empty (b : pydict) (fuel : nat) :
  (num_creditors b = 0 \/ num_debtors b = 0)%nat ->
  settle_debts fuel b = Some [].
Proof.
  intros H. apply loop_guard_one_side_empty in H.
  destruct (settle_init_fields b) as (_ & _ & _ & Ht & _).
  unfold settle_debts, settle_run.
  destruct fuel; simpl; rewrite H; simpl; rewrite Ht; reflexivity.
Qed.

Lemma settle_debts_one_side_empty_witness :
  settle_debts 0 [("A", 30%float); ("B", 0.01%float); ("C", nan)] = Some [].
Proof.
  apply (settle_debts_one_side_empty [("A", 30%float); ("B", 0.01%float); ("C", nan)] 0).
  right. vm_compute; reflexivity.
Defined.

(** X3.  On a mapping of whole cents every amount that [settle_debts]
    records is itself a whole number of cents and at least one cent. *)
Theorem settle_debts_amounts_whole_cents
        (b : pydict) (fuel : nat) (ts : list transaction) :
  all_cents b ->
  settle_debts fuel b = Some ts ->
  Forall (fun t => is_cents (snd t) = true /\ 1 <= to_cents (snd t)) ts.
Proof.
  intros Hall Hrun. unfold settle_debts in Hrun.
  destruct (settle_run fuel b) as [st|] eqn:Hst; [|discriminate].
  injection Hrun as <-.
  destruct (settle_run_cents b fuel Hall) as [Hpart _].
  destruct (Hpart st Hst) as (c0 & d0 & z & -> & _ & _ & Hinv & _).
  simpl transactions. apply Forall_map.
  eapply Forall_impl; [|exact (zinv_positive _ _ _ Hinv)].
  intros [[p r] k] Hk. simpl in *.
  assert (Hb : Z.abs k <= cent_bound) by lia.
  rewrite (is_cents_cents k Hb), (to_cents_cents k Hb). split; [reflexivity|lia].
Qed.

Lemma settle_debts_amounts_whole_cents_witness :
  Forall (fun t => is_cents (snd t) = true /\ 1 <= to_cents (snd t))
         [("B", "A", 0.14%float); ("C", "A", 0.14%float); ("D", "A", 0.14%float);
          ("E", "A", 0.14%float); ("F", "A", 0.14%float); ("G", "A", 0.14%float)].
Proof.
  apply (settle_debts_amounts_whole_cents balances_seven 6).
  - exact all_cents_seven.
  - vm_compute; reflexivity.
Defined.

(** X4.  The two calls of the request handler, on any two lists (names
    repeated or not, lists of equal length or not): every transaction
    names two different submitted names. *)
Theorem calculate_parties_among_names
        (names : list string) (amounts : list float) (fuel : nat)
        (ts : list transaction) :
  out_transactions (fst (calculate fuel (mkInputs names amounts))) = Some ts ->
  Forall (fun t => In (fst (fst t)) names /\ In (snd (fst t)) names /\
                   fst (fst t) <> snd (fst t)) ts.
Proof.
  unfold calculate. simpl in_names. simpl in_amounts.
  pose proof (compute_balances_keys_NoDup names amounts) as Hnd.
  pose proof (compute_balances_keys_incl names amounts) as Hincl.
  destruct (compute_balances names amounts) as [[total share] b].
  simpl in *. intros Hrun.
  eapply Forall_impl; [|exact (settle_debts_parties b fuel ts Hrun)].
  intros [[payer receiver] amount] [Hp Hr]. simpl in *.
  apply in_map_iff in Hp as [[n v] [Hn Hp]]. apply filter_In in Hp as [Hp Hd].
  apply in_map_iff in Hr as [[n' v'] [Hn' Hr]]. apply filter_In in Hr as [Hr Hc].
  simpl in *. subst n n'.
  split; [apply Hincl; apply (in_map fst) in Hp; exact Hp|].
  split; [apply Hincl; apply (in_map fst) in Hr; exact Hr|].
  intros Heq. subst receiver.
  rewrite (keys_unique b payer v v' Hnd Hp Hr) in Hd.
  unfold is_creditor, is_debtor in *. simpl in *.
  rewrite (creditor_not_debtor v' Hc) in Hd. discriminate.
Qed.

Lemma calculate_parties_among_names_witness :
  Forall (fun t => In (fst (fst t)) ["A"; "B"; "A"] /\
                   In (snd (fst t)) ["A"; "B"; "A"] /\
                   fst (fst t) <> snd (fst t))
         [("A", "B", 30%float)].
Proof.
  apply (calculate_parties_among_names ["A"; "B"; "A"] [0; 90; 30; 60]%float 1).
  vm_compute; reflexivity.
Defined.

(* ================================================================= *)
(** * The console programme *)

(* ----------------------------------------------------------------- *)
(** ** What [get_group_data] returns *)

Lemma read_people_count_spec (B : builtins) (stdin out : list string)
      (r : outcome Z) (rest out' : list string) :
  read_people_count B stdin out = (r, rest, out') ->
  match r with
  | Returned n => 0 < n
  | Raised e => e = EOFError /\ rest = []
  end.
Proof.
  revert out; induction stdin as [|line stdin IH]; intros out; simpl.
  - intros [= <- <- _]; auto.
  - destruct (py_int B line) as [n|]; [|apply IH].
    destruct (Z.leb_spec n 0); [apply IH|].
    intros [= <- _ _]; lia.
Qed.

Lemma read_name_spec (B : builtins) (i : nat) (names stdin out : list string)
      (r : outcome string) (rest out' : list string) :
  read_name B i names stdin out = (r, rest, out') ->
  match r with
  | Returned name => name <> "" /\ ~ In name names
  | Raised e => e = EOFError /\ rest = []
  end.
Proof.
  revert out; induction stdin as [|line stdin IH]; intros out; simpl.
  - intros [= <- <- _]; auto.
  - destruct (String.eqb_spec (py_strip B line) "") as [|Hne]; [apply IH|].
    destruct (existsb (String.eqb (py_strip B line)) names) eqn:Hex; [apply IH|].
    intros [= <- _ _]. split; [exact Hne|].
    intros Hin. assert (Ht : existsb (String.eqb (py_strip B line)) names = true).
    { apply existsb_exists. exists (py_strip B line). split; [exact Hin|].
      apply String.eqb_refl. }
    congruence.
Qed.

Lemma read_amount_spec (B : builtins) (name : string) (stdin out : list string)
      (r : outcome float) (rest out' : list string) :
  read_amount B name stdin out = (r, rest, out') ->
  match r with
  | Returned amount => (amount <? 0)%float = false
  | Raised e => e = EOFError /\ rest = []
  end.
Proof.
  revert out; induction stdin as [|line stdin IH]; intros out; simpl.
  - intros [= <- <- _]; auto.
  - destruct (py_float B line) as [a|]; [|apply IH].
    destruct (a <? 0)%float eqn:Ha; [apply IH|].
    intros [= <- _ _]. exact Ha.
Qed.

Lemma read_people_spec (B : builtins) (count : nat) :
  forall (i : nat) (names : list string) (amounts : list float)
         (stdin out : list string)
         (r : outcome (list string * list float)) (rest out' : list string),
    read_people B count i names amounts stdin out = (r, rest, out') ->
    collected names amounts ->
    match r with
    | Returned (names', amounts') =>
        collected names' amounts' /\
        length names' = (length names + count)%nat
    | Raised e => e = EOFError /\ rest = []
    end.
Proof.
  induction count as [|count IH]; intros i names amounts stdin out r rest out'; simpl.
  - intros [= <- _ _] Hc. split; [exact Hc|lia].
  - destruct (read_name B i names stdin out) as [[[name|e] s1] o1] eqn:Hn.
    2:{ intros [= <- <- _] _.
        exact (read_name_spec _ _ _ _ _ _ _ _ Hn). }
    destruct (read_amount B name s1 o1) as [[[amount|e] s2] o2] eqn:Ha.
    2:{ intros [= <- <- _] _.
        exact (read_amount_spec _ _ _ _ _ _ _ Ha). }
    intros H (Hlen & Hnd & Hne & Hpos).
    apply read_name_spec in Hn as [Hn1 Hn2]. apply read_amount_spec in Ha.
    apply IH in H.
    + destruct r as [[names' amounts']|e]; [|exact H].
      destruct H as [Hc Hl]. split; [exact Hc|].
      rewrite Hl, length_app. simpl. lia.
    + repeat split.
      * rewrite !length_app. simpl. lia.
      * apply NoDup_app; [exact Hnd|repeat constructor; simpl; tauto|].
        intros x Hx [<-|[]]. exact (Hn2 Hx).
      * apply Forall_app; split; [exact Hne|repeat constructor; exact Hn1].
      * apply Forall_app; split; [exact Hpos|repeat constructor; exact Ha].
Qed.

Lemma get_group_data_spec (B : builtins) (stdin out : list string)
      (r : outcome (list string * list float)) (rest out' : list string) :
  get_group_data B stdin out = (r, rest, out') ->
  match r with
  | Returned (names, amounts) => collected names amounts /\ (0 < length names)%nat
  | Raised e => e = EOFError /\ rest = []
  end.
Proof.
  unfold get_group_data.
  destruct (read_people_count B stdin out) as [[[n|e] s1] o1] eqn:Hc.
  2:{ intros [= <- <- _].
      exact (read_people_count_spec _ _ _ _ _ _ Hc). }
  apply read_people_count_spec in Hc. intros H.
  apply read_people_spec in H.
  - destruct r as [[names amounts]|e]; [|exact H].
    destruct H as [Hcol Hl]. split; [exact Hcol|]. simpl in Hl. lia.
  - repeat split; constructor.
Qed.

(** X5.  When [get_group_data] returns, whatever was typed: there is at
    least one name, as many amounts as names, the names are pairwise
    distinct and none is empty, and no amount is below zero. *)
Theorem get_group_data_returns_clean_lists
        (B : builtins) (stdin out : list string)
        (names : list string) (amounts : list float) (rest out' : list string) :
  get_group_data B stdin out = (Returned (names, amounts), rest, out') ->
  (0 < length names)%nat /\ length amounts = length names /\ NoDup names /\
  Forall (fun name => name <> "") names /\
  Forall (fun amount => (amount <? 0)%float = false) amounts.
Proof.
  intros H. apply get_group_data_spec in H as [(H1 & H2 & H3 & H4) H0]. auto.
Qed.

Lemma get_group_data_returns_clean_lists_witness :
  (0 < length ["A"; "B"])%nat /\
  length [30%float; 10%float] = length ["A"; "B"] /\ NoDup ["A"; "B"] /\
  Forall (fun name => name <> "") ["A"; "B"] /\
  Forall (fun amount => (amount <? 0)%float = false) [30%float; 10%float].
Proof.
  apply (get_group_data_returns_clean_lists
           toy_builtins ["0"; "x"; "2"; ""; "A"; "30"; "A"; "B"; "y"; "10"; "z"] []
           ["A"; "B"] [30%float; 10%float] ["z"]
           (snd (get_group_data toy_builtins
                   ["0"; "x"; "2"; ""; "A"; "30"; "A"; "B"; "y"; "10"; "z"] []))).
  vm_compute; reflexivity.
Defined.

(* ----------------------------------------------------------------- *)
(** ** A well-formed script is taken as typed *)

Lemma read_name_accepts (B : builtins) (i : nat) (names : list string)
      (line : string) (rest out : list string) :
  py_strip B line <> "" -> ~ In (py_strip B line) names ->
  exists out',
    read_name B i names (line :: rest) out = (Returned (py_strip B line), rest, out')
    /\ length out' = S (length out).
Proof.
  intros Hne Hout. simpl.
  destruct (String.eqb_spec (py_strip B line) "") as [|_]; [contradiction|].
  destruct (existsb (String.eqb (py_strip B line)) names) eqn:Hex.
  - apply existsb_exists in Hex as [x [Hx He]].
    apply String.eqb_eq in He. subst x. contradiction.
  - eexists; split; [reflexivity|]. unfold write. rewrite length_app. simpl. lia.
Qed.

Lemma read_amount_accepts (B : builtins) (name line : string) (amount : float)
      (rest out : list string) :
  py_float B line = Some amount -> (amount <? 0)%float = false ->
  exists out',
    read_amount B name (line :: rest) out = (Returned amount, rest, out')
    /\ length out' = S (length out).
Proof.
  intros Hp Ha. simpl. rewrite Hp, Ha.
  eexists; split; [reflexivity|]. unfold write. rewrite length_app. simpl. lia.
Qed.

Lemma read_people_accepts (B : builtins) (people : list person) :
  forall (i : nat) (names : list string) (amounts : list float)
         (rest out : list string),
    NoDup (names ++ map (fun p => py_strip B (name_line p)) people)%list ->
    Forall (fun p => py_strip B (name_line p) <> "" /\
                     py_float B (amount_line p) = Some (amount_read p) /\
                     (amount_read p <? 0)%float = false) people ->
    exists out',
      read_people B (length people) i names amounts (script people ++ rest)%list out
      = (Returned ((names ++ map (fun p => py_strip B (name_line p)) people)%list,
                   (amounts ++ map amount_read people)%list), rest, out')
      /\ length out' = (length out + 2 * length people)%nat.
Proof.
  induction people as [|p people IH]; intros i names amounts rest out Hnd Hok.
  - simpl. rewrite !app_nil_r. eexists; split; [reflexivity|lia].
  - inversion Hok as [|? ? (Hne & Hp & Ha) Hok']; subst.
    assert (Hout : ~ In (py_strip B (name_line p)) names).
    { simpl in Hnd. apply NoDup_remove_2 in Hnd. intros Hin. apply Hnd.
      apply in_or_app; auto. }
    change (script (p :: people) ++ rest)%list
      with (name_line p :: amount_line p :: (script people ++ rest))%list.
    destruct (read_name_accepts B i names (name_line p)
                (amount_line p :: (script people ++ rest))%list out Hne Hout)
      as (o1 & Hn & Ho1).
    destruct (read_amount_accepts B (py_strip B (name_line p)) (amount_line p)
                (amount_read p) (script people ++ rest)%list o1 Hp Ha)
      as (o2 & Hm & Ho2).
    change (length (p :: people)) with (S (length people)).
    change (read_people B (S (length people)) i names amounts
              (name_line p :: amount_line p :: (script people ++ rest))%list out)
      with (match read_name B i names
                    (name_line p :: amount_line p :: (script people ++ rest))%list out
            with
            | (Raised e, stdin, out) => (Raised e, stdin, out)
            | (Returned name, stdin, out) =>
                match read_amount B name stdin out with
                | (Raised e, stdin, out) => (Raised e, stdin, out)
                | (Returned amount, stdin, out) =>
                    read_people B (length people) (S i) (names ++ [name])%list
                                (amounts ++ [amount])%list stdin out
                end
            end).
    rewrite Hn, Hm.
    destruct (IH (S i) (names ++ [py_strip B (name_line p)])%list
                 (amounts ++ [amount_read p])%list rest o2) as (o3 & Hr & Ho3).
    + rewrite <- app_assoc. exact Hnd.
    + exact Hok'.
    + exists o3. rewrite Hr, <- !app_assoc. split; [reflexivity|].
      simpl length. lia.
Qed.

Lemma get_group_data_on_script
        (B : builtins) (count_line : string) (people : list person)
        (rest out : list string) :
  py_int B count_line = Some (Z.of_nat (length people)) ->
  (0 < length people)%nat ->
  NoDup (map (fun p => py_strip B (name_line p)) people) ->
  Forall (fun p => py_strip B (name_line p) <> "" /\
                   py_float B (amount_line p) = Some (amount_read p) /\
                   (amount_read p <? 0)%float = false) people ->
  exists out',
    get_group_data B (count_line :: script people ++ rest)%list out
    = (Returned (map (fun p => py_strip B (name_line p)) people,
                 map amount_read people), rest, out')
    /\ length out' = (length out + 2 + 2 * length people)%nat.
Proof.
  intros Hc Hpos Hnd Hok. unfold get_group_data. simpl read_people_count.
  rewrite Hc. destruct (Z.leb_spec (Z.of_nat (length people)) 0) as [|_]; [lia|].
  rewrite Nat2Z.id.
  destruct (read_people_accepts B people 0 [] [] rest
              (say (write out (nl ++ "==> Enter the number of people in the group: "))
                   (nl ++ "==> Enter each person's name and the amount they spent:"))
              Hnd Hok) as (o & Hr & Ho).
  exists o. split; [exact Hr|].
  rewrite Ho. unfold say, write. rewrite !length_app. simpl. lia.
Qed.

(** X6.  A script without mistakes is taken as typed: when the first line
    reads as the number of people that follow, the stripped names are
    non-empty and pairwise distinct, and every amount line reads as a float
    that is not below zero, [get_group_data] returns the stripped names
    and the amounts in order, leaves the lines after the script unread,
    and writes nothing but its header and one prompt per line read. *)
Theorem get_group_data_accepts_script
        (B : builtins) (count_line : string) (people : list person)
        (rest out : list string) :
  py_int B count_line = Some (Z.of_nat (length people)) ->
  (0 < length people)%nat ->
  NoDup (map (fun p => py_strip B (name_line p)) people) ->
  Forall (fun p => py_strip B (name_line p) <> "" /\
                   py_float B (amount_line p) = Some (amount_read p) /\
                   (amount_read p <? 0)%float = false) people ->
  exists out',
    get_group_data B (count_line :: script people ++ rest)%list out
    = (Returned (map (fun p => py_strip B (name_line p)) people,
                 map amount_read people), rest, out')
    /\ length out' = (length out + 2 + 2 * length people)%nat.
Proof.
  intros Hc Hpos Hnd Hok.
  destruct (get_group_data_on_script B count_line people rest out Hc Hpos Hnd Hok)
    as (out' & Hrun & Hlen).
  exists out'. split; [exact Hrun | exact Hlen].
Qed.

Lemma get_group_data_accepts_script_witness :
  exists out',
    get_group_data toy_builtins ["2"; "A"; "30"; "B"; "10"; "z"] []
    = (Returned (["A"; "B"], [30%float; 10%float]), ["z"], out')
    /\ length out' = 6%nat.
Proof.
  apply (get_group_data_accepts_script toy_builtins "2"
           [("A", "30", 30%float); ("B", "10", 10%float)] ["z"] []).
  - reflexivity.
  - simpl; lia.
  - repeat constructor; simpl; intuition discriminate.
  - repeat constructor; try discriminate; vm_compute; reflexivity.
Defined.

(* ----------------------------------------------------------------- *)
(** ** When [print_summary] raises *)






(* ----------------------------------------------------------------- *)
(** ** [main] *)








(* ================================================================= *)
(** * Whole-cent amounts through [compute_balances] *)

Section WholeCentAmounts.

Local Open Scope R_scope.

(** The share of non-negative whole-cent amounts, against their exact
    sum. *)
Lemma share_of_whole_cents (n : nat) (amounts : list float) :
  n = length amounts -> (0 < n)%nat ->
  Forall (fun a => is_cents a = true /\ (0 <= to_cents a)%Z) amounts ->
  (Z.of_nat n <= 2 ^ 20)%Z ->
  (cents_sum amounts <= 10 ^ 13)%Z ->
  let share := (py_sum amounts / float_of_nat n)%float in
  nonneg (-79) share /\ F2R share <= 500000000000 /\
  Forall (nonneg (-79)) amounts /\
  Forall (fun a => F2R a <= 500000000000) amounts /\
  Rabs (Rsum amounts - INR n * F2R share) <= INR n * (3 * bpow (-13)).
Proof.
  intros Hlen Hn Ham HN HC share.
  set (total := py_sum amounts) in *.
  change (2 ^ 20)%Z with 1048576%Z in HN.
  change (10 ^ 13)%Z with 10000000000000%Z in HC.
  destruct (amounts_sum amounts Ham) as (Hnn & Heach & Hsum).
  pose proof (Rsum_nonneg _ _ Hnn) as Hs0.
  assert (HNr : 1 <= INR n <= 1048576).
  { rewrite INR_IZR_INZ. split; apply IZR_le; lia. }
  assert (HNZ : IZR (Z.of_nat n) = INR n) by (rewrite <- INR_IZR_INZ; reflexivity).
  rewrite <- Hlen in Hsum.
  set (N := INR n) in *.
  apply IZR_le in HC.
  pose proof bpow_m13 as H13. pose proof bpow_m12 as H12. pose proof bpow_40 as H40.
  rewrite H13 in Hsum. apply Rabs_le_bounds in Hsum.
  assert (Hzero : nonneg (-59) 0%float) by (left; exists false; reflexivity).
  assert (HF0 : F2R 0%float = 0) by (apply (F2R_zero _ false); reflexivity).
  destruct (fold_add_bound (-59) amounts ltac:(lia) 0%float Hzero Hnn)
    as [Htot Htoterr].
  { rewrite <- Hlen. fold N. rewrite HF0, H13, H40. lra. }
  fold (py_sum amounts) in Htot, Htoterr. rewrite <- Hlen in Htoterr.
  fold total N in Htot, Htoterr.
  rewrite HF0, H13 in Htoterr. apply Rabs_le_bounds in Htoterr.
  pose proof (nonneg_ge_0 _ _ Htot) as HT0.
  destruct (share_bound total n Htot ltac:(rewrite H40; lra) Hn HN)
    as [Hsh Hsherr].
  fold share in Hsh, Hsherr. rewrite HNZ, H12 in Hsherr.
  apply Rabs_le_bounds in Hsherr.
  set (T := F2R total) in *. set (S := F2R share) in *.
  set (Q := T / N) in *.
  assert (HQN : Q * N = T) by (unfold Q; field; lra).
  assert (HQ0 : 0 <= Q).
  { destruct (Rle_lt_dec 0 Q) as [|Hc]; [assumption|exfalso].
    assert (Q * N < 0 * N) by (apply Rmult_lt_compat_r; lra). lra. }
  assert (HQT : Q <= T).
  { assert (Q * 1 <= Q * N) by (apply Rmult_le_compat_l; lra). lra. }
  assert (HNS : N * S = T + N * (S - Q)) by (rewrite <- HQN; ring).
  assert (HNd : - (N * / 4096) <= N * (S - Q) <= N * / 4096).
  { split.
    - replace (- (N * / 4096)) with (N * (- / 4096)) by ring.
      apply Rmult_le_compat_l; lra.
    - apply Rmult_le_compat_l; lra. }
  split; [exact Hsh|]. split; [lra|]. split.
  { eapply Forall_impl; [|exact Hnn]. intros a Ha.
    eapply nonneg_weaken; [|exact Ha]. lia. }
  split.
  { eapply Forall_impl; [|exact Heach]. simpl. intros a Ha. lra. }
  rewrite H13. apply Rabs_le. lra.
Qed.

(** A balance against a share that is within three rounding errors of
    the amount: it rounds to zero. *)
Lemma round2_sub_near (a share : float) :
  nonneg (-79) a -> nonneg (-79) share ->
  F2R a <= 500000000000 -> F2R share <= 500000000000 ->
  Rabs (F2R a - F2R share) <= 3 * bpow (-13) ->
  exists s, Prim2SF (round2 (a - share)%float) = S754_zero s.
Proof.
  intros Ha Hs Hab Hsb Hnear.
  destruct (round2_sub_whole (-79) a share ltac:(lia) Ha Hs Hab Hsb) as [Hc Herr].
  rewrite bpow_m13 in *. apply Rabs_le_bounds in Hnear, Herr.
  set (n := to_cents (round2 (a - share)%float)) in *.
  assert (Hn : n = 0%Z).
  { assert (H1 : (-1 < n)%Z) by (apply lt_IZR; lra).
    assert (H2 : (n < 1)%Z) by (apply lt_IZR; lra). lia. }
  destruct (is_cents_cases _ Hc) as [Hz|(k & Hk0 & Hk & Heq)]; [exact Hz|].
  exfalso. unfold n in Hn. rewrite Heq, to_cents_cents in Hn by exact Hk. lia.
Qed.

End WholeCentAmounts.


Lemma cents_sum_repeat (a : float) (n : nat) :
  cents_sum (repeat a n) = Z.of_nat n * to_cents a.
Proof. induction n as [|n IH]; [reflexivity|]. simpl repeat. simpl cents_sum. lia. Qed.

Lemma Rsum_repeat (a : float) (n : nat) :
  Rsum (repeat a n) = (INR n * F2R a)%R.
Proof.
  induction n as [|n IH]; [simpl; lra|].
  simpl repeat. simpl Rsum. rewrite IH, S_INR. lra.
Qed.

Lemma zero_eqb (v : float) (s : bool) :
  Prim2SF v = S754_zero s -> (v =? 0)%float = true.
Proof.
  intros H. rewrite eqb_spec, H. destruct s; reflexivity.
Qed.

Lemma no_creditor_no_debtor (b : pydict) :
  Forall (fun v => exists s, Prim2SF v = S754_zero s) (values b) ->
  num_creditors b = 0%nat /\ num_debtors b = 0%nat.
Proof.
  unfold num_creditors, num_debtors.
  induction b as [|[k v] b IH]; simpl; intros H; [auto|].
  inversion H as [|? ? [s Hv] H']; subst.
  destruct (zero_unclassified v s Hv) as [H1 H2].
  unfold is_creditor at 1, is_debtor at 1. simpl. rewrite H1, H2. auto.
Qed.

(** X10.  When everyone paid the same non-negative whole-cent amount
    (pairwise distinct names, at most 2^20 of them, at most 10^11 in
    total), every balance that [compute_balances] returns equals zero and
    [settle_debts] returns no transaction. *)
Theorem equal_payments_need_no_settlement
        (names : list string) (a : float) (fuel : nat) :
  NoDup names ->
  Z.of_nat (length names) <= 2 ^ 20 ->
  is_cents a = true -> 0 <= to_cents a ->
  Z.of_nat (length names) * to_cents a <= 10 ^ 13 ->
  Forall (fun v => (v =? 0)%float = true)
         (values (snd (compute_balances names (repeat a (length names))))) /\
  settle_debts fuel (snd (compute_balances names (repeat a (length names))))
  = Some [].
Proof.
  intros Hnd HN Hc H0 Htot.
  set (amounts := repeat a (length names)).
  assert (Hlen : length names = length amounts)
    by (unfold amounts; rewrite repeat_length; reflexivity).
  assert (Hz : Forall (fun v => exists s, Prim2SF v = S754_zero s)
                      (values (snd (compute_balances names amounts)))).
  { rewrite (compute_balances_values names amounts Hlen Hnd).
    rewrite compute_balances_unfold. cbv zeta. simpl snd. simpl fst.
    destruct (Nat.ltb_spec 0 (length names)) as [Hn|Hn].
    2:{ assert (Ha : amounts = []) by (apply length_zero_iff_nil; lia).
        rewrite Ha. constructor. }
    assert (Ham : Forall (fun x => is_cents x = true /\ 0 <= to_cents x) amounts).
    { apply Forall_forall. intros x Hx. apply repeat_spec in Hx. subst x. auto. }
    assert (HC : cents_sum amounts <= 10 ^ 13)
      by (unfold amounts; rewrite cents_sum_repeat; exact Htot).
    destruct (share_of_whole_cents (length names) amounts Hlen Hn Ham HN HC)
      as (Hs & Hsb & Hl & Hlb & Hnear).
    apply Forall_map. rewrite Forall_forall in Hl, Hlb. apply Forall_forall.
    intros x Hx. pose proof (Hl x Hx) as Hx1. pose proof (Hlb x Hx) as Hx2.
    apply repeat_spec in Hx. subst x.
    apply round2_sub_near; try assumption.
    unfold amounts in Hnear. rewrite Rsum_repeat in Hnear.
    assert (HNr : (1 <= INR (length names))%R).
    { rewrite INR_IZR_INZ. apply IZR_le. lia. }
    set (N := INR (length names)) in *.
    set (A := F2R a) in *.
    fold amounts in Hnear.
    set (S := F2R (py_sum amounts / float_of_nat (length names))) in *.
    pose proof (bpow_pos (-13)) as H13.
    apply Rabs_le_bounds in Hnear. apply Rabs_le.
    split; apply (Rmult_le_reg_l N); lra. }
  split.
  - eapply Forall_impl; [|exact Hz]. intros v [s Hv]. exact (zero_eqb v s Hv).
  - apply settle_debts_nothing_to_match. left.
    exact (proj1 (no_creditor_no_debtor _ Hz)).
Qed.

Lemma equal_payments_need_no_settlement_witness :
  Forall (fun v => (v =? 0)%float = true)
         (values (snd (compute_balances ["A"; "B"; "C"]
                         (repeat 33.33%float (length ["A"; "B"; "C"]))))) /\
  settle_debts 0 (snd (compute_balances ["A"; "B"; "C"]
                         (repeat 33.33%float (length ["A"; "B"; "C"]))))
  = Some [].
Proof.
  apply (equal_payments_need_no_settlement ["A"; "B"; "C"] 33.33%float 0).
  - repeat constructor; simpl; intuition discriminate.
  - vm_compute; discriminate.
  - vm_compute; reflexivity.
  - vm_compute; discriminate.
  - vm_compute; discriminate.
Defined.

(* ================================================================= *)
(** * [main] from the first prompt to the last line of the summary *)






(* ================================================================= *)
(** * The first match of the sweep *)

Lemma In_zinsert_desc (x y : zentry) (l : list zentry) :
  In y (zinsert_desc x l) <-> y = x \/ In y l.
Proof.
  induction l as [|z l IH]; simpl; [intuition|].
  destruct (snd x <? snd z)%Z; simpl; rewrite ?IH; intuition.
Qed.

Lemma In_zsort_desc (y : zentry) (l : list zentry) :
  In y (zsort_desc l) <-> In y l.
Proof.
  induction l as [|x l IH]; simpl; [tauto|].
  rewrite In_zinsert_desc, IH. intuition.
Qed.

Lemma zsort_desc_length (l : list zentry) : length (zsort_desc l) = length l.
Proof.
  induction l as [|x l IH]; simpl; auto. rewrite <- IH. clear IH.
  induction (zsort_desc l) as [|z s IHs]; simpl; auto.
  destruct (snd x <? snd z)%Z; simpl; auto.
Qed.

Lemma zinsert_desc_in_range (x : zentry) (l : list zentry) :
  in_range x -> Forall in_range l -> Forall in_range (zinsert_desc x l).
Proof.
  intros Hx Hl. apply Forall_forall. intros y Hy.
  apply In_zinsert_desc in Hy as [->|Hy]; [exact Hx|].
  rewrite Forall_forall in Hl. auto.
Qed.

Lemma insert_desc_enc (x : zentry) (l : list zentry) :
  in_range x -> Forall in_range l ->
  insert_desc (enc_entry x) (map enc_entry l) = map enc_entry (zinsert_desc x l).
Proof.
  intros Hx. induction 1 as [|y l Hy Hl IH]; simpl; [reflexivity|].
  unfold in_range in Hx, Hy. rewrite cents_ltb by lia.
  destruct (snd x <? snd y)%Z; simpl; [rewrite IH|]; reflexivity.
Qed.

Lemma sort_desc_enc_sorted (l : list zentry) :
  Forall in_range l ->
  sort_desc (map enc_entry l) = map enc_entry (zsort_desc l) /\
  Forall in_range (zsort_desc l).
Proof.
  induction 1 as [|x l Hx Hl [IH1 IH2]]; simpl; [auto|].
  rewrite IH1, insert_desc_enc by assumption.
  split; [reflexivity|]. apply zinsert_desc_in_range; assumption.
Qed.

(** The first entry of a sorted list carries the largest amount. *)
Lemma zsort_desc_head (l : list zentry) (x : zentry) (rest : list zentry) :
  zsort_desc l = x :: rest -> forall y, In y l -> snd y <= snd x.
Proof.
  revert x rest. induction l as [|a l IH]; intros x rest; simpl; [discriminate|].
  destruct (zsort_desc l) as [|z s] eqn:Hs; simpl.
  - intros [= <- _] y [<-|Hy]; [lia|].
    apply In_zsort_desc in Hy. rewrite Hs in Hy. destruct Hy.
  - specialize (IH z s eq_refl).
    destruct (Z.ltb_spec (snd a) (snd z)); intros [= <- _] y [<-|Hy];
      try lia; specialize (IH y Hy); lia.
Qed.

(** The loop only appends to [transactions]. *)
Lemma loop_body_appends (st : frame) :
  exists more, transactions (loop_body st) = (transactions st ++ more)%list.
Proof.
  unfold loop_body.
  destruct (nth_error (debtors st) (idx_i st)) as [[dn dv]|];
    [|exists []; rewrite app_nil_r; reflexivity].
  destruct (nth_error (creditors st) (idx_j st)) as [[cn cv]|];
    [|exists []; rewrite app_nil_r; reflexivity].
  simpl. destruct (0 <? round2 (py_min dv cv))%float;
    [eexists; reflexivity | exists []; rewrite app_nil_r; reflexivity].
Qed.

Lemma while_loop_appends (fuel : nat) (st st' : frame) :
  while_loop fuel st = Some st' ->
  exists more, transactions st' = (transactions st ++ more)%list.
Proof.
  revert st; induction fuel as [|fuel IH]; intros st; simpl;
    destruct (loop_guard st); try discriminate;
    try (intros [= <-]; exists []; rewrite app_nil_r; reflexivity).
  intros H. apply IH in H as [more H].
  destruct (loop_body_appends st) as [m1 Hm]. rewrite Hm, <- app_assoc in H. eauto.
Qed.

Lemma settle_init_cents_sorted (b : pydict) :
  all_cents b ->
  settle_init b
  = enc_frame b (mkZFrame (zsort_desc (zcreditors_of b))
                          (zsort_desc (zdebtors_of b)) [] 0 0) /\
  Forall (fun e => 2 <= snd e <= cent_bound) (zcreditors_of b) /\
  Forall (fun e => 2 <= snd e <= cent_bound) (zdebtors_of b).
Proof.
  intros Hall. destruct (classify_cents b Hall) as (Hc & Hd & Hrc & Hrd).
  assert (Hrc' : Forall in_range (zcreditors_of b))
    by (eapply Forall_impl; [|exact Hrc]; unfold in_range; simpl; intros; lia).
  assert (Hrd' : Forall in_range (zdebtors_of b))
    by (eapply Forall_impl; [|exact Hrd]; unfold in_range; simpl; intros; lia).
  destruct (sort_desc_enc_sorted _ Hrc') as [Hsc _].
  destruct (sort_desc_enc_sorted _ Hrd') as [Hsd _].
  split; [|auto]. unfold settle_init.
  destruct (classify b) as [cs ds]. simpl in Hc, Hd. subst cs ds.
  rewrite Hsc, Hsd. reflexivity.
Qed.

Lemma first_match_on_cents (b : pydict) (fuel : nat) (ts : list transaction) :
  all_cents b ->
  settle_debts fuel b = Some ts ->
  (0 < num_creditors b)%nat -> (0 < num_debtors b)%nat ->
  exists payer receiver bal_p bal_r rest,
    ts = (payer, receiver, cents (Z.min (- to_cents bal_p) (to_cents bal_r))) :: rest /\
    In (payer, bal_p) b /\ is_debtor (payer, bal_p) = true /\
    In (receiver, bal_r) b /\ is_creditor (receiver, bal_r) = true /\
    (forall name bal, In (name, bal) b -> is_debtor (name, bal) = true ->
                      to_cents bal_p <= to_cents bal) /\
    (forall name bal, In (name, bal) b -> is_creditor (name, bal) = true ->
                      to_cents bal <= to_cents bal_r).
Proof.
  intros Hall Hrun Hnc Hnd.
  destruct (settle_init_cents_sorted b Hall) as (Hinit & Hrc & Hrd).
  assert (Hlc : length (zsort_desc (zcreditors_of b)) = num_creditors b)
    by (rewrite zsort_desc_length; unfold zcreditors_of; apply length_map).
  assert (Hld : length (zsort_desc (zdebtors_of b)) = num_debtors b)
    by (rewrite zsort_desc_length; unfold zdebtors_of; apply length_map).
  destruct (zsort_desc (zcreditors_of b)) as [|[cn cv] c0] eqn:Ec;
    [simpl in Hlc; lia|].
  destruct (zsort_desc (zdebtors_of b)) as [|[dn dv] d0] eqn:Ed;
    [simpl in Hld; lia|].
  pose proof (zsort_desc_head _ _ _ Ec) as Hcmax.
  pose proof (zsort_desc_head _ _ _ Ed) as Hdmax.
  assert (Hcin : In (cn, cv) (zcreditors_of b))
    by (apply In_zsort_desc; rewrite Ec; left; reflexivity).
  assert (Hdin : In (dn, dv) (zdebtors_of b))
    by (apply In_zsort_desc; rewrite Ed; left; reflexivity).
  rewrite Forall_forall in Hrc, Hrd.
  pose proof (Hrc _ Hcin) as Hcv. pose proof (Hrd _ Hdin) as Hdv. simpl in Hcv, Hdv.
  (* the first pass *)
  pose (z0 := mkZFrame ((cn, cv) :: c0) ((dn, dv) :: d0) [] 0 0).
  change (settle_init b = enc_frame b z0) in Hinit.
  unfold settle_debts, settle_run in Hrun. rewrite Hinit in Hrun.
  assert (Hgood : zgood z0).
  { split; simpl; apply Forall_forall; intros e He.
    - assert (In e (zcreditors_of b))
        by (apply In_zsort_desc; rewrite Ec; exact He).
      specialize (Hrc e H). unfold in_range. lia.
    - assert (In e (zdebtors_of b))
        by (apply In_zsort_desc; rewrite Ed; exact He).
      specialize (Hrd e H). unfold in_range. lia. }
  destruct (while_loop fuel (enc_frame b z0)) as [st|] eqn:Hloop; [|discriminate].
  injection Hrun as <-.
  assert (Hg : loop_guard (enc_frame b z0) = true)
    by (rewrite loop_guard_enc; reflexivity).
  destruct fuel as [|fuel];
    [change (while_loop 0 (enc_frame b z0))
       with (if loop_guard (enc_frame b z0)
             then @None frame else Some (enc_frame b z0)) in Hloop
    |change (while_loop (S fuel) (enc_frame b z0))
       with (if loop_guard (enc_frame b z0)
             then while_loop fuel (loop_body (enc_frame b z0))
             else Some (enc_frame b z0)) in Hloop];
    rewrite Hg in Hloop; [discriminate|].
  rewrite (loop_body_enc b z0 Hgood) in Hloop.
  apply while_loop_appends in Hloop as [more Hmore].
  assert (Hfirst : transactions (enc_frame b (zloop_body z0))
                   = [(dn, cn, cents (Z.min dv cv))]).
  { unfold zloop_body, z0. simpl.
    assert (Hmin : (if (cv <? dv)%Z then cv else dv) = Z.min dv cv)
      by (destruct (Z.ltb_spec cv dv); lia).
    rewrite Hmin. destruct (Z.ltb_spec 0 (Z.min dv cv)); [reflexivity|lia]. }
  rewrite Hfirst in Hmore.
  unfold zcreditors_of in Hcin. apply in_map_iff in Hcin as [[rn rv] [Hr Hcin]].
  apply filter_In in Hcin as [Hcin Hcred]. simpl in Hr. injection Hr as -> <-.
  unfold zdebtors_of in Hdin. apply in_map_iff in Hdin as [[pn pv] [Hp Hdin]].
  apply filter_In in Hdin as [Hdin Hdeb]. simpl in Hp. injection Hp as -> <-.
  exists dn, cn, pv, rv, more. split; [exact Hmore|].
  repeat (split; [assumption|]). split.
  - intros name bal Hin Hd.
    assert (H : In (name, - to_cents bal) (zdebtors_of b))
      by (apply debtor_in_zdebtors; assumption).
    specialize (Hdmax _ H). simpl in Hdmax. lia.
  - intros name bal Hin Hc.
    assert (H : In (name, to_cents bal) (zcreditors_of b))
      by (apply creditor_in_zcreditors; assumption).
    specialize (Hcmax _ H). simpl in Hcmax. lia.
Qed.

(** X12.  The greedy start.  On a mapping of whole cents with at least one
    creditor and one debtor, the first transaction that [settle_debts]
    returns is paid by a debtor who owes the most to a creditor who is owed
    the most, and its amount is the smaller of the two amounts. *)
Theorem settle_debts_starts_with_the_largest
        (b : pydict) (fuel : nat) (ts : list transaction) :
  all_cents b ->
  settle_debts fuel b = Some ts ->
  (0 < num_creditors b)%nat -> (0 < num_debtors b)%nat ->
  exists payer receiver bal_p bal_r rest,
    ts = (payer, receiver, cents (Z.min (- to_cents bal_p) (to_cents bal_r))) :: rest /\
    In (payer, bal_p) b /\ is_debtor (payer, bal_p) = true /\
    In (receiver, bal_r) b /\ is_creditor (receiver, bal_r) = true /\
    (forall name bal, In (name, bal) b -> is_debtor (name, bal) = true ->
                      to_cents bal_p <= to_cents bal) /\
    (forall name bal, In (name, bal) b -> is_creditor (name, bal) = true ->
                      to_cents bal <= to_cents bal_r).
Proof.
  intros Hall Hrun Hnc Hnd.
  destruct (first_match_on_cents b fuel ts Hall Hrun Hnc Hnd)
    as (payer & receiver & bal_p & bal_r & rest & H).
  exists payer, receiver, bal_p, bal_r, rest. exact H.
Qed.

Lemma settle_debts_starts_with_the_largest_witness :
  exists payer receiver bal_p bal_r rest,
    [("B", "A", 0.14%float); ("C", "A", 0.14%float); ("D", "A", 0.14%float);
     ("E", "A", 0.14%float); ("F", "A", 0.14%float); ("G", "A", 0.14%float)]
    = (payer, receiver, cents (Z.min (- to_cents bal_p) (to_cents bal_r))) :: rest /\
    In (payer, bal_p) balances_seven /\ is_debtor (payer, bal_p) = true /\
    In (receiver, bal_r) balances_seven /\ is_creditor (receiver, bal_r) = true /\
    (forall name bal, In (name, bal) balances_seven ->
                      is_debtor (name, bal) = true ->
                      to_cents bal_p <= to_cents bal) /\
    (forall name bal, In (name, bal) balances_seven ->
                      is_creditor (name, bal) = true ->
                      to_cents bal <= to_cents bal_r).
Proof.
  apply (settle_debts_starts_with_the_largest balances_seven 6).
  - exact all_cents_seven.
  - vm_compute; reflexivity.
  - vm_compute; lia.
  - vm_compute; lia.
Defined.

(* ================================================================= *)
(** * How much a plan moves *)

Lemma sum_of_sub {A : Type} (f g : A -> Z) (l : list A) :
  sum_of (fun x => f x - g x) l = sum_of f l - sum_of g l.
Proof. induction l as [|x l IH]; simpl; lia. Qed.

Lemma sum_of_nonneg {A : Type} (f : A -> Z) (l : list A) :
  (forall x, In x l -> 0 <= f x) -> 0 <= sum_of f l.
Proof.
  induction l as [|x l IH]; simpl; intros H; [lia|].
  assert (0 <= f x) by auto. assert (0 <= sum_of f l) by auto. lia.
Qed.

Lemma sum_of_zero {A : Type} (f : A -> Z) (l : list A) :
  (forall x, In x l -> f x = 0) -> sum_of f l = 0.
Proof.
  induction l as [|x l IH]; simpl; intros H; [lia|].
  rewrite (H x), IH by auto. lia.
Qed.

Lemma sum_of_map {A B : Type} (h : A -> B) (f : B -> Z) (l : list A) :
  sum_of f (map h l) = sum_of (fun x => f (h x)) l.
Proof. induction l as [|x l IH]; simpl; congruence. Qed.

Lemma zsum_sum_of (l : list zentry) : zsum l = sum_of snd l.
Proof. induction l as [|x l IH]; simpl; congruence. Qed.

(** One name among pairwise distinct names. *)
Lemma sum_of_indicator (p : string) (a : Z) (names : list string) :
  NoDup names -> In p names ->
  sum_of (fun n => if String.eqb p n then a else 0) names = a.
Proof.
  induction 1 as [|n names Hout Hnd IH]; simpl; [tauto|].
  destruct (String.eqb_spec p n) as [->|Hne].
  - intros _. rewrite sum_of_zero; [lia|].
    intros x Hx. destruct (String.eqb_spec n x); [subst; contradiction|reflexivity].
  - intros [H|H]; [congruence|]. rewrite IH by exact H. lia.
Qed.

Lemma paid_over_names (names : list string) (ts : list transaction) :
  NoDup names -> Forall (fun t => In (fst (fst t)) names) ts ->
  sum_of (fun n => paid n ts) names = moved ts.
Proof.
  intros Hnd. induction 1 as [|[[p r] a] ts Hp _ IH]; simpl.
  - apply sum_of_zero. reflexivity.
  - simpl in Hp. rewrite <- IH, <- (sum_of_indicator p (to_cents a) names Hnd Hp) at 1.
    clear. induction names as [|n names IH]; simpl; [reflexivity|].
    rewrite IH. lia.
Qed.

Lemma received_over_names (names : list string) (ts : list transaction) :
  NoDup names -> Forall (fun t => In (snd (fst t)) names) ts ->
  sum_of (fun n => received n ts) names = moved ts.
Proof.
  intros Hnd. induction 1 as [|[[p r] a] ts Hp _ IH]; simpl.
  - apply sum_of_zero. reflexivity.
  - simpl in Hp. rewrite <- IH, <- (sum_of_indicator r (to_cents a) names Hnd Hp) at 1.
    clear. induction names as [|n names IH]; simpl; [reflexivity|].
    rewrite IH. lia.
Qed.

Lemma moved_on_cents (b : pydict) (fuel : nat) (ts : list transaction) :
  NoDup (keys b) -> all_cents b ->
  settle_debts fuel b = Some ts ->
  moved ts = Z.min (total_debt b) (total_credit b).
Proof.
  intros Hnd Hall Hrun.
  pose proof (settle_debts_on_cents b fuel ts Hnd Hall Hrun) as H.
  cbv zeta in H. destruct H as (Hd & Hc & Hside & _).
  pose proof (settle_debts_parties b fuel ts Hrun) as Hparties.
  set (D := filter is_debtor b). set (C := filter is_creditor b).
  assert (HmD : sum_of (fun e => paid (fst e) ts) D = moved ts).
  { rewrite <- (sum_of_map fst (fun n => paid n ts)).
    apply paid_over_names; [apply NoDup_names_filter, Hnd|].
    eapply Forall_impl; [|exact Hparties]. intros t [Ht _]. exact Ht. }
  assert (HmC : sum_of (fun e => received (fst e) ts) C = moved ts).
  { rewrite <- (sum_of_map fst (fun n => received n ts)).
    apply received_over_names; [apply NoDup_names_filter, Hnd|].
    eapply Forall_impl; [|exact Hparties]. intros t [_ Ht]. exact Ht. }
  assert (HtD : total_debt b = sum_of (fun e => - to_cents (snd e)) D).
  { unfold total_debt, zdebtors_of. rewrite zsum_sum_of, sum_of_map. reflexivity. }
  assert (HtC : total_credit b = sum_of (fun e => to_cents (snd e)) C).
  { unfold total_credit, zcreditors_of. rewrite zsum_sum_of, sum_of_map. reflexivity. }
  pose proof (sum_of_sub (fun e => - to_cents (snd e))
                         (fun e => paid (fst e) ts) D) as HD.
  pose proof (sum_of_sub (fun e => to_cents (snd e))
                         (fun e => received (fst e) ts) C) as HC.
  cbv beta in HD, HC.
  assert (HD0 : 0 <= sum_of (fun e => - to_cents (snd e) - paid (fst e) ts) D).
  { apply sum_of_nonneg. intros [n v] Hin. apply filter_In in Hin as [Hin He].
    simpl. apply (Hd n v Hin He). }
  assert (HC0 : 0 <= sum_of (fun e => to_cents (snd e) - received (fst e) ts) C).
  { apply sum_of_nonneg. intros [n v] Hin. apply filter_In in Hin as [Hin He].
    simpl. apply (Hc n v Hin He). }
  destruct Hside as [Hs|Hs].
  - assert (Hz : sum_of (fun e => - to_cents (snd e) - paid (fst e) ts) D = 0).
    { apply sum_of_zero. intros [n v] Hin. apply filter_In in Hin as [Hin He].
      simpl. apply (Hs n v Hin He). }
    lia.
  - assert (Hz : sum_of (fun e => to_cents (snd e) - received (fst e) ts) C = 0).
    { apply sum_of_zero. intros [n v] Hin. apply filter_In in Hin as [Hin He].
      simpl. apply (Hs n v Hin He). }
    lia.
Qed.

(** X13.  On a mapping of whole cents with pairwise distinct keys, the
    amounts of the transactions that [settle_debts] returns add up to the
    smaller of the total debt and the total credit. *)
Theorem settle_debts_moves_the_smaller_total
        (b : pydict) (fuel : nat) (ts : list transaction) :
  NoDup (keys b) -> all_cents b ->
  settle_debts fuel b = Some ts ->
  moved ts = Z.min (total_debt b) (total_credit b).
Proof.
  intros Hnd Hall Hrun.
  rewrite (moved_on_cents b fuel ts Hnd Hall Hrun). reflexivity.
Qed.

Lemma settle_debts_moves_the_smaller_total_witness :
  moved [("B", "A", 0.14%float); ("C", "A", 0.14%float); ("D", "A", 0.14%float);
         ("E", "A", 0.14%float); ("F", "A", 0.14%float); ("G", "A", 0.14%float)]
  = Z.min (total_debt balances_seven) (total_credit balances_seven).
Proof.
  apply (settle_debts_moves_the_smaller_total balances_seven 6).
  - repeat constructor; simpl; intuition discriminate.
  - exact all_cents_seven.
  - vm_compute; reflexivity.
Defined.
